(** * Adaptive routing for a leaf-spine data-center fabric

  A shallow embedding of the routing-decision and monitoring code of the
  repository:

  - [routing/adaptive_routing.py]: [FlowletRouter], [CongestionAwareRouter],
    [AdaptiveRoutingController];
  - [routing/monitor.py]: [NetworkMonitor.compute_link_utilization],
    [FlowCompletionTracker.get_fct_stats];
  - [analyze_results.py]: [ResultsAnalyzer.analyze_utilization],
    [ComparisonAnalyzer.compare_metrics];
  - [routing/ecmp_routing.py]: [ECMPRouter.build_routing_table].

  Numbers.  Python's [int] and [float] values are modelled by exact
  rationals ([Q]) in the routing and monitoring code, and by real numbers
  ([R]) where numpy's standard deviation (a square root) is involved.
  Rounding, infinities and NaN are therefore outside the model.

  Exceptions.  A Python call either returns or raises; fallible functions
  return a [result].

  Locks.  [FlowletRouter] runs every method body under [self.lock]; a call
  is therefore one atomic transition of the router's state, which is how it
  is modelled. *)

From Stdlib Require Import ZArith QArith Qround Lqa Reals Lra List.
From Stdlib Require Import Ascii String DecimalString DecimalNat.
From Stdlib Require HexadecimalString.
From stdpp Require Import gmap strings list sorting.

(** ** Python runtime *)

Module Py.

Inductive exn : Type :=
| ValueError
| ZeroDivisionError
| KeyError
| IndexError.

Inductive result (A : Type) : Type :=
| Ok (a : A)
| Raise (e : exn).
Arguments Ok {A} a.
Arguments Raise {A} e.

Definition bind {A B} (r : result A) (k : A -> result B) : result B :=
  match r with
  | Ok a => k a
  | Raise e => Raise e
  end.

Definition returns {A} (r : result A) : Prop := exists a, r = Ok a.

(** [x < y] on numbers. *)
Definition Qltb (x y : Q) : bool := negb (Qle_bool y x).

(** [min(iterable, key=f)]: the running best is replaced only by an item
    whose key is strictly smaller, so the first minimal item wins; an empty
    iterable raises [ValueError]. *)
Fixpoint min_from {A} (key : A -> Q) (best : A) (items : list A) : A :=
  match items with
  | [] => best
  | x :: rest =>
      if Qltb (key x) (key best) then min_from key x rest
      else min_from key best rest
  end.

Definition min_key {A} (key : A -> Q) (items : list A) : result A :=
  match items with
  | [] => Raise ValueError
  | x :: rest => Ok (min_from key x rest)
  end.

(** A [dict] where the order of the keys is observed: keys are kept in the
    order of their first insertion, and assigning to a key that is present
    replaces its value in place. *)
Definition dict (K V : Type) : Type := list (K * V).

Fixpoint dict_set {K V} `{EqDecision K} (d : dict K V) (k : K) (v : V) : dict K V :=
  match d with
  | [] => [(k, v)]
  | (k', v') :: d' =>
      if decide (k' = k) then (k, v) :: d' else (k', v') :: dict_set d' k v
  end.

Fixpoint dict_get {K V} `{EqDecision K} (d : dict K V) (k : K) : option V :=
  match d with
  | [] => None
  | (k', v') :: d' => if decide (k' = k) then Some v' else dict_get d' k
  end.

Definition dict_keys {K V} (d : dict K V) : list K := map fst d.

(** [sum(xs)]: the running total starts at 0 and takes the items in order. *)
Definition sum (xs : list Q) : Q := fold_left Qplus xs 0%Q.

(** A loop whose body may raise: the first exception ends it. *)
Fixpoint for_each {A S} (body : S -> A -> result S) (items : list A) (s : S) : result S :=
  match items with
  | [] => Ok s
  | x :: rest => bind (body s x) (for_each body rest)
  end.

(** [x / y] *)
Definition div (x y : Q) : result Q :=
  if Qeq_bool y 0 then Raise ZeroDivisionError else Ok (x / y)%Q.

(** [int(x)]: truncation towards zero. *)
Definition int (x : Q) : Z := Z.quot (Qnum x) (Z.pos (Qden x)).

(** [xs[i]] for an index [0 <= i]. *)
Definition index {A} (xs : list A) (i : Z) : result A :=
  match xs !! Z.to_nat i with
  | Some x => Ok x
  | None => Raise IndexError
  end.

(** [xs.sort()] on numbers: a stable sort, so equal items keep their order. *)
Fixpoint insert_sorted (x : Q) (sorted : list Q) : list Q :=
  match sorted with
  | [] => [x]
  | y :: rest => if Qltb x y then x :: y :: rest else y :: insert_sorted x rest
  end.

Definition sort (xs : list Q) : list Q :=
  fold_left (fun sorted x => insert_sorted x sorted) xs [].

(** [max(xs)]: the first maximal item; [ValueError] on an empty list. *)
Fixpoint max_from (best : Q) (items : list Q) : Q :=
  match items with
  | [] => best
  | x :: rest => if Qltb best x then max_from x rest else max_from best rest
  end.

Definition max (xs : list Q) : result Q :=
  match xs with
  | [] => Raise ValueError
  | x :: rest => Ok (max_from x rest)
  end.

(** [min(xs)] *)
Definition min (xs : list Q) : result Q := min_key (fun x => x) xs.

(** [str(n)] for a natural number: its decimal digits. *)
Definition str (n : nat) : string := NilZero.string_of_uint (Nat.to_uint n).

(** [int(s)] for a string of decimal digits.  The other spellings Python
    accepts (a sign, surrounding blanks, underscores between digits) are not
    modelled and read as errors, as does the empty string. *)
Definition int_of_str (s : string) : result nat :=
  match NilZero.uint_of_string s with
  | Some d => Ok (Nat.of_uint d)
  | None => Raise ValueError
  end.

(** [sub in s] on strings. *)
Fixpoint contains (sub s : string) : bool :=
  if String.prefix sub s then true
  else match s with
       | EmptyString => false
       | String _ rest => contains sub rest
       end.

(** [s.replace(old, '')] for a non-empty [old]: every occurrence of [old],
    scanning from the left, is dropped.  [skip] counts the characters of a
    match still to be dropped. *)
Fixpoint remove_from (old : string) (skip : nat) (s : string) : string :=
  match s with
  | EmptyString => EmptyString
  | String c rest =>
      match skip with
      | S skip' => remove_from old skip' rest
      | O =>
          if String.prefix old s then remove_from old (String.length old - 1) rest
          else String c (remove_from old 0 rest)
      end
  end.

Definition remove_all (old s : string) : string := remove_from old 0 s.

(** [sep.join(xs)] *)
Fixpoint join (sep : string) (xs : list string) : string :=
  match xs with
  | [] => EmptyString
  | [x] => x
  | x :: rest => x +:+ sep +:+ join sep rest
  end.

End Py.

Import Py.

(** ** routing/adaptive_routing.py : FlowletRouter *)

(** A path identifier, and the [(src_ip, dst_ip, flow_id)] key of a flow. *)
Definition path_id : Type := Z.
Definition flow_key : Type := string * string * Z.

Module FlowletRouter.

Record t : Type := mk {
  flowlet_timeout : Q;
  (** [(src, dst, flow_id) -> (last_time, path_id)] *)
  flowlet_table : gmap flow_key (Q * path_id);
  (** [path_id -> current load estimate] *)
  path_loads : gmap path_id Q
}.

(** [__init__] *)
Definition init (flowlet_timeout : Q) : t :=
  mk flowlet_timeout ∅ ∅.

Definition set_table (self : t) (tbl : gmap flow_key (Q * path_id)) : t :=
  mk (flowlet_timeout self) tbl (path_loads self).

(** [self.path_loads.get(p, 0)] *)
Definition load_of (self : t) (p : path_id) : Q :=
  default 0%Q (path_loads self !! p).

(** The tail of [get_flowlet_path]: a new flowlet takes the least loaded
    path and records it. *)
Definition new_flowlet (self : t) (key : flow_key)
    (available_paths : list path_id) (current_time : Q) : t * result path_id :=
  match min_key (load_of self) available_paths with
  | Ok selected_path =>
      (set_table self (<[key := (current_time, selected_path)]> (flowlet_table self)),
       Ok selected_path)
  | Raise e => (self, Raise e)
  end.

Definition get_flowlet_path (self : t) (key : flow_key)
    (available_paths : list path_id) (current_time : Q) : t * result path_id :=
  match flowlet_table self !! key with
  | Some (last_time, last_path) =>
      if Qltb (current_time - last_time) (flowlet_timeout self) then
        (set_table self (<[key := (current_time, last_path)]> (flowlet_table self)),
         Ok last_path)
      else new_flowlet self key available_paths current_time
  | None => new_flowlet self key available_paths current_time
  end.

(** [self.path_loads[path_id] += load_delta] on a [defaultdict] of 0. *)
Definition update_path_load (self : t) (p : path_id) (load_delta : Q) : t :=
  mk (flowlet_timeout self) (flowlet_table self)
     (<[p := (load_of self p + load_delta)%Q]> (path_loads self)).

(** The calls a router can receive, and their effect on its state. *)
Inductive call : Type :=
| GetPath (key : flow_key) (available_paths : list path_id) (current_time : Q)
| UpdateLoad (p : path_id) (load_delta : Q).

Definition step (self : t) (c : call) : t :=
  match c with
  | GetPath key paths now => fst (get_flowlet_path self key paths now)
  | UpdateLoad p d => update_path_load self p d
  end.

Definition run (self : t) (calls : list call) : t := fold_left step calls self.

(** The lookup opens a new flowlet: [key] has no entry, or its entry is at
    least [flowlet_timeout] old. *)
Definition opens_flowlet (self : t) (key : flow_key) (current_time : Q) : Prop :=
  match flowlet_table self !! key with
  | Some (last_time, _) => (flowlet_timeout self <= current_time - last_time)%Q
  | None => True
  end.

(** A call that is not a path lookup for [key]. *)
Definition other_key (key : flow_key) (c : call) : Prop :=
  match c with
  | GetPath key' _ _ => key' ≠ key
  | UpdateLoad _ _ => True
  end.

End FlowletRouter.

(** ** routing/adaptive_routing.py : CongestionAwareRouter *)

(** A link is named by its [(switch, port)] pair. *)
Definition link : Type := string * Z.

Module CongestionAwareRouter.

(** The value kept per link: [{'util': float, 'queue': int, ...}]. *)
Record link_stat : Type := mk_stat {
  util : Q;
  queue : Z;
  bytes_tx : Z;
  bytes_rx : Z
}.

Record t : Type := mk {
  probe_interval : Q;
  congestion_threshold : Q;
  (** [(switch, port) -> stats], the latest reading per link *)
  link_stats : gmap link link_stat;
  (** whether the background probe is running *)
  monitoring : bool
}.

(** [__init__] *)
Definition init (probe_interval congestion_threshold : Q) : t :=
  mk probe_interval congestion_threshold ∅ false.

(** [start_monitoring] and [stop_monitoring], as far as the state goes: the
    probing thread itself is not modelled. *)
Definition start_monitoring (self : t) : t :=
  mk (probe_interval self) (congestion_threshold self) (link_stats self) true.

Definition stop_monitoring (self : t) : t :=
  mk (probe_interval self) (congestion_threshold self) (link_stats self) false.

(** What the probe, or the traffic generator, writes for a link. *)
Definition record_stat (self : t) (l : link) (s : link_stat) : t :=
  mk (probe_interval self) (congestion_threshold self)
     (<[l := s]> (link_stats self)) (monitoring self).

(** [self.link_stats.get((switch, port), {'util': 0.0})['util']] *)
Definition link_util (self : t) (l : link) : Q :=
  match link_stats self !! l with
  | Some stats => util stats
  | None => 0%Q
  end.

Definition get_path_score (self : t) (path : path_id) (path_links : list link) : Q :=
  match path_links with
  | [] => 0%Q
  | _ =>
      let total_congestion :=
        fold_left (fun total l => (total + link_util self l)%Q) path_links 0%Q in
      (total_congestion / inject_Z (Z.of_nat (length path_links)))%Q
  end.

(** The loop of [select_path] filling [path_scores]. *)
Definition path_scores (self : t) (available_paths : list path_id)
    (path_links_map : gmap path_id (list link)) : dict path_id Q :=
  fold_left
    (fun scores p =>
       dict_set scores p (get_path_score self p (default [] (path_links_map !! p))))
    available_paths [].

(** [path_scores[p]] for a key of the dictionary. *)
Definition score_in (scores : dict path_id Q) (p : path_id) : Q :=
  default 0%Q (dict_get scores p).

Definition select_path (self : t) (available_paths : list path_id)
    (path_links_map : gmap path_id (list link)) : result path_id :=
  let scores := path_scores self available_paths path_links_map in
  min_key (score_in scores) (dict_keys scores).

(** The score [select_path] gives to a candidate. *)
Definition candidate_score (self : t) (path_links_map : gmap path_id (list link))
    (p : path_id) : Q :=
  get_path_score self p (default [] (path_links_map !! p)).

End CongestionAwareRouter.

(** ** routing/adaptive_routing.py : AdaptiveRoutingController *)

Module AdaptiveRoutingController.

Record t : Type := mk {
  (** ['flowlet'], ['congestion'] or ['hybrid'] *)
  mode : string;
  flowlet_router : FlowletRouter.t;
  congestion_router : CongestionAwareRouter.t
}.

(** [__init__(mode, flowlet_timeout, congestion_threshold)] *)
Definition init (mode : string) (flowlet_timeout congestion_threshold : Q) : t :=
  mk mode
     (FlowletRouter.init flowlet_timeout)
     (CongestionAwareRouter.init (1 # 10) congestion_threshold).

(** [self.mode in ['congestion', 'hybrid']] *)
Definition probes (self : t) : bool :=
  bool_decide (mode self ∈ ["congestion"; "hybrid"]).

(** [start]: the congestion probe is launched in the two congestion-aware
    modes. *)
Definition start (self : t) : t :=
  if probes self then
    mk (mode self) (flowlet_router self)
       (CongestionAwareRouter.start_monitoring (congestion_router self))
  else self.

(** [stop] *)
Definition stop (self : t) : t :=
  mk (mode self) (flowlet_router self)
     (CongestionAwareRouter.stop_monitoring (congestion_router self)).

(** The class has no path-selection method of its own.  A caller selects a
    path through one of the two routers the controller holds; these are the
    two calls, with their effect on the controller.

    [self.flowlet_router.get_flowlet_path(flow_key, available_paths, current_time)] *)
Definition flowlet_lookup (self : t) (key : flow_key)
    (available_paths : list path_id) (current_time : Q) : t * result path_id :=
  let (router, r) :=
    FlowletRouter.get_flowlet_path (flowlet_router self) key available_paths current_time in
  (mk (mode self) router (congestion_router self), r).

(** [self.congestion_router.select_path(available_paths, path_links_map)] *)
Definition congestion_lookup (self : t) (available_paths : list path_id)
    (path_links_map : gmap path_id (list link)) : t * result path_id :=
  (self, CongestionAwareRouter.select_path (congestion_router self)
           available_paths path_links_map).

End AdaptiveRoutingController.

(** ** routing/monitor.py : NetworkMonitor *)

Module NetworkMonitor.

(** One entry of [_parse_port_stats]. *)
Record port_stats : Type := mk_port {
  rx_packets : Z;
  rx_bytes : Z;
  rx_drops : Z;
  tx_packets : Z;
  tx_bytes : Z;
  tx_drops : Z
}.

(** What [_get_switch_stats] returns: ports by port number (as parsed, a
    string), and the [(packets, bytes)] of the flow entries. *)
Record switch_stats : Type := mk_switch {
  ports : dict string port_stats;
  flows : list (Z * Z)
}.

(** What [_collect_sample] returns. *)
Record sample : Type := mk_sample {
  timestamp : string;
  switches : dict string switch_stats
}.

Record t : Type := mk {
  sample_interval : Q;
  monitoring : bool;
  samples : list sample
}.

(** [link_capacity_bps = 1000 * 1000 * 1000], the 1 Gbps assumed for every
    link. *)
Definition link_capacity_bps : Q := inject_Z (1000 * 1000 * 1000).

(** [(bits_delta / time_delta) / link_capacity_bps * 100] *)
Definition util_pct (bytes_delta : Z) (time_delta : Q) : result Q :=
  let bits_delta := inject_Z (bytes_delta * 8) in
  bind (div bits_delta time_delta) (fun rate =>
  bind (div rate link_capacity_bps) (fun fraction =>
  Ok (fraction * 100)%Q)).

(** [f"{switch_name}:{port_num}"] *)
Definition link_id (switch_name port_num : string) : string :=
  switch_name +:+ ":" +:+ port_num.

(** [utilization[link_id].append(util_pct)], creating the list when the key
    is new. *)
Definition append_util (utilization : dict string (list Q)) (id : string) (u : Q)
    : dict string (list Q) :=
  dict_set utilization id (default [] (dict_get utilization id) ++ [u]).

(** Body of [for port_num in curr_ports]. *)
Definition port_body (self : t) (switch_name : string)
    (prev_ports curr_ports : dict string port_stats)
    (utilization : dict string (list Q)) (port_num : string)
    : result (dict string (list Q)) :=
  match dict_get prev_ports port_num with
  | None => Ok utilization
  | Some prev =>
      match dict_get curr_ports port_num with
      | None => Raise KeyError
      | Some curr =>
          let bytes_delta := (tx_bytes curr - tx_bytes prev)%Z in
          bind (util_pct bytes_delta (sample_interval self)) (fun u =>
          Ok (append_util utilization (link_id switch_name port_num) u))
      end
  end.

(** Body of [for switch_name in curr_sample['switches']]. *)
Definition switch_body (self : t) (prev_sample curr_sample : sample)
    (utilization : dict string (list Q)) (switch_name : string)
    : result (dict string (list Q)) :=
  match dict_get (switches prev_sample) switch_name with
  | None => Ok utilization
  | Some prev_switch =>
      match dict_get (switches curr_sample) switch_name with
      | None => Raise KeyError
      | Some curr_switch =>
          for_each
            (port_body self switch_name (ports prev_switch) (ports curr_switch))
            (dict_keys (ports curr_switch)) utilization
      end
  end.

(** [(samples[i-1], samples[i])] for [i] in [range(1, len(samples))]. *)
Fixpoint consecutive (samples : list sample) : list (sample * sample) :=
  match samples with
  | prev :: (curr :: _) as rest => (prev, curr) :: consecutive rest
  | _ => []
  end.

Definition sample_body (self : t) (utilization : dict string (list Q))
    (pair : sample * sample) : result (dict string (list Q)) :=
  let (prev_sample, curr_sample) := pair in
  for_each (switch_body self prev_sample curr_sample)
    (dict_keys (switches curr_sample)) utilization.

Definition compute_link_utilization (self : t) : result (dict string (list Q)) :=
  if (length (samples self) <? 2)%nat then Ok []
  else for_each (sample_body self) (consecutive (samples self)) [].

(** An entry of [stats['link_utilization']]. *)
Record link_summary : Type := mk_link_summary {
  util_mean : Q;
  util_max : Q;
  util_min : Q;
  util_samples : nat
}.







End NetworkMonitor.

(** ** routing/monitor.py : FlowCompletionTracker *)

Module FlowCompletionTracker.

(** A flow that has started. *)
Record open_flow : Type := mk_open {
  src : string;
  dst : string;
  size : Z;
  start_time : Q
}.

(** A flow that has ended: the same record with [end_time] and [fct]. *)
Record closed_flow : Type := mk_closed {
  flow : open_flow;
  end_time : Q;
  fct : Q
}.

Record t : Type := mk {
  flows : gmap Z open_flow;
  completed_flows : list closed_flow
}.

Definition init : t := mk ∅ [].

(** [start_flow]; [now] is what [time.time()] returns. *)
Definition start_flow (self : t) (now : Q) (flow_id : Z) (src dst : string) (size : Z) : t :=
  mk (<[flow_id := mk_open src dst size now]> (flows self)) (completed_flows self).

(** [end_flow]; an unknown [flow_id] is ignored. *)
Definition end_flow (self : t) (now : Q) (flow_id : Z) : t :=
  match flows self !! flow_id with
  | Some f =>
      mk (delete flow_id (flows self))
         (completed_flows self ++ [mk_closed f now (now - start_time f)%Q])
  | None => self
  end.

Record fct_stats : Type := mk_stats {
  count : nat;
  mean : Q;
  median : Q;
  p95 : Q;
  p99 : Q;
  max : Q;
  min : Q
}.

(** [fcts[int(n * p)] if n > 0 else 0] *)
Definition percentile (fcts : list Q) (p : Q) : result Q :=
  let n := length fcts in
  if (0 <? n)%nat then index fcts (int (inject_Z (Z.of_nat n) * p)%Q) else Ok 0%Q.

(** [get_fct_stats]; [None] stands for the empty dictionary returned when no
    flow has completed. *)
Definition get_fct_stats (self : t) : result (option fct_stats) :=
  match completed_flows self with
  | [] => Ok None
  | _ =>
      let fcts := Py.sort (map fct (completed_flows self)) in
      let n := length fcts in
      bind (div (Py.sum fcts) (inject_Z (Z.of_nat n))) (fun mean =>
      bind (index fcts (Z.of_nat n / 2)) (fun median =>
      bind (percentile fcts (95 # 100)) (fun p95 =>
      bind (percentile fcts (99 # 100)) (fun p99 =>
      bind (Py.max fcts) (fun max =>
      bind (Py.min fcts) (fun min =>
      Ok (Some (mk_stats n mean median p95 p99 max min))))))))
  end.

End FlowCompletionTracker.

(** ** numpy, over the real numbers *)

Module np.

Definition sum (xs : list R) : R := foldr Rplus 0%R xs.

(** [np.mean(xs)] *)
Definition mean (xs : list R) : R := (sum xs / INR (length xs))%R.

(** [np.std(xs)]: the square root of the mean squared deviation from the
    mean (the population standard deviation, [ddof = 0]). *)
Definition std (xs : list R) : R :=
  sqrt (mean (map (fun x => Rsqr (x - mean xs)) xs)).

End np.

(** ** analyze_results.py : ResultsAnalyzer *)

Module ResultsAnalyzer.

(** An entry of [monitoring['link_utilization']], as the monitor saved it. *)
Record link_summary : Type := mk_link {
  link_mean : R;
  link_max : R;
  link_min : R;
  link_samples : nat
}.

(** [data['monitoring']]; a missing [link_utilization] or [packet_drops]
    reads as the empty dictionary. *)
Record monitoring_data : Type := mk_monitoring {
  link_utilization : dict string link_summary;
  packet_drops : dict string R
}.

(** The part of the results file that the utilization and drop analyses read:
    [monitoring] is [None] when the key is missing. *)
Record t : Type := mk {
  monitoring : option monitoring_data
}.

Record utilization_summary : Type := mk_utilization {
  avg_mean_util : R;
  avg_max_util : R;
  std_util : R;
  balance_score : R;
  num_links : nat
}.

Definition analyze_utilization (self : t) : option utilization_summary :=
  match monitoring self with
  | None => None
  | Some m =>
      match link_utilization m with
      | [] => None
      | link_util =>
          let mean_utils := map (fun kv => link_mean (snd kv)) link_util in
          let max_utils := map (fun kv => link_max (snd kv)) link_util in
          Some (mk_utilization
                  (np.mean mean_utils)
                  (np.mean max_utils)
                  (np.std mean_utils)
                  (if Rlt_dec 0 (np.mean mean_utils)
                   then 1 - np.std mean_utils / np.mean mean_utils
                   else 0)%R
                  (length link_util))
      end
  end.

Record drops_summary : Type := mk_drops {
  total_drops : R;
  num_congested_links : nat;
  avg_drops_per_link : R
}.

Definition analyze_drops (self : t) : option drops_summary :=
  match monitoring self with
  | None => None
  | Some m =>
      let drops := packet_drops m in
      let total_drops := np.sum (map snd drops) in
      Some (mk_drops total_drops (length drops)
              (match drops with
               | [] => 0
               | _ => total_drops / INR (length drops)
               end)%R)
  end.

(** What [analyze_throughput] returns, as far as the comparison reads it:
    [fct_p99] is present only when some flow reported a completion time. *)
Record throughput_summary : Type := mk_throughput {
  mean_mbps : R;
  fct_p99 : option R
}.

(** [get_summary()]; each analysis may be [None]. *)
Record summary : Type := mk_summary {
  throughput : option throughput_summary;
  utilization : option utilization_summary;
  drops : option drops_summary
}.

(** [get_summary], given what [analyze_throughput] returned. *)
Definition get_summary (self : t) (throughput : option throughput_summary) : summary :=
  mk_summary throughput (analyze_utilization self) (analyze_drops self).

End ResultsAnalyzer.

(** ** analyze_results.py : ComparisonAnalyzer *)

Module ComparisonAnalyzer.
Import ResultsAnalyzer.

(** [x / y] on Python numbers. *)
Definition div (x y : R) : result R :=
  if Req_dec_T y 0 then Raise ZeroDivisionError else Ok (x / y)%R.

(** An entry of the comparison: the two values and the percentage. *)
Record entry : Type := mk_entry {
  ecmp : R;
  adaptive : R;
  pct : R
}.

Record comparison : Type := mk_comparison {
  cmp_throughput : option entry;    (** [improvement_pct] *)
  cmp_balance : option entry;       (** [improvement_pct] *)
  cmp_drops : option entry;         (** [reduction_pct] *)
  cmp_tail_latency : option entry   (** [improvement_pct] *)
}.

(** One [if ... and ...:] block of [compare_metrics]: when both summaries
    have the value, the entry with its guarded percentage. *)
Definition compare (ecmp_value adaptive_value : option R)
    (percentage : R -> R -> result R) : result (option entry) :=
  match ecmp_value, adaptive_value with
  | Some e, Some a => bind (percentage e a) (fun p => Ok (Some (mk_entry e a p)))
  | _, _ => Ok None
  end.

(** [compare_metrics], on the two summaries it obtains from [get_summary].
    Throughput and balance are improvements of the adaptive value over the
    ECMP one; for drops and tail latency the difference is taken the other
    way round, [(ecmp - adaptive) / ecmp]. *)
Definition compare_metrics (ecmp_summary adaptive_summary : summary) : result comparison :=
  bind (compare (mean_mbps <$> throughput ecmp_summary)
                (mean_mbps <$> throughput adaptive_summary)
                (fun ecmp_tp adaptive_tp =>
                   if Rlt_dec 0 ecmp_tp then
                     bind (div (adaptive_tp - ecmp_tp) ecmp_tp)
                          (fun ratio => Ok (ratio * 100)%R)
                   else Ok 0%R))
       (fun cmp_tp =>
  bind (compare (balance_score <$> utilization ecmp_summary)
                (balance_score <$> utilization adaptive_summary)
                (fun ecmp_balance adaptive_balance =>
                   if Rlt_dec 0 ecmp_balance then
                     bind (div (adaptive_balance - ecmp_balance) ecmp_balance)
                          (fun ratio => Ok (ratio * 100)%R)
                   else Ok 0%R))
       (fun cmp_bal =>
  bind (compare (total_drops <$> drops ecmp_summary)
                (total_drops <$> drops adaptive_summary)
                (fun ecmp_drops adaptive_drops =>
                   if Rlt_dec 0 ecmp_drops then
                     bind (div (ecmp_drops - adaptive_drops) ecmp_drops)
                          (fun ratio => Ok (ratio * 100)%R)
                   else Ok 0%R))
       (fun cmp_dr =>
  bind (compare (throughput ecmp_summary ≫= fct_p99)
                (throughput adaptive_summary ≫= fct_p99)
                (fun ecmp_fct adaptive_fct =>
                   if Rlt_dec 0 ecmp_fct then
                     bind (div (ecmp_fct - adaptive_fct) ecmp_fct)
                          (fun ratio => Ok (ratio * 100)%R)
                   else Ok 0%R))
       (fun cmp_tl =>
  Ok (mk_comparison cmp_tp cmp_bal cmp_dr cmp_tl))))).

End ComparisonAnalyzer.

(** ** Mininet, as far as the routing code reads it *)

Module Mininet.

(** An interface of a node: its name, [<node>-eth<port>] for the ports that
    Mininet creates, and the name of the node at the other end of its link
    ([None] for an interface without a link, such as [lo]). *)
Record intf : Type := mk_intf {
  intf_name : string;
  intf_peer : option string
}.

(** The network: [intfList()] of every node, by node name. *)
Definition net : Type := gmap string (list intf).

(** [net.get(name)] *)
Definition get (n : net) (name : string) : result (list intf) :=
  match n !! name with
  | Some intfs => Ok intfs
  | None => Raise KeyError
  end.

End Mininet.

(** ** routing/ecmp_routing.py : ECMPRouter *)

Module ECMPRouter.
Import Mininet.

(** [topology_info] *)
Record topology_info : Type := mk_info {
  num_spines : nat;
  num_leaves : nat;
  hosts_per_leaf : nat
}.

(** A forwarding rule, [{'dst_ip': ..., 'out_ports': [...]}]. *)
Record rule : Type := mk_rule {
  dst_ip : string;
  out_ports : list nat
}.

(** [f'spine{i+1}'], [f'leaf{i+1}'] and [f'10.0.{leaf_num}.{host_num}'] *)
Definition spine_name (i : nat) : string := "spine" +:+ str (i + 1).
Definition leaf_name (i : nat) : string := "leaf" +:+ str (i + 1).
Definition host_ip (leaf_num host_num : nat) : string :=
  "10.0." +:+ str leaf_num +:+ "." +:+ str host_num.

(** [int(intf_name.replace(f'{switch}-eth', ''))] *)
Definition port_num (switch : string) (i : intf) : result nat :=
  int_of_str (remove_all (switch +:+ "-eth") (intf_name i)).

(** [routing_table[switch].append(rule)] on a [defaultdict(list)]. *)
Definition add_rule (routing_table : dict string (list rule)) (switch : string) (r : rule)
    : dict string (list rule) :=
  dict_set routing_table switch (default [] (dict_get routing_table switch) ++ [r]).

(** The loop over [switch.intfList()] of a leaf, filling [port_to_spine]. *)
Definition port_to_spine_body (leaf : string) (port_to_spine : dict string nat) (i : intf)
    : result (dict string nat) :=
  match intf_peer i with
  | Some peer =>
      if contains "spine" peer then
        bind (port_num leaf i) (fun p => Ok (dict_set port_to_spine peer p))
      else Ok port_to_spine
  | None => Ok port_to_spine
  end.

(** Rules for local hosts (direct forwarding). *)
Definition local_rules_loop (leaf : string) (leaf_num hosts_per_leaf : nat)
    (routing_table : dict string (list rule)) : dict string (list rule) :=
  fold_left
    (fun rt h => add_rule rt leaf (mk_rule (host_ip leaf_num (h + 1)) [h + 1]))
    (seq 0 hosts_per_leaf) routing_table.

(** Rules for remote hosts (ECMP across all spines). *)
Definition remote_rules_loop (leaf : string) (leaf_idx : nat) (num_leaves hosts_per_leaf : nat)
    (port_to_spine : dict string nat)
    (routing_table : dict string (list rule)) : dict string (list rule) :=
  fold_left
    (fun rt remote_leaf_idx =>
       if (remote_leaf_idx =? leaf_idx)%nat then rt
       else
         let remote_leaf_num := remote_leaf_idx + 1 in
         fold_left
           (fun rt h =>
              let spine_ports := map snd port_to_spine in
              add_rule rt leaf (mk_rule (host_ip remote_leaf_num (h + 1)) spine_ports))
           (seq 0 hosts_per_leaf) rt)
    (seq 0 num_leaves) routing_table.

(** Body of [for leaf_idx, leaf in enumerate(leaves)]. *)
Definition leaf_body (n : net) (info : topology_info)
    (routing_table : dict string (list rule)) (leaf_idx : nat)
    : result (dict string (list rule)) :=
  let leaf := leaf_name leaf_idx in
  let leaf_num := leaf_idx + 1 in
  bind (get n leaf) (fun intfs =>
  bind (for_each (port_to_spine_body leaf) intfs []) (fun port_to_spine =>
  Ok (remote_rules_loop leaf leaf_idx (num_leaves info) (hosts_per_leaf info) port_to_spine
        (local_rules_loop leaf leaf_num (hosts_per_leaf info) routing_table)))).

(** The loop over [switch.intfList()] of a spine, filling [port_to_leaf]. *)
Definition port_to_leaf_body (spine : string) (port_to_leaf : dict nat nat) (i : intf)
    : result (dict nat nat) :=
  match intf_peer i with
  | Some peer =>
      if contains "leaf" peer then
        bind (port_num spine i) (fun p =>
        bind (int_of_str (remove_all "leaf" peer)) (fun leaf_num =>
        Ok (dict_set port_to_leaf leaf_num p)))
      else Ok port_to_leaf
  | None => Ok port_to_leaf
  end.

(** Rules of a spine: each leaf's hosts go to the port facing that leaf. *)
Definition spine_rules_loop (spine : string) (num_leaves hosts_per_leaf : nat)
    (port_to_leaf : dict nat nat)
    (routing_table : dict string (list rule)) : dict string (list rule) :=
  fold_left
    (fun rt leaf_idx =>
       let leaf_num := leaf_idx + 1 in
       match dict_get port_to_leaf leaf_num with
       | Some port =>
           fold_left
             (fun rt h => add_rule rt spine (mk_rule (host_ip leaf_num (h + 1)) [port]))
             (seq 0 hosts_per_leaf) rt
       | None => rt
       end)
    (seq 0 num_leaves) routing_table.

(** Body of [for spine in spines]. *)
Definition spine_body (n : net) (info : topology_info)
    (routing_table : dict string (list rule)) (spine : string)
    : result (dict string (list rule)) :=
  bind (get n spine) (fun intfs =>
  bind (for_each (port_to_leaf_body spine) intfs []) (fun port_to_leaf =>
  Ok (spine_rules_loop spine (num_leaves info) (hosts_per_leaf info) port_to_leaf
        routing_table))).

Definition build_routing_table (n : net) (info : topology_info)
    : result (dict string (list rule)) :=
  let spines := map spine_name (seq 0 (num_spines info)) in
  bind (for_each (leaf_body n info) (seq 0 (num_leaves info)) []) (fun routing_table =>
  for_each (spine_body n info) spines routing_table).

(** [routing_table[switch]]: the rules of a switch, none when it has no
    entry. *)
Definition rules_of (routing_table : dict string (list rule)) (switch : string) : list rule :=
  default [] (dict_get routing_table switch).

(** A command sent to a switch, [switch.cmd(...)]: the name of the switch
    and the command line.  The commands of an installation are kept in the
    order in which they are sent. *)
Definition command : Type := string * string.

(** The double quote of the command lines. *)
Definition dquote : string := String "034"%char EmptyString.

(** [f'ovs-ofctl del-flows {switch_name}'] *)
Definition del_flows (switch_name : string) : string :=
  "ovs-ofctl del-flows " +:+ switch_name.

(** [f'ovs-ofctl add-flow {switch_name} "{flow}"'] *)
Definition add_flow (switch_name flow : string) : string :=
  "ovs-ofctl add-flow " +:+ switch_name +:+ " " +:+ dquote +:+ flow +:+ dquote.

(** [f'priority=100,ip,nw_dst={dst_ip},actions=output:{port}'] *)
Definition output_flow (dst_ip : string) (port : nat) : string :=
  "priority=100,ip,nw_dst=" +:+ dst_ip +:+ ",actions=output:" +:+ str port.

(** [f'priority=100,ip,nw_dst={dst_ip},actions=group:{group_id}'] *)
Definition group_flow (dst_ip : string) (group_id : nat) : string :=
  "priority=100,ip,nw_dst=" +:+ dst_ip +:+ ",actions=group:" +:+ str group_id.

(** [','.join([f'bucket=output:{port}' for port in out_ports])] *)
Definition buckets (out_ports : list nat) : string :=
  join "," (map (fun port => "bucket=output:" +:+ str port) out_ports).

(** [f'ovs-ofctl add-group {switch_name} group_id={group_id},type=select,{buckets}'] *)
Definition add_group (switch_name : string) (group_id : nat) (buckets : string) : string :=
  "ovs-ofctl add-group " +:+ switch_name +:+ " group_id=" +:+ str group_id
    +:+ ",type=select," +:+ buckets.

(** ["priority=0,actions=flood"] *)
Definition flood_flow : string := "priority=0,actions=flood".

Section Install.
(** Python's [hash] on strings: a function that is fixed within one run of
    the interpreter. *)
Variable hash : string -> Z.

(** [hash(f"{switch_name}{dst_ip}") % 10000] *)
Definition group_id (switch_name dst_ip : string) : nat :=
  Z.to_nat (hash (switch_name +:+ dst_ip) mod 10000).

(** Body of [for rule in rules]. *)
Definition rule_body (switch_name : string) (log : list command) (r : rule)
    : result (list command) :=
  if (length (out_ports r) =? 1)%nat then
    bind (index (out_ports r) 0) (fun port =>
    Ok (log ++ [(switch_name, add_flow switch_name (output_flow (dst_ip r) port))]))
  else
    let gid := group_id switch_name (dst_ip r) in
    Ok (log ++ [(switch_name, add_group switch_name gid (buckets (out_ports r)));
                (switch_name, add_flow switch_name (group_flow (dst_ip r) gid))]).

(** Body of [for switch_name, rules in routing_table.items()]; [net.get]
    raises for a name that is not a node, so [switch] is never [None]. *)
Definition switch_rules_body (n : net) (log : list command) (kv : string * list rule)
    : result (list command) :=
  let switch_name := fst kv in
  bind (get n switch_name) (fun _ =>
  bind (for_each (rule_body switch_name) (snd kv)
          (log ++ [(switch_name, del_flows switch_name)])) (fun log =>
  Ok (log ++ [(switch_name, add_flow switch_name flood_flow)]))).

(** [install_ecmp_rules]: the commands it sends. *)
Definition install_ecmp_rules (n : net) (routing_table : dict string (list rule))
    : result (list command) :=
  for_each (switch_rules_body n) routing_table [].

End Install.

(** [compute_ecmp_paths]; [topology] is read for the names of its nodes, in
    the order in which iterating over it gives them. *)
Definition compute_ecmp_paths (src dst : string) (topology : list string)
    : list (list string) :=
  if String.eqb src dst then [[src]]
  else if contains "leaf" src && contains "leaf" dst then
    let spines := List.filter (contains "spine") topology in
    fold_left (fun paths spine => paths ++ [[src; spine; dst]]) spines []
  else [].

End ECMPRouter.

(** ** topologies/leaf_spine.py : LeafSpineTopo *)

Module LeafSpineTopo.
Import ECMPRouter.

(** [f'{n:0{width}x}']: the hexadecimal digits of [n], in lower case, padded
    with zeros on the left up to [width] characters. *)
Fixpoint zeros (n : nat) : string :=
  match n with
  | O => EmptyString
  | Datatypes.S n' => String "0" (zeros n')
  end.

Definition hex (width n : nat) : string :=
  let digits := HexadecimalString.NilZero.string_of_uint (Nat.to_hex_uint n) in
  zeros (width - String.length digits) +:+ digits.

(** A node of the topology, with the options it was added with. *)
Inductive node : Type :=
| Switch (name dpid : string)
| Host (name ip mac : string).

Definition node_name (n : node) : string :=
  match n with
  | Switch name _ => name
  | Host name _ _ => name
  end.

(** A link, with the options it was added with. *)
Record link : Type := mk_link {
  link_node1 : string;
  link_node2 : string;
  link_bw : nat;
  link_delay : string;
  link_max_queue_size : nat
}.

Record t : Type := mk {
  num_spines : nat;
  num_leaves : nat;
  hosts_per_leaf : nat;
  bw : nat;
  delay : string;
  nodes : list node;
  links : list link
}.

(** [self.addSwitch(name, dpid=...)], [self.addHost(name, ip=..., mac=...)]
    and [self.addLink(node1, node2, bw=bw, delay=delay, max_queue_size=1000)] *)
Definition add_node (self : t) (n : node) : t :=
  mk (num_spines self) (num_leaves self) (hosts_per_leaf self) (bw self) (delay self)
     (nodes self ++ [n]) (links self).

Definition addLink (self : t) (node1 node2 : string) : t :=
  mk (num_spines self) (num_leaves self) (hosts_per_leaf self) (bw self) (delay self)
     (nodes self)
     (links self ++ [mk_link node1 node2 (bw self) (delay self) 1000]).

(** Body of [for s in range(num_spines)]; the state is the topology and the
    list [spines]. *)
Definition spine_step (state : t * list string) (s : nat) : t * list string :=
  let spine := "spine" +:+ str (s + 1) in
  (add_node (fst state) (Switch spine (hex 16 (s + 1))), snd state ++ [spine]).

(** Body of [for h in range(hosts_per_leaf)]; the state is the topology and
    [host_id]. *)
Definition host_step (leaf : string) (l : nat) (state : t * nat) (h : nat) : t * nat :=
  let host_id := snd state in
  let host := "h" +:+ str host_id in
  let self :=
    add_node (fst state)
      (Host host
         ("10.0." +:+ str (l + 1) +:+ "." +:+ str (h + 1) +:+ "/24")
         ("00:00:00:00:" +:+ hex 2 (l + 1) +:+ ":" +:+ hex 2 (h + 1))) in
  (addLink self host leaf, (host_id + 1)%nat).

(** Body of [for l in range(num_leaves)]; the state is the topology, the
    list [leaves] and [host_id]. *)
Definition leaf_step (spines : list string) (state : t * list string * nat) (l : nat)
    : t * list string * nat :=
  let '(self, leaves, host_id) := state in
  let leaf := "leaf" +:+ str (l + 1) in
  let self := add_node self (Switch leaf (hex 16 (l + 1 + num_spines self))) in
  let leaves := leaves ++ [leaf] in
  let '(self, host_id) :=
    fold_left (host_step leaf l) (seq 0 (hosts_per_leaf self)) (self, host_id) in
  let self := fold_left (fun self spine => addLink self leaf spine) spines self in
  (self, leaves, host_id).

(** [__init__] *)
Definition init (num_spines num_leaves hosts_per_leaf bw : nat) (delay : string) : t :=
  let self := mk num_spines num_leaves hosts_per_leaf bw delay [] [] in
  let '(self, spines) := fold_left spine_step (seq 0 num_spines) (self, []) in
  let '(self, _, _) := fold_left (leaf_step spines) (seq 0 num_leaves) (self, [], 1%nat) in
  self.

(** [create_network]: the topology that the experiments run on. *)
Definition create_network (num_spines num_leaves hosts_per_leaf : nat) : t :=
  init num_spines num_leaves hosts_per_leaf 10 "1ms".

End LeafSpineTopo.

(** ** routing/adaptive_routing.py : install_adaptive_rules *)

Module AdaptiveRules.
Import Mininet ECMPRouter.

(** The loop over [switch.intfList()] of a leaf, filling [spine_ports]. *)
Definition spine_ports_body (leaf : string) (spine_ports : list nat) (i : intf)
    : result (list nat) :=
  match intf_peer i with
  | Some peer =>
      if contains "spine" peer then
        bind (port_num leaf i) (fun p => Ok (spine_ports ++ [p]))
      else Ok spine_ports
  | None => Ok spine_ports
  end.

Section Install.
Variable hash : string -> Z.

(** Local hosts - direct forwarding. *)
Definition local_flows (leaf : string) (leaf_num hosts_per_leaf : nat)
    (log : list command) : list command :=
  fold_left
    (fun log h =>
       let host_ip := host_ip leaf_num (h + 1) in
       let host_port := (h + 1)%nat in
       log ++ [(leaf, add_flow leaf (output_flow host_ip host_port))])
    (seq 0 hosts_per_leaf) log.

(** Remote hosts - a select group over all the spine ports. *)
Definition remote_flows (leaf : string) (leaf_idx num_leaves hosts_per_leaf : nat)
    (spine_ports : list nat) (log : list command) : list command :=
  fold_left
    (fun log remote_leaf_idx =>
       if (remote_leaf_idx =? leaf_idx)%nat then log
       else
         let remote_leaf_num := (remote_leaf_idx + 1)%nat in
         fold_left
           (fun log h =>
              let remote_ip := host_ip remote_leaf_num (h + 1) in
              let gid := group_id hash leaf remote_ip in
              log ++ [(leaf, add_group leaf gid (buckets spine_ports));
                      (leaf, add_flow leaf (group_flow remote_ip gid))])
           (seq 0 hosts_per_leaf) log)
    (seq 0 num_leaves) log.

(** Body of [for leaf_idx, leaf in enumerate(leaves)]. *)
Definition leaf_body (n : net) (info : topology_info) (log : list command) (leaf_idx : nat)
    : result (list command) :=
  let leaf := leaf_name leaf_idx in
  let leaf_num := (leaf_idx + 1)%nat in
  bind (get n leaf) (fun intfs =>
  let log := log ++ [(leaf, del_flows leaf)] in
  bind (for_each (spine_ports_body leaf) intfs []) (fun spine_ports =>
  let log := local_flows leaf leaf_num (hosts_per_leaf info) log in
  let log :=
    remote_flows leaf leaf_idx (num_leaves info) (hosts_per_leaf info) spine_ports log in
  Ok (log ++ [(leaf, add_flow leaf flood_flow)]))).

(** Body of [for leaf_num in port_to_leaf]. *)
Definition leaf_flows (spine : string) (hosts_per_leaf : nat) (port_to_leaf : dict nat nat)
    (log : list command) (leaf_num : nat) : result (list command) :=
  for_each
    (fun log h =>
       let host_ip := host_ip leaf_num (h + 1) in
       match dict_get port_to_leaf leaf_num with
       | Some port => Ok (log ++ [(spine, add_flow spine (output_flow host_ip port))])
       | None => Raise KeyError
       end)
    (seq 0 hosts_per_leaf) log.

(** Body of [for spine in spines]. *)
Definition spine_body (n : net) (info : topology_info) (log : list command) (spine : string)
    : result (list command) :=
  bind (get n spine) (fun intfs =>
  let log := log ++ [(spine, del_flows spine)] in
  bind (for_each (port_to_leaf_body spine) intfs []) (fun port_to_leaf =>
  bind (for_each (leaf_flows spine (hosts_per_leaf info) port_to_leaf)
          (dict_keys port_to_leaf) log) (fun log =>
  Ok (log ++ [(spine, add_flow spine flood_flow)])))).

(** [install_adaptive_rules]: the commands it sends. *)
Definition install_adaptive_rules (n : net) (info : topology_info) : result (list command) :=
  let leaves := seq 0 (num_leaves info) in
  let spines := map spine_name (seq 0 (num_spines info)) in
  bind (for_each (leaf_body n info) leaves []) (fun log =>
  for_each (spine_body n info) spines log).

End Install.

End AdaptiveRules.

(** ** routing/adaptive_routing.py : the probe of CongestionAwareRouter *)

Module CongestionProbe.
Import Mininet CongestionAwareRouter.

(** A switch of [self.net.switches]: its name and its [intfList()]. *)
Definition switch_node : Type := string * list intf.

(** [{'util': 0.0, 'queue': 0, 'bytes_tx': 0, 'bytes_rx': 0}] *)
Definition idle_stat : link_stat := mk_stat 0 0 0 0.

(** Body of [for intf in switch.intfList()]. *)
Definition intf_body (switch_name : string) (self : t) (i : intf) : result t :=
  if String.eqb (intf_name i) "lo" then Ok self
  else
    bind (ECMPRouter.port_num switch_name i) (fun port_num =>
    Ok (record_stat self (switch_name, Z.of_nat port_num) idle_stat)).

(** [_collect_stats]; [net] is [None] while the router has no attribute
    [net], that is before [start_monitoring]. *)
Definition _collect_stats (self : t) (net : option (list switch_node)) : result t :=
  match net with
  | None => Ok self
  | Some switches =>
      for_each (fun self sw => for_each (intf_body (fst sw)) (snd sw) self) switches self
  end.

End CongestionProbe.

(** ** routing/traffic_generator.py : AITrafficGenerator *)

Module AITrafficGenerator.

(** A thread created to send from one host to the other,
    [args=(src_host, dst_host, ...)]; a host is known by its name. *)
Definition flow : Type := string * string.

(** [enumerate(xs)] *)
Definition enumerate {A} (xs : list A) : list (nat * A) := zip (seq 0 (length xs)) xs.

(** The threads that [generate_all_to_all] creates, in the order of their
    creation. *)
Definition all_to_all_threads (hosts : list string) : list flow :=
  fold_left
    (fun threads src_host =>
       fold_left
         (fun threads dst_host =>
            if String.eqb src_host dst_host then threads
            else threads ++ [(src_host, dst_host)])
         hosts threads)
    hosts [].

(** Body of [for i, host in enumerate(self.hosts)]: the thread that sends a
    chunk from [host] to [self.hosts[(i + 1) % num_hosts]]. *)
Definition send_to_next (hosts : list string) (sends : list flow) (ih : nat * string)
    : result (list flow) :=
  let num_hosts := length hosts in
  let next_idx := ((fst ih + 1) mod num_hosts)%nat in
  bind (index hosts (Z.of_nat next_idx)) (fun next_host =>
  Ok (sends ++ [(snd ih, next_host)])).

(** One phase, [for step in range(num_hosts - 1)]. *)
Definition phase (hosts : list string) (sends : list flow) : result (list flow) :=
  for_each (fun sends _ => for_each (send_to_next hosts) (enumerate hosts) sends)
    (seq 0 (length hosts - 1)) sends.

(** The chunks that [generate_allreduce_pattern] sends, in the order in
    which their threads are created: per iteration a scatter-reduce phase
    and an all-gather phase. *)
Definition allreduce_sends (hosts : list string) (num_iterations : nat)
    : result (list flow) :=
  for_each (fun sends _ => bind (phase hosts sends) (phase hosts))
    (seq 0 num_iterations) [].

End AITrafficGenerator.

(** ** Vocabulary of the statements *)

(** The sum of a list of rationals. *)
Definition Qsum (xs : list Q) : Q := foldr Qplus 0%Q xs.

(** The arithmetic mean of a non-empty list of rationals. *)
Definition Qmean (xs : list Q) : Q :=
  (Qsum xs / inject_Z (Z.of_nat (length xs)))%Q.

(** A percentage that is taken only over a positive baseline, and is 0
    otherwise. *)
Definition over_positive (baseline pct : R) : R :=
  if Rlt_dec 0 baseline then pct else 0%R.

(** A results file with four links, of the given mean utilizations. *)
Definition four_links (m1 m2 m3 m4 : R) : ResultsAnalyzer.t :=
  ResultsAnalyzer.mk
    (Some (ResultsAnalyzer.mk_monitoring
             [("leaf1:5", ResultsAnalyzer.mk_link m1 m1 m1 1);
              ("leaf1:6", ResultsAnalyzer.mk_link m2 m2 m2 1);
              ("leaf2:5", ResultsAnalyzer.mk_link m3 m3 m3 1);
              ("leaf2:6", ResultsAnalyzer.mk_link m4 m4 m4 1)]
             [])).

(** A summary that has only a drop analysis, with the given total. *)
Definition summary_with_drops (total : R) : ResultsAnalyzer.summary :=
  ResultsAnalyzer.mk_summary None None (Some (ResultsAnalyzer.mk_drops total 1 total)).

(** A summary that has only a utilization analysis, with the given balance
    score. *)
Definition summary_with_balance (score : R) : ResultsAnalyzer.summary :=
  ResultsAnalyzer.mk_summary None
    (Some (ResultsAnalyzer.mk_utilization 0 0 0 score 1)) None.

(** The utilization values recorded for a link, [utilization.get(id, [])]. *)
Definition recorded (utilization : dict string (list Q)) (id : string) : list Q :=
  default [] (dict_get utilization id).

(** Nothing recorded in [u] is missing from [u']. *)
Definition extends (u u' : dict string (list Q)) : Prop :=
  forall id v, v ∈ recorded u id -> v ∈ recorded u' id.

(** The utilization the monitor derives from two readings of a port. *)
Definition reading (self : NetworkMonitor.t) (prev curr : NetworkMonitor.port_stats) : Q :=
  (inject_Z ((NetworkMonitor.tx_bytes curr - NetworkMonitor.tx_bytes prev) * 8)
     / NetworkMonitor.sample_interval self / NetworkMonitor.link_capacity_bps * 100)%Q.

(** The reading of a port, of the ports of a switch, of the switches of a
    pair of samples is recorded in [u], whenever the port, the switch are
    present on both sides. *)
Definition port_done (self : NetworkMonitor.t) (sw : string)
    (prev_ports curr_ports : dict string NetworkMonitor.port_stats)
    (port : string) (u : dict string (list Q)) : Prop :=
  forall prev curr,
    dict_get prev_ports port = Some prev ->
    dict_get curr_ports port = Some curr ->
    reading self prev curr ∈ recorded u (NetworkMonitor.link_id sw port).

Definition switch_done (self : NetworkMonitor.t)
    (prev_sample curr_sample : NetworkMonitor.sample)
    (sw : string) (u : dict string (list Q)) : Prop :=
  forall prev_switch curr_switch port,
    dict_get (NetworkMonitor.switches prev_sample) sw = Some prev_switch ->
    dict_get (NetworkMonitor.switches curr_sample) sw = Some curr_switch ->
    port_done self sw (NetworkMonitor.ports prev_switch) (NetworkMonitor.ports curr_switch)
      port u.

Definition sample_done (self : NetworkMonitor.t)
    (pair : NetworkMonitor.sample * NetworkMonitor.sample)
    (u : dict string (list Q)) : Prop :=
  forall sw, switch_done self pair.1 pair.2 sw u.

(** A monitor holding two samples taken one second apart, in which port 1 of
    [leaf1] has sent [tx0] and then [tx1] bytes in total. *)
Definition two_samples (sample_interval : Q) (tx0 tx1 : Z) : NetworkMonitor.t :=
  let reading tx :=
    NetworkMonitor.mk_switch [("1", NetworkMonitor.mk_port 0 0 0 0 tx 0)] [] in
  NetworkMonitor.mk sample_interval false
    [NetworkMonitor.mk_sample "2024-01-01T00:00:00" [("leaf1", reading tx0)];
     NetworkMonitor.mk_sample "2024-01-01T00:00:01" [("leaf1", reading tx1)]].

(** A tracker that has seen ten flows, with completion times of 1 to 10
    seconds, ending in the order 7, 3, 10, 1, 5, 9, 2, 8, 4, 6. *)
Definition ten_flows : FlowCompletionTracker.t :=
  let started :=
    fold_left
      (fun tracker id => FlowCompletionTracker.start_flow tracker 0%Q id "10.0.1.1" "10.0.2.1" 1000)
      [1; 2; 3; 4; 5; 6; 7; 8; 9; 10]%Z FlowCompletionTracker.init in
  (** the flow that lasts [d] seconds starts at time 0 and ends at time [d] *)
  fold_left
    (fun tracker d => FlowCompletionTracker.end_flow tracker (inject_Z d) d)
    [7; 3; 10; 1; 5; 9; 2; 8; 4; 6]%Z started.

(** The network that [LeafSpineTopo] (topologies/leaf_spine.py) describes,
    as Mininet builds it: a node's ports are numbered from 1 in the order its
    links are added, so a leaf has its hosts on ports [1 .. H] and the spines
    on ports [H+1 .. H+S], and a spine has leaf [l] on port [l]; every switch
    also has the loopback interface [lo], which has no link. *)
Definition lo : Mininet.intf := Mininet.mk_intf "lo" None.

Definition leaf_intfs (S H l : nat) : list Mininet.intf :=
  lo
  :: map (fun h => Mininet.mk_intf (ECMPRouter.leaf_name l +:+ "-eth" +:+ str (h + 1))
                     (Some ("h" +:+ str (l * H + h + 1))))
       (seq 0 H)
  ++ map (fun s => Mininet.mk_intf (ECMPRouter.leaf_name l +:+ "-eth" +:+ str (H + s + 1))
                     (Some (ECMPRouter.spine_name s)))
       (seq 0 S).

Definition spine_intfs (L s : nat) : list Mininet.intf :=
  lo
  :: map (fun l => Mininet.mk_intf (ECMPRouter.spine_name s +:+ "-eth" +:+ str (l + 1))
                     (Some (ECMPRouter.leaf_name l)))
       (seq 0 L).

Definition leaf_spine_net (S L H : nat) : Mininet.net :=
  fold_left (fun n s => <[ECMPRouter.spine_name s := spine_intfs L s]> n) (seq 0 S)
    (fold_left (fun n l => <[ECMPRouter.leaf_name l := leaf_intfs S H l]> n) (seq 0 L) ∅).

(** Whether an interface faces a switch of the given kind (["spine"] or
    ["leaf"]): it has a link, and the name of the node at the other end
    contains the word. *)
Definition faces (kind : string) (i : Mininet.intf) : bool :=
  match Mininet.intf_peer i with
  | Some peer => contains kind peer
  | None => false
  end.

(** Full mesh: every leaf is a node of the network and has one port to each
    spine; these are its only interfaces facing a spine, and their names
    read as port numbers of the leaf. *)
Definition full_mesh (n : Mininet.net) (S L : nat) : Prop :=
  forall l, (l < L)%nat ->
    exists intfs,
      n !! ECMPRouter.leaf_name l = Some intfs /\
      map Mininet.intf_peer (List.filter (faces "spine") intfs)
        ≡ₚ map (fun s => Some (ECMPRouter.spine_name s)) (seq 0 S) /\
      Forall (fun i => returns (ECMPRouter.port_num (ECMPRouter.leaf_name l) i))
        (List.filter (faces "spine") intfs).

(** Every spine is a node of the network, and the names of its interfaces
    facing a leaf, and of these leaves, read as numbers. *)
Definition spines_readable (n : Mininet.net) (S : nat) : Prop :=
  forall s, (s < S)%nat ->
    exists intfs,
      n !! ECMPRouter.spine_name s = Some intfs /\
      Forall (fun i =>
                returns (ECMPRouter.port_num (ECMPRouter.spine_name s) i) /\
                forall peer, Mininet.intf_peer i = Some peer ->
                             returns (int_of_str (remove_all "leaf" peer)))
        (List.filter (faces "leaf") intfs).

(** The rules of a leaf for its own hosts, and for the hosts of the other
    leaves, in the order in which the table lists them. *)
Definition local_rules (leaf_idx H : nat) : list ECMPRouter.rule :=
  map (fun h => ECMPRouter.mk_rule (ECMPRouter.host_ip (leaf_idx + 1) (h + 1)) [h + 1])
    (seq 0 H).

Definition remote_rules (leaf_idx L H : nat) (spine_ports : list nat) : list ECMPRouter.rule :=
  flat_map
    (fun remote =>
       if (remote =? leaf_idx)%nat then []
       else map (fun h => ECMPRouter.mk_rule (ECMPRouter.host_ip (remote + 1) (h + 1)) spine_ports)
              (seq 0 H))
    (seq 0 L).

(** The ports of a leaf towards the spines: as many as there are spines, and
    for every spine the port of an interface of the leaf that faces it. *)
Definition one_port_per_spine (leaf : string) (intfs : list Mininet.intf) (S : nat)
    (ports : list nat) : Prop :=
  length ports = S /\
  forall s, (s < S)%nat ->
    exists i p,
      i ∈ intfs /\
      Mininet.intf_peer i = Some (ECMPRouter.spine_name s) /\
      ECMPRouter.port_num leaf i = Ok p /\
      p ∈ ports.

(** The first character of a switch name, ["l"] or ["s"], is not a digit. *)
Definition initial (c : ascii) : Prop := c = "l"%char \/ c = "s"%char.

(** The load deltas that a sequence of calls adds to path [p]. *)
Definition deltas_for (p : path_id) (calls : list FlowletRouter.call) : list Q :=
  omap (fun c => match c with
                 | FlowletRouter.UpdateLoad p' d => if decide (p' = p) then Some d else None
                 | FlowletRouter.GetPath _ _ _ => None
                 end) calls.

(** A call that is a path lookup. *)
Definition is_lookup (c : FlowletRouter.call) : Prop :=
  match c with
  | FlowletRouter.GetPath _ _ _ => True
  | FlowletRouter.UpdateLoad _ _ => False
  end.

(** The links that a probe of [switches] visits: one per interface other
    than [lo]. *)
Definition probed (switches : list CongestionProbe.switch_node) (l : link) : Prop :=
  exists name intfs i port,
    (name, intfs) ∈ switches /\ i ∈ intfs /\ Mininet.intf_name i <> "lo" /\
    ECMPRouter.port_num name i = Ok port /\ l = (name, Z.of_nat port).

(** A change of the link statistics that resets the links in [visited] and
    leaves the others as they were. *)
Definition resets (visited : link -> Prop) (self self' : CongestionAwareRouter.t) : Prop :=
  (forall l, visited l ->
     CongestionAwareRouter.link_stats self' !! l = Some CongestionProbe.idle_stat) /\
  (forall l,
     CongestionAwareRouter.link_stats self' !! l = CongestionAwareRouter.link_stats self !! l \/
     (CongestionAwareRouter.link_stats self' !! l = Some CongestionProbe.idle_stat /\
      visited l)).

(** A value [u] under the identifier [id] that is the reading of a port
    present in both samples of one of the [pairs]. *)
Definition measured (self : NetworkMonitor.t)
    (pairs : list (NetworkMonitor.sample * NetworkMonitor.sample))
    (id : string) (u : Q) : Prop :=
  exists prev_sample curr_sample sw port prev_switch curr_switch prev curr,
    (prev_sample, curr_sample) ∈ pairs /\
    dict_get (NetworkMonitor.switches prev_sample) sw = Some prev_switch /\
    dict_get (NetworkMonitor.switches curr_sample) sw = Some curr_switch /\
    dict_get (NetworkMonitor.ports prev_switch) port = Some prev /\
    dict_get (NetworkMonitor.ports curr_switch) port = Some curr /\
    id = NetworkMonitor.link_id sw port /\
    u = reading self prev curr.

(** What a flow tracker is told, with the time [time.time()] returns at the
    call. *)
Inductive flow_event : Type :=
| FlowStart (now : Q) (flow_id : Z) (src dst : string) (size : Z)
| FlowEnd (now : Q) (flow_id : Z).

Definition event_time (e : flow_event) : Q :=
  match e with
  | FlowStart now _ _ _ _ => now
  | FlowEnd now _ => now
  end.

Definition is_start (e : flow_event) : bool :=
  match e with
  | FlowStart _ _ _ _ _ => true
  | FlowEnd _ _ => false
  end.

Definition apply_event (self : FlowCompletionTracker.t) (e : flow_event)
    : FlowCompletionTracker.t :=
  match e with
  | FlowStart now flow_id src dst size =>
      FlowCompletionTracker.start_flow self now flow_id src dst size
  | FlowEnd now flow_id => FlowCompletionTracker.end_flow self now flow_id
  end.

Definition run_events (self : FlowCompletionTracker.t) (events : list flow_event)
    : FlowCompletionTracker.t :=
  fold_left apply_event events self.

(** The ring over [hosts]: every host with its successor, the last one with
    the first. *)
Definition ring_of (hosts : list string) : list AITrafficGenerator.flow :=
  map (fun ih => (snd ih, default (snd ih) (hosts !! ((fst ih + 1) mod length hosts)%nat)))
    (AITrafficGenerator.enumerate hosts).

(** The ports of a leaf towards the spines in the network of
    [LeafSpineTopo]: [H+1 .. H+S], in the order of the spines. *)
Definition spine_ports (S H : nat) : list nat := map (fun s => H + s + 1) (seq 0 S).

(** The rules of a spine: the hosts of leaf [l] go to port [l]. *)
Definition spine_rules (L H : nat) : list ECMPRouter.rule :=
  flat_map
    (fun l => map (fun h => ECMPRouter.mk_rule (ECMPRouter.host_ip (l + 1) (h + 1)) [l + 1])
                (seq 0 H))
    (seq 0 L).

(** The routing table of the network of [LeafSpineTopo]: the leaves in
    order, then the spines in order. *)
Definition fabric_table (S L H : nat) : dict string (list ECMPRouter.rule) :=
  map (fun l => (ECMPRouter.leaf_name l,
                 local_rules l H ++ remote_rules l L H (spine_ports S H)))
    (seq 0 L)
  ++ map (fun s => (ECMPRouter.spine_name s, spine_rules L H)) (seq 0 S).

(** The commands that install one rule on a switch: a plain output for a
    rule with one port, a select group and a flow to it otherwise. *)
Definition rule_commands (hash : string -> Z) (switch_name : string) (r : ECMPRouter.rule)
    : list ECMPRouter.command :=
  match ECMPRouter.out_ports r with
  | [port] =>
      [(switch_name,
        ECMPRouter.add_flow switch_name (ECMPRouter.output_flow (ECMPRouter.dst_ip r) port))]
  | ports =>
      let gid := ECMPRouter.group_id hash switch_name (ECMPRouter.dst_ip r) in
      [(switch_name, ECMPRouter.add_group switch_name gid (ECMPRouter.buckets ports));
       (switch_name,
        ECMPRouter.add_flow switch_name (ECMPRouter.group_flow (ECMPRouter.dst_ip r) gid))]
  end.

(** The commands that install the rules of a switch: the old flows are
    deleted first, and the flood rule comes last. *)
Definition switch_commands (hash : string -> Z) (kv : string * list ECMPRouter.rule)
    : list ECMPRouter.command :=
  (fst kv, ECMPRouter.del_flows (fst kv))
  :: flat_map (rule_commands hash (fst kv)) (snd kv)
  ++ [(fst kv, ECMPRouter.add_flow (fst kv) ECMPRouter.flood_flow)].

(** The name of host [h] of leaf [l]: hosts are numbered from 1, leaf by
    leaf. *)
Definition host_name (l H h : nat) : string := "h" +:+ str (l * H + h + 1).

(** The nodes and the links that [LeafSpineTopo] adds, in the order in which
    it adds them. *)
Definition fabric_nodes (S L H : nat) : list LeafSpineTopo.node :=
  map (fun s => LeafSpineTopo.Switch (ECMPRouter.spine_name s) (LeafSpineTopo.hex 16 (s + 1)))
    (seq 0 S)
  ++ flat_map
       (fun l =>
          LeafSpineTopo.Switch (ECMPRouter.leaf_name l) (LeafSpineTopo.hex 16 (l + 1 + S))
          :: map (fun h =>
                    LeafSpineTopo.Host (host_name l H h)
                      (ECMPRouter.host_ip (l + 1) (h + 1) +:+ "/24")
                      ("00:00:00:00:" +:+ LeafSpineTopo.hex 2 (l + 1) +:+ ":"
                         +:+ LeafSpineTopo.hex 2 (h + 1)))
               (seq 0 H))
       (seq 0 L).

Definition fabric_links (S L H bw : nat) (delay : string) : list LeafSpineTopo.link :=
  flat_map
    (fun l =>
       map (fun h => LeafSpineTopo.mk_link (host_name l H h) (ECMPRouter.leaf_name l)
                       bw delay 1000)
         (seq 0 H)
       ++ map (fun s => LeafSpineTopo.mk_link (ECMPRouter.leaf_name l) (ECMPRouter.spine_name s)
                          bw delay 1000)
            (seq 0 S))
    (seq 0 L).

(** The interfaces that Mininet gives a switch of a topology: after the
    loopback interface, one interface per link of the switch, numbered from 1
    in the order in which the links were added and named
    [<switch>-eth<port>]. *)
Definition other_end (name : string) (lk : LeafSpineTopo.link) : option string :=
  if decide (LeafSpineTopo.link_node1 lk = name) then Some (LeafSpineTopo.link_node2 lk)
  else if decide (LeafSpineTopo.link_node2 lk = name) then Some (LeafSpineTopo.link_node1 lk)
       else None.

Definition peers_of (links : list LeafSpineTopo.link) (name : string) : list string :=
  omap (other_end name) links.

Definition switch_intfs (topo : LeafSpineTopo.t) (name : string) : list Mininet.intf :=
  lo :: imap (fun i peer => Mininet.mk_intf (name +:+ "-eth" +:+ str (i + 1)) (Some peer))
          (peers_of (LeafSpineTopo.links topo) name).

(** The names of the switches among the nodes of a topology. *)
Definition switch_names (ns : list LeafSpineTopo.node) : list string :=
  omap (fun n => match n with
                 | LeafSpineTopo.Switch name _ => Some name
                 | LeafSpineTopo.Host _ _ _ => None
                 end) ns.

(** The network that Mininet builds from a topology, as far as the routing
    code reads it: the interfaces of every switch. *)
Definition network_of (topo : LeafSpineTopo.t) : Mininet.net :=
  foldr
    (fun n net =>
       match n with
       | LeafSpineTopo.Switch name _ => <[name := switch_intfs topo name]> net
       | LeafSpineTopo.Host _ _ _ => net
       end)
    ∅ (LeafSpineTopo.nodes topo).

(* ===================================================================== *)
(** * Properties *)
(* ===================================================================== *)

(** ** Python runtime *)

Lemma Qltb_lt x y : Qltb x y = true <-> (x < y)%Q.
Proof.
  unfold Qltb. rewrite negb_true_iff, <- not_true_iff_false, Qle_bool_iff.
  split; [apply Qnot_le_lt | apply Qlt_not_le].
Qed.

Lemma Qltb_ge x y : Qltb x y = false <-> (y <= x)%Q.
Proof. unfold Qltb. rewrite negb_false_iff. apply Qle_bool_iff. Qed.

Section MinKey.
Context {A : Type} (key : A -> Q).

(** Where [min] stops: the chosen item splits the scanned items into those
    before it, all strictly larger, and those after it, none smaller. *)
Lemma min_from_split best items :
  exists before after,
    best :: items = before ++ min_from key best items :: after /\
    Forall (fun x => (key (min_from key best items) < key x)%Q) before /\
    Forall (fun x => (key (min_from key best items) <= key x)%Q) after.
Proof.
  revert best. induction items as [|x rest IH]; intros best; simpl.
  - exists [], []. repeat split; constructor.
  - destruct (Qltb (key x) (key best)) eqn:Hlt.
    + apply Qltb_lt in Hlt.
      destruct (IH x) as (before & after & Heq & Hb & Ha).
      set (m := min_from key x rest) in *.
      exists (best :: before), after. split; [simpl; congruence|]. split; [|done].
      constructor; [|done].
      destruct before as [|y before']; simpl in Heq; injection Heq as Hhd Htl.
      * by rewrite <- Hhd.
      * subst y. apply Forall_cons in Hb as [Hy _]. by eapply Qlt_trans.
    + apply Qltb_ge in Hlt.
      destruct (IH best) as (before & after & Heq & Hb & Ha).
      set (m := min_from key best rest) in *.
      destruct before as [|y before']; simpl in Heq; injection Heq as Hhd Htl.
      * exists [], (x :: rest). rewrite <- Hhd. repeat split; [constructor|].
        subst after. constructor; [done|]. by rewrite Hhd.
      * subst y. apply Forall_cons in Hb as [Hy Hb].
        exists (best :: x :: before'), after. split; [simpl; congruence|]. split; [|done].
        constructor; [done|]. constructor; [|done].
        by eapply Qlt_le_trans.
Qed.

Lemma min_from_elem best items : min_from key best items ∈ best :: items.
Proof.
  destruct (min_from_split best items) as (before & after & Heq & _).
  rewrite Heq. apply elem_of_app. right. left.
Qed.

Lemma min_from_least best items x :
  x ∈ best :: items -> (key (min_from key best items) <= key x)%Q.
Proof.
  destruct (min_from_split best items) as (before & after & Heq & Hb & Ha).
  rewrite Heq at 1. rewrite elem_of_app, elem_of_cons.
  rewrite Forall_forall in Hb, Ha.
  intros [Hx | [-> | Hx]].
  - by apply Qlt_le_weak, Hb.
  - apply Qle_refl.
  - by apply Ha.
Qed.

End MinKey.

(** [min] depends on the keys only up to their value. *)
Lemma min_from_ext {A} (key1 key2 : A -> Q) best items :
  (forall x, (key1 x == key2 x)%Q) ->
  min_from key1 best items = min_from key2 best items.
Proof.
  intros Hk. revert best. induction items as [|x rest IH]; intros best; simpl; [done|].
  replace (Qltb (key2 x) (key2 best)) with (Qltb (key1 x) (key1 best)).
  - destruct (Qltb (key1 x) (key1 best)); apply IH.
  - unfold Qltb. f_equal. apply Qleb_comp; apply Hk.
Qed.

(** ** FlowletRouter *)

Section FlowletRouterFacts.
Import FlowletRouter.
Implicit Types (self : t) (key : flow_key) (paths : list path_id) (now : Q).

Lemma sticky_call self key paths now last_time last_path :
  flowlet_table self !! key = Some (last_time, last_path) ->
  (now - last_time < flowlet_timeout self)%Q ->
  get_flowlet_path self key paths now =
    (set_table self (<[key := (now, last_path)]> (flowlet_table self)), Ok last_path).
Proof.
  intros Hentry Hfresh. unfold get_flowlet_path. rewrite Hentry.
  apply Qltb_lt in Hfresh. by rewrite Hfresh.
Qed.

Lemma opening_call self key paths now :
  opens_flowlet self key now ->
  get_flowlet_path self key paths now = new_flowlet self key paths now.
Proof.
  unfold opens_flowlet, get_flowlet_path.
  destruct (flowlet_table self !! key) as [[last_time last_path]|]; [|done].
  intros Hstale. apply Qltb_ge in Hstale. by rewrite Hstale.
Qed.

(** Every lookup either continues the flowlet or opens a new one. *)
Lemma sticky_or_opening self key now :
  (exists last_time last_path,
      flowlet_table self !! key = Some (last_time, last_path) /\
      (now - last_time < flowlet_timeout self)%Q) \/
  opens_flowlet self key now.
Proof.
  unfold opens_flowlet.
  destruct (flowlet_table self !! key) as [[last_time last_path]|]; [|by right].
  destruct (Qlt_le_dec (now - last_time) (flowlet_timeout self)); [left|right]; eauto.
Qed.

(** A lookup that returns leaves [(now, returned path)] under its key. *)
Lemma returned_path_recorded self key paths now self' p :
  get_flowlet_path self key paths now = (self', Ok p) ->
  flowlet_table self' !! key = Some (now, p) /\
  flowlet_timeout self' = flowlet_timeout self.
Proof.
  unfold get_flowlet_path, new_flowlet.
  destruct (flowlet_table self !! key) as [[last_time last_path]|];
    [destruct (Qltb _ _)|]; try destruct (min_key _ _); intros [= <- <-];
    simpl; by rewrite lookup_insert_eq.
Qed.

Lemma step_frame self key c :
  other_key key c ->
  flowlet_table (step self c) !! key = flowlet_table self !! key /\
  flowlet_timeout (step self c) = flowlet_timeout self.
Proof.
  destruct c as [key' paths now | p d]; simpl; [|done].
  intros Hne. unfold get_flowlet_path, new_flowlet.
  destruct (flowlet_table self !! key') as [[last_time last_path]|];
    [destruct (Qltb _ _)|]; try destruct (min_key _ _); simpl;
    by rewrite ?lookup_insert_ne.
Qed.

Lemma run_frame self key calls :
  Forall (other_key key) calls ->
  flowlet_table (run self calls) !! key = flowlet_table self !! key /\
  flowlet_timeout (run self calls) = flowlet_timeout self.
Proof.
  intros Hcalls. revert self.
  induction Hcalls as [|c calls Hc _ IH]; intros self; [done|].
  simpl. destruct (step_frame self key c Hc) as [Htbl Hto].
  destruct (IH (step self c)) as [-> ->]. done.
Qed.

(** C1. Flowlet stickiness: a lookup for a key whose entry is younger than
    [flowlet_timeout] returns the path stored for the key and moves the
    entry's timestamp to the time of the lookup.  Hence, once a lookup for
    [key] at time [t1] has returned a path, a lookup for [key] at a time [t2]
    with [t2 - t1 < flowlet_timeout] returns the same path, whatever calls for
    other keys (or load updates) were served in between. *)
Theorem flowlet_stickiness self key :
  (forall paths now last_time last_path,
      flowlet_table self !! key = Some (last_time, last_path) ->
      (now - last_time < flowlet_timeout self)%Q ->
      get_flowlet_path self key paths now =
        (set_table self (<[key := (now, last_path)]> (flowlet_table self)),
         Ok last_path)) /\
  (forall paths1 t1 self1 p1 others paths2 t2,
      get_flowlet_path self key paths1 t1 = (self1, Ok p1) ->
      Forall (other_key key) others ->
      (t2 - t1 < flowlet_timeout self)%Q ->
      snd (get_flowlet_path (run self1 others) key paths2 t2) = Ok p1).
Proof.
  split.
  - intros paths now last_time last_path Hentry Hfresh.
    by apply (sticky_call self key paths now last_time last_path).
  - intros paths1 t1 self1 p1 others paths2 t2 Hfirst Hothers Hgap.
    apply returned_path_recorded in Hfirst as [Hentry Hto].
    destruct (run_frame self1 key others Hothers) as [Htbl Hto'].
    rewrite (sticky_call _ key paths2 t2 t1 p1); [done | by rewrite Htbl |].
    by rewrite Hto', Hto.
Qed.

Lemma flowlet_stickiness_witness :
  let self := init (1 # 20) in
  let key : flow_key := ("10.0.1.1", "10.0.2.1", 7%Z) in
  let self1 := fst (get_flowlet_path self key [1; 2]%Z 0) in
  get_flowlet_path self1 key [] (1 # 100) =
    (set_table self1 (<[key := (1 # 100, 1%Z)]> (flowlet_table self1)), Ok 1%Z) /\
  snd (get_flowlet_path
         (run self1 [UpdateLoad 1%Z 5%Q; GetPath ("10.0.1.2", "10.0.2.1", 7%Z) [1; 2]%Z (1 # 200)])
         key [2]%Z (1 # 100)) = Ok 1%Z.
Proof.
  intros self key self1. split.
  - apply (proj1 (flowlet_stickiness self1 key) [] (1 # 100) 0%Q 1%Z);
      [vm_compute; reflexivity | reflexivity].
  - apply (proj2 (flowlet_stickiness self key) [1; 2]%Z 0%Q self1 1%Z);
      [vm_compute; reflexivity | | reflexivity].
    repeat constructor. unfold key. simpl. discriminate.
Defined.

Lemma new_flowlet_choice self key paths now first rest :
  paths = first :: rest ->
  new_flowlet self key paths now =
    (set_table self
       (<[key := (now, min_from (load_of self) first rest)]> (flowlet_table self)),
     Ok (min_from (load_of self) first rest)).
Proof. by intros ->. Qed.

(** C2 (amended). New-flowlet selection: when the key has no entry, or its
    entry is at least [flowlet_timeout] old, and [available_paths] is not
    empty, the lookup returns a path of [available_paths] whose load is the
    lowest, and records [(current_time, chosen path)].  Among the paths of
    lowest load it is the one that comes first in [available_paths]: every
    path listed before it has a strictly higher load.  This is the lowest
    path identifier when [available_paths] is listed in ascending order, and
    the choice is a function of the loads and of [available_paths] alone. *)
Theorem new_flowlet_selection self key paths now :
  paths <> [] ->
  opens_flowlet self key now ->
  exists p,
    get_flowlet_path self key paths now =
      (set_table self (<[key := (now, p)]> (flowlet_table self)), Ok p) /\
    p ∈ paths /\
    (forall q, q ∈ paths -> (load_of self p <= load_of self q)%Q) /\
    (exists before after,
        paths = before ++ p :: after /\
        forall q, q ∈ before -> (load_of self p < load_of self q)%Q) /\
    (StronglySorted Z.le paths ->
     forall q, q ∈ paths -> (load_of self q == load_of self p)%Q -> (p <= q)%Z) /\
    (forall self' key' now',
        (forall q, (load_of self' q == load_of self q)%Q) ->
        opens_flowlet self' key' now' ->
        snd (get_flowlet_path self' key' paths now') = Ok p).
Proof.
  intros Hne Hnew. destruct paths as [|first rest]; [done|].
  set (p := min_from (load_of self) first rest).
  destruct (min_from_split (load_of self) first rest)
    as (before & after & Hsplit & Hbefore & Hafter).
  fold p in Hsplit, Hbefore, Hafter.
  rewrite Forall_forall in Hbefore. rewrite Forall_forall in Hafter.
  exists p. split; [|split; [|split; [|split; [|split]]]].
  - rewrite opening_call by done. by apply new_flowlet_choice.
  - apply min_from_elem.
  - intros q Hq. by apply min_from_least.
  - exists before, after. split; [done|]. exact Hbefore.
  - intros Hsorted q Hq Htie. rewrite Hsplit in Hsorted, Hq.
    apply elem_of_app in Hq as [Hq | Hq].
    + apply Hbefore in Hq. rewrite Htie in Hq. by apply Qlt_irrefl in Hq.
    + apply elem_of_cons in Hq as [-> | Hq]; [lia|].
      apply StronglySorted_app_1_r, StronglySorted_inv in Hsorted as [_ Hle].
      rewrite Forall_forall in Hle. by apply Hle.
  - intros self' key' now' Hloads Hnew'.
    rewrite opening_call by done.
    rewrite (new_flowlet_choice self' key' _ now' first rest) by done. simpl.
    f_equal. by apply min_from_ext.
Qed.

Lemma new_flowlet_selection_witness :
  let self := update_path_load (update_path_load (init (1 # 20)) 1%Z 3%Q) 3%Z 3%Q in
  let key : flow_key := ("10.0.1.1", "10.0.2.1", 7%Z) in
  exists p,
    get_flowlet_path self key [1; 2; 3; 4]%Z 0%Q =
      (set_table self (<[key := (0%Q, p)]> (flowlet_table self)), Ok p) /\
    p = 2%Z.
Proof.
  intros self key.
  destruct (new_flowlet_selection self key [1; 2; 3; 4]%Z 0%Q)
    as (p & Hcall & _); [discriminate | exact I |].
  exists p. split; [exact Hcall|].
  vm_compute in Hcall. by injection Hcall as _ <-.
Defined.

(** C2, as stated, fails: with equal loads the path listed first is taken,
    not the one with the smallest identifier. *)
Lemma tie_break_by_identifier_counterexample :
  let self := init (1 # 20) in
  let key : flow_key := ("10.0.1.1", "10.0.2.1", 7%Z) in
  opens_flowlet self key 0%Q /\
  snd (get_flowlet_path self key [2; 1]%Z 0%Q) = Ok 2%Z /\
  (load_of self 1%Z == load_of self 2%Z)%Q /\
  (1 < 2)%Z.
Proof. repeat split. Qed.

(** C10. The implicit precondition on [available_paths]: with an empty list
    the lookup still returns the stored path while the key's entry is younger
    than [flowlet_timeout], and raises [ValueError] (from [min] over an empty
    sequence, leaving the router unchanged) when it opens a new flowlet; with
    a non-empty list it always returns, and what it returns is a member of
    [available_paths] or the path stored for the key. *)
Theorem available_paths_precondition self key now :
  (forall last_time last_path,
      flowlet_table self !! key = Some (last_time, last_path) ->
      (now - last_time < flowlet_timeout self)%Q ->
      get_flowlet_path self key [] now =
        (set_table self (<[key := (now, last_path)]> (flowlet_table self)),
         Ok last_path)) /\
  (opens_flowlet self key now ->
   get_flowlet_path self key [] now = (self, Raise ValueError)) /\
  (forall paths,
      paths <> [] ->
      exists self' p,
        get_flowlet_path self key paths now = (self', Ok p) /\
        (p ∈ paths \/ exists last_time, flowlet_table self !! key = Some (last_time, p))).
Proof.
  split; [|split].
  - intros last_time last_path Hentry Hfresh.
    by apply (sticky_call self key [] now last_time last_path).
  - intros Hnew. by rewrite opening_call.
  - intros paths Hne.
    destruct (sticky_or_opening self key now)
      as [(last_time & last_path & Hentry & Hfresh) | Hnew].
    + eexists _, last_path. split.
      * by apply (sticky_call self key paths now last_time last_path).
      * right. eauto.
    + destruct paths as [|first rest]; [done|].
      eexists _, (min_from (load_of self) first rest). split.
      * rewrite opening_call by done. by apply new_flowlet_choice.
      * left. apply min_from_elem.
Qed.

Lemma available_paths_precondition_witness :
  let self := init (1 # 20) in
  let key : flow_key := ("10.0.1.1", "10.0.2.1", 7%Z) in
  let self1 := fst (get_flowlet_path self key [4; 5]%Z 0%Q) in
  get_flowlet_path self1 key [] (1 # 100) =
    (set_table self1 (<[key := (1 # 100, 4%Z)]> (flowlet_table self1)), Ok 4%Z) /\
  get_flowlet_path self1 key [] (1 # 10) = (self1, Raise ValueError) /\
  exists self' p,
    get_flowlet_path self1 key [5]%Z (1 # 10) = (self', Ok p) /\
    (p ∈ [5]%Z \/ exists last_time, flowlet_table self1 !! key = Some (last_time, p)).
Proof.
  intros self key self1.
  destruct (available_paths_precondition self1 key (1 # 100)) as (Hsticky & _ & _).
  destruct (available_paths_precondition self1 key (1 # 10)) as (_ & Hraise & Hany).
  split; [|split].
  - apply (Hsticky 0%Q 4%Z); [vm_compute; reflexivity | reflexivity].
  - apply Hraise. vm_compute. discriminate.
  - apply Hany. discriminate.
Defined.

End FlowletRouterFacts.

Lemma min_from_snoc {A} (key : A -> Q) best items x :
  min_from key best (items ++ [x]) =
    if Qltb (key x) (key (min_from key best items)) then x
    else min_from key best items.
Proof.
  revert best. induction items as [|y items IH]; intros best; simpl.
  - done.
  - destruct (Qltb (key y) (key best)); apply IH.
Qed.

Lemma min_key_snoc {A} (key : A -> Q) items x :
  min_key key (items ++ [x]) =
    match min_key key items with
    | Ok m => Ok (if Qltb (key x) (key m) then x else m)
    | Raise _ => Ok x
    end.
Proof.
  destruct items as [|best items]; simpl; [done|].
  by rewrite min_from_snoc.
Qed.

Lemma min_key_elem {A} (key : A -> Q) items m :
  min_key key items = Ok m -> m ∈ items.
Proof.
  destruct items as [|best items]; simpl; intros [= <-]. apply min_from_elem.
Qed.

Lemma min_key_least {A} (key : A -> Q) items m x :
  min_key key items = Ok m -> x ∈ items -> (key m <= key x)%Q.
Proof.
  destruct items as [|best items]; simpl; intros [= <-]. apply min_from_least.
Qed.

Lemma min_key_returns {A} (key : A -> Q) items :
  items <> [] -> exists m, min_key key items = Ok m.
Proof. destruct items; [done|]. simpl. eauto. Qed.

(** Only the keys of the scanned items matter. *)
Lemma min_key_agree {A} (key1 key2 : A -> Q) items :
  (forall x, x ∈ items -> (key1 x == key2 x)%Q) ->
  min_key key1 items = min_key key2 items.
Proof.
  induction items as [|x items IH] using rev_ind; intros Hk; [done|].
  rewrite !min_key_snoc, <- IH.
  - destruct (min_key key1 items) as [m|] eqn:Hm; [|done].
    replace (Qltb (key2 x) (key2 m)) with (Qltb (key1 x) (key1 m)); [done|].
    unfold Qltb. f_equal. apply Qleb_comp; apply Hk.
    + apply elem_of_app. left. by eapply min_key_elem.
    + apply elem_of_app. right. left.
  - intros y Hy. apply Hk, elem_of_app. by left.
Qed.

(** ** Ordered dictionaries *)

Section DictFacts.
Context {K V : Type} `{EqDecision K}.
Implicit Types (d : dict K V) (k : K) (v : V).

Lemma dict_get_set_eq d k v : dict_get (dict_set d k v) k = Some v.
Proof.
  induction d as [|[k' v'] d IH]; simpl.
  - by rewrite decide_True.
  - destruct (decide (k' = k)); simpl.
    + by rewrite decide_True.
    + by rewrite decide_False.
Qed.

Lemma dict_get_set_ne d k k' v :
  k <> k' -> dict_get (dict_set d k v) k' = dict_get d k'.
Proof.
  intros Hne. induction d as [|[k0 v0] d IH]; simpl.
  - by rewrite decide_False.
  - destruct (decide (k0 = k)) as [->|]; simpl.
    + by rewrite !decide_False.
    + by rewrite IH.
Qed.

Lemma dict_keys_set d k v :
  dict_keys (dict_set d k v) =
    if decide (k ∈ dict_keys d) then dict_keys d else dict_keys d ++ [k].
Proof.
  unfold dict_keys. induction d as [|[k' v'] d IH]; cbn [dict_set map fst].
  - case_decide as Hk; [by apply elem_of_nil in Hk | done].
  - destruct (decide (k' = k)) as [->|Hne]; cbn [map fst].
    + rewrite decide_True; [done|]. left.
    + rewrite IH. destruct (decide (k ∈ map fst d)).
      * rewrite decide_True; [done|]. by right.
      * rewrite decide_False; [done|].
        intros [?|?]%elem_of_cons; congruence.
Qed.

End DictFacts.

(** ** CongestionAwareRouter *)

Lemma running_total {A} (g : A -> Q) items start :
  (fold_left (fun total x => total + g x) items start == start + Qsum (map g items))%Q.
Proof.
  revert start. induction items as [|x items IH]; intros start; simpl.
  - ring.
  - rewrite IH. ring.
Qed.

Section CongestionAwareRouterFacts.
Import CongestionAwareRouter.
Context (self : t) (path_links_map : gmap path_id (list link)).

Local Abbreviation score := (candidate_score self path_links_map).
Local Abbreviation scores_of paths := (path_scores self paths path_links_map).

Lemma path_scores_snoc paths p :
  scores_of (paths ++ [p]) = dict_set (scores_of paths) p (score p).
Proof. unfold path_scores. by rewrite fold_left_app. Qed.

Lemma path_scores_keys paths p :
  p ∈ dict_keys (scores_of paths) <-> p ∈ paths.
Proof.
  induction paths as [|x paths IH] using rev_ind.
  - done.
  - rewrite path_scores_snoc, dict_keys_set, elem_of_app, list_elem_of_singleton.
    destruct (decide (x ∈ dict_keys (scores_of paths))) as [Hx|Hx].
    + rewrite IH. split; [by left|]. intros [?| ->]; [done|]. by apply IH.
    + by rewrite elem_of_app, list_elem_of_singleton, IH.
Qed.

(** Every key of [path_scores] holds the score of its path. *)
Lemma path_scores_get paths p :
  p ∈ paths -> dict_get (scores_of paths) p = Some (score p).
Proof.
  induction paths as [|x paths IH] using rev_ind; [by intros ?%elem_of_nil|].
  rewrite path_scores_snoc. intros Hp.
  destruct (decide (x = p)) as [->|Hne].
  - apply dict_get_set_eq.
  - rewrite dict_get_set_ne by done. apply IH.
    apply elem_of_app in Hp as [?|Hp]; [done|].
    apply list_elem_of_singleton in Hp. congruence.
Qed.

Lemma min_over_keys paths :
  min_key score (dict_keys (scores_of paths)) = min_key score paths.
Proof.
  induction paths as [|x paths IH] using rev_ind; [done|].
  rewrite path_scores_snoc, dict_keys_set, min_key_snoc.
  destruct (decide (x ∈ dict_keys (scores_of paths))) as [Hx|Hx].
  - rewrite IH. rewrite path_scores_keys in Hx.
    destruct (min_key score paths) as [m|e] eqn:Hm.
    + pose proof (min_key_least _ _ _ _ Hm Hx) as Hle.
      apply Qltb_ge in Hle. by rewrite Hle.
    + destruct paths; [by apply elem_of_nil in Hx | done].
  - by rewrite min_key_snoc, IH.
Qed.

(** [select_path] is [min] over the candidates in the order given. *)
Lemma select_path_min paths :
  select_path self paths path_links_map = min_key score paths.
Proof.
  unfold select_path. rewrite <- min_over_keys.
  apply min_key_agree. intros p Hp. rewrite path_scores_keys in Hp.
  unfold score_in. by rewrite path_scores_get.
Qed.

(** C3. Congestion scoring: the score of a path is the arithmetic mean, over
    its [(switch, port)] links, of the utilization last recorded for each
    link (a new reading of a link replaces the previous one), a link without
    a recorded sample counting as 0; a path with no links scores 0.  Over a
    non-empty [available_paths], [select_path] returns a candidate of minimal
    score, and among those the one that comes first in [available_paths]. *)
Theorem congestion_scoring :
  (forall p, get_path_score self p [] = 0%Q) /\
  (forall p links,
      links <> [] ->
      (get_path_score self p links ==
         Qmean (map (fun l => match link_stats self !! l with
                              | Some stats => util stats
                              | None => 0
                              end) links))%Q) /\
  (forall l older newer,
      link_stats (record_stat (record_stat self l older) l newer) !! l = Some newer) /\
  (forall paths,
      paths <> [] ->
      exists p,
        select_path self paths path_links_map = Ok p /\
        p ∈ paths /\
        (forall q, q ∈ paths -> (score p <= score q)%Q) /\
        exists before after,
          paths = before ++ p :: after /\
          forall q, q ∈ before -> (score p < score q)%Q).
Proof.
  split; [done|split; [|split]].
  - intros p links Hne. unfold get_path_score, Qmean.
    destruct links as [|l links]; [done|].
    rewrite running_total, length_map. unfold link_util.
    apply Qdiv_comp; [ring | reflexivity].
  - intros l older newer. simpl. apply lookup_insert_eq.
  - intros paths Hne. rewrite select_path_min.
    destruct paths as [|first rest]; [done|]. simpl.
    exists (min_from score first rest).
    destruct (min_from_split score first rest)
      as (before & after & Hsplit & Hbefore & _).
    rewrite Forall_forall in Hbefore.
    split; [done|]. split; [apply min_from_elem|].
    split; [intros q Hq; by apply min_from_least|].
    exists before, after. split; [done|]. exact Hbefore.
Qed.

End CongestionAwareRouterFacts.

Lemma congestion_scoring_witness :
  let self :=
    CongestionAwareRouter.record_stat
      (CongestionAwareRouter.record_stat (CongestionAwareRouter.init (1 # 10) (7 # 10))
         ("leaf1", 5%Z) (CongestionAwareRouter.mk_stat (3 # 5) 0 0 0))
      ("spine1", 1%Z) (CongestionAwareRouter.mk_stat (1 # 5) 0 0 0) in
  let links_map : gmap path_id (list link) :=
    <[1%Z := [("leaf1", 5%Z); ("spine1", 1%Z)]]>
      (<[2%Z := [("leaf1", 6%Z); ("spine2", 1%Z)]]>
         (<[3%Z := [("leaf1", 5%Z); ("spine9", 1%Z); ("leaf9", 1%Z)]]> ∅)) in
  (CongestionAwareRouter.get_path_score self 1%Z [("leaf1", 5%Z); ("spine1", 1%Z)] == 2 # 5)%Q /\
  CongestionAwareRouter.select_path self [3; 1; 2; 4]%Z links_map = Ok 2%Z.
Proof.
  intros self links_map.
  destruct (congestion_scoring self links_map) as (_ & Hmean & _ & Hselect).
  split.
  - rewrite Hmean by discriminate. reflexivity.
  - destruct (Hselect [3; 1; 2; 4]%Z) as (p & Hp & _); [discriminate|].
    rewrite Hp. vm_compute in Hp. by injection Hp as <-.
Defined.

(** ** AdaptiveRoutingController *)

Section ControllerFacts.
Import AdaptiveRoutingController.

Lemma flowlet_lookup_result (c : t) key paths now :
  snd (flowlet_lookup c key paths now) =
  snd (FlowletRouter.get_flowlet_path (flowlet_router c) key paths now).
Proof.
  unfold flowlet_lookup. by destruct (FlowletRouter.get_flowlet_path _ _ _ _).
Qed.

(** C4 (amended). In ['hybrid'] mode the controller holds a flowlet router
    and a congestion router side by side; it has no lookup that composes
    them.  [start] launches the congestion probe and leaves the flowlet
    router as it is.  A lookup through the flowlet router is sticky, and for
    a new flowlet it takes the least loaded path (the first listed among
    equals), whatever the link statistics of the congestion router are.  A
    lookup through the congestion router goes by the congestion score alone:
    it neither reads nor writes the flowlet table. *)
Theorem hybrid_mode_routers (c : t) :
  mode c = "hybrid" ->
  (CongestionAwareRouter.monitoring (congestion_router (start c)) = true /\
   flowlet_router (start c) = flowlet_router c) /\
  (forall key paths now last_time last_path,
      FlowletRouter.flowlet_table (flowlet_router c) !! key = Some (last_time, last_path) ->
      (now - last_time < FlowletRouter.flowlet_timeout (flowlet_router c))%Q ->
      snd (flowlet_lookup c key paths now) = Ok last_path) /\
  (forall key paths now,
      paths <> [] ->
      FlowletRouter.opens_flowlet (flowlet_router c) key now ->
      exists p before after,
        snd (flowlet_lookup c key paths now) = Ok p /\
        paths = before ++ p :: after /\
        (forall q, q ∈ before ->
           (FlowletRouter.load_of (flowlet_router c) p <
            FlowletRouter.load_of (flowlet_router c) q)%Q) /\
        (forall q, q ∈ after ->
           (FlowletRouter.load_of (flowlet_router c) p <=
            FlowletRouter.load_of (flowlet_router c) q)%Q)) /\
  (forall key paths now probe,
      snd (flowlet_lookup (mk (mode c) (flowlet_router c) probe) key paths now) =
      snd (flowlet_lookup c key paths now)) /\
  (forall paths links_map key paths' now,
      congestion_lookup c paths links_map =
        (c, min_key (CongestionAwareRouter.candidate_score (congestion_router c) links_map)
              paths) /\
      snd (congestion_lookup (fst (flowlet_lookup c key paths' now)) paths links_map) =
        snd (congestion_lookup c paths links_map)).
Proof.
  intros Hmode. split; [|split; [|split; [|split]]].
  - unfold start, probes. rewrite Hmode. done.
  - intros key paths now last_time last_path Hentry Hfresh.
    rewrite flowlet_lookup_result.
    by rewrite (sticky_call _ key paths now last_time last_path).
  - intros key paths now Hne Hnew. destruct paths as [|first rest]; [done|].
    destruct (min_from_split (FlowletRouter.load_of (flowlet_router c)) first rest)
      as (before & after & Hsplit & Hbefore & Hafter).
    rewrite Forall_forall in Hbefore. rewrite Forall_forall in Hafter.
    eexists _, before, after. split; [|split; [exact Hsplit|split; done]].
    rewrite flowlet_lookup_result, opening_call by done.
    by rewrite (new_flowlet_choice _ key _ now first rest).
  - intros key paths now probe. by rewrite !flowlet_lookup_result.
  - intros paths links_map key paths' now. unfold congestion_lookup. simpl.
    rewrite !select_path_min. split; [done|].
    unfold flowlet_lookup. by destruct (FlowletRouter.get_flowlet_path _ _ _ _).
Qed.

Lemma hybrid_mode_routers_witness :
  let c := start (init "hybrid" (1 # 20) (7 # 10)) in
  CongestionAwareRouter.monitoring (congestion_router (start c)) = true /\
  flowlet_router (start c) = flowlet_router c.
Proof.
  intros c. apply (hybrid_mode_routers c). reflexivity.
Defined.

(** C4, as stated, fails.  A hybrid controller whose link statistics make
    path 2 the less congested one: the sticky lookup opens the new flowlet on
    path 1, the first of the equally loaded paths, against the congestion
    score; the lookup by congestion score answers path 2 for the same flow a
    moment later, against stickiness. *)
Lemma hybrid_composition_counterexample :
  let key : flow_key := ("10.0.1.1", "10.0.2.1", 7%Z) in
  let links_map : gmap path_id (list link) :=
    <[1%Z := [("leaf1", 5%Z)]]> (<[2%Z := [("leaf1", 6%Z)]]> ∅) in
  let c0 := start (init "hybrid" (1 # 20) (7 # 10)) in
  let c :=
    mk (mode c0) (flowlet_router c0)
       (CongestionAwareRouter.record_stat (congestion_router c0)
          ("leaf1", 5%Z) (CongestionAwareRouter.mk_stat (9 # 10) 0 0 0)) in
  let c1 := fst (flowlet_lookup c key [1; 2]%Z 0%Q) in
  mode c = "hybrid" /\
  FlowletRouter.opens_flowlet (flowlet_router c) key 0%Q /\
  snd (flowlet_lookup c key [1; 2]%Z 0%Q) = Ok 1%Z /\
  (CongestionAwareRouter.candidate_score (congestion_router c) links_map 2%Z <
   CongestionAwareRouter.candidate_score (congestion_router c) links_map 1%Z)%Q /\
  snd (flowlet_lookup c1 key [1; 2]%Z (1 # 100)) = Ok 1%Z /\
  snd (congestion_lookup c1 [1; 2]%Z links_map) = Ok 2%Z.
Proof. vm_compute. repeat split. Qed.

End ControllerFacts.

(** ** Loops that may raise *)

Section ForEach.
Context {A S : Type} (body : S -> A -> result S).
Context (grows : S -> S -> Prop) (done_for : A -> S -> Prop).
Hypothesis grows_refl : forall s, grows s s.
Hypothesis grows_trans : forall s1 s2 s3, grows s1 s2 -> grows s2 s3 -> grows s1 s3.
Hypothesis done_kept : forall a s s', done_for a s -> grows s s' -> done_for a s'.

(** When each round returns, extends the state and settles its item, the
    loop returns with every item settled. *)
Lemma for_each_settles items s :
  (forall a s, a ∈ items ->
     exists s', body s a = Ok s' /\ grows s s' /\ done_for a s') ->
  exists s', for_each body items s = Ok s' /\ grows s s' /\
             forall a, a ∈ items -> done_for a s'.
Proof.
  revert s. induction items as [|x items IH]; intros s Hbody; simpl.
  - exists s. split; [done|]. split; [done|]. by intros a ?%elem_of_nil.
  - destruct (Hbody x s) as (s1 & -> & Hg1 & Hx); [left|]. simpl.
    destruct (IH s1) as (s2 & Hrun & Hg2 & Hrest).
    { intros a s0 Ha. apply Hbody. by right. }
    exists s2. split; [done|]. split; [by eapply grows_trans|].
    intros a [->|Ha]%elem_of_cons; [by eapply done_kept | by apply Hrest].
Qed.

End ForEach.

Lemma dict_get_key {K V} `{EqDecision K} (d : dict K V) k v :
  dict_get d k = Some v -> k ∈ dict_keys d.
Proof.
  unfold dict_keys. induction d as [|[k' v'] d IH]; simpl; [done|].
  destruct (decide (k' = k)) as [->|]; [left | right; auto].
Qed.

Lemma dict_key_get {K V} `{EqDecision K} (d : dict K V) k :
  k ∈ dict_keys d -> exists v, dict_get d k = Some v.
Proof.
  unfold dict_keys. induction d as [|[k' v'] d IH]; simpl; [by intros ?%elem_of_nil|].
  destruct (decide (k' = k)) as [->|Hne]; [eauto|].
  intros [?|?]%elem_of_cons; [congruence | auto].
Qed.

(** ** NetworkMonitor *)

Section NetworkMonitorFacts.
Import NetworkMonitor.

Lemma extends_refl u : extends u u.
Proof. by intros id v. Qed.

Lemma extends_trans u1 u2 u3 : extends u1 u2 -> extends u2 u3 -> extends u1 u3.
Proof. intros H12 H23 id v Hv. by apply H23, H12. Qed.

Lemma append_util_extends u id v : extends u (append_util u id v).
Proof.
  intros id' v' Hv'. unfold recorded, append_util in *.
  destruct (decide (id = id')) as [<-|Hne].
  - rewrite dict_get_set_eq. simpl. apply elem_of_app. by left.
  - by rewrite dict_get_set_ne.
Qed.

Lemma append_util_recorded u id v : v ∈ recorded (append_util u id v) id.
Proof.
  unfold recorded, append_util. rewrite dict_get_set_eq. simpl.
  apply elem_of_app. right. left.
Qed.

Lemma div_returns x y : ~ (y == 0)%Q -> Py.div x y = Ok (x / y)%Q.
Proof.
  intros Hy. unfold Py.div. destruct (Qeq_bool y 0) eqn:E; [|done].
  by apply Qeq_bool_iff in E.
Qed.

Lemma util_pct_returns bytes_delta time_delta :
  ~ (time_delta == 0)%Q ->
  util_pct bytes_delta time_delta =
    Ok (inject_Z (bytes_delta * 8) / time_delta / link_capacity_bps * 100)%Q.
Proof.
  intros Ht. unfold util_pct. cbv zeta. rewrite div_returns by done.
  cbn [bind]. by rewrite div_returns.
Qed.

Section Loops.
Context (self : t).
Hypothesis interval_nonzero : ~ (sample_interval self == 0)%Q.

Lemma port_loop sw prev_ports curr_ports u :
  exists u',
    for_each (port_body self sw prev_ports curr_ports) (dict_keys curr_ports) u = Ok u' /\
    extends u u' /\
    forall port, port_done self sw prev_ports curr_ports port u'.
Proof.
  destruct (for_each_settles (port_body self sw prev_ports curr_ports)
              extends (port_done self sw prev_ports curr_ports)
              extends_refl extends_trans) with (items := dict_keys curr_ports) (s := u)
    as (u' & Hrun & Hext & Hdone).
  - intros port u1 u2 Hport Hext prev curr Hprev Hcurr. by apply Hext, Hport.
  - intros port u1 Hport. unfold port_body.
    destruct (dict_get prev_ports port) as [prev|] eqn:Hprev.
    + destruct (dict_key_get _ _ Hport) as [curr Hcurr]. rewrite Hcurr.
      rewrite util_pct_returns by done. simpl. eexists. split; [done|].
      split; [apply append_util_extends|].
      intros prev' curr' Hprev' Hcurr'.
      replace prev' with prev by congruence. replace curr' with curr by congruence.
      apply append_util_recorded.
    + exists u1. split; [done|]. split; [apply extends_refl|].
      intros prev curr Hprev'. congruence.
  - exists u'. split; [done|]. split; [done|].
    intros port prev curr Hprev Hcurr.
    eapply Hdone; [|done..]. by eapply dict_get_key.
Qed.

Lemma switch_loop prev_sample curr_sample u :
  exists u',
    for_each (switch_body self prev_sample curr_sample)
      (dict_keys (switches curr_sample)) u = Ok u' /\
    extends u u' /\
    forall sw, switch_done self prev_sample curr_sample sw u'.
Proof.
  destruct (for_each_settles (switch_body self prev_sample curr_sample)
              extends (switch_done self prev_sample curr_sample)
              extends_refl extends_trans)
    with (items := dict_keys (switches curr_sample)) (s := u)
    as (u' & Hrun & Hext & Hdone).
  - intros sw u1 u2 Hsw Hext prev_switch curr_switch port Hp Hc prev curr Hprev Hcurr.
    by eapply Hext, Hsw.
  - intros sw u1 Hsw. unfold switch_body.
    destruct (dict_get (switches prev_sample) sw) as [prev_switch|] eqn:Hprev.
    + destruct (dict_key_get _ _ Hsw) as [curr_switch Hcurr]. rewrite Hcurr.
      destruct (port_loop sw (ports prev_switch) (ports curr_switch) u1)
        as (u2 & Hrun & Hext & Hdone).
      exists u2. split; [done|]. split; [done|].
      intros prev_switch' curr_switch' port Hprev' Hcurr'.
      replace prev_switch' with prev_switch by congruence.
      replace curr_switch' with curr_switch by congruence.
      apply Hdone.
    + exists u1. split; [done|]. split; [apply extends_refl|].
      intros prev_switch curr_switch port Hprev'. congruence.
  - exists u'. split; [done|]. split; [done|].
    intros sw prev_switch curr_switch port Hp Hc.
    eapply Hdone; [|done..]. by eapply dict_get_key.
Qed.

Lemma sample_loop pairs u :
  exists u',
    for_each (sample_body self) pairs u = Ok u' /\
    extends u u' /\
    forall pair, pair ∈ pairs -> sample_done self pair u'.
Proof.
  apply (for_each_settles (sample_body self) extends (sample_done self)
           extends_refl extends_trans).
  - intros pair u1 u2 Hpair Hext sw prev_switch curr_switch port Hp Hc prev curr Hprev Hcurr.
    by eapply Hext, Hpair.
  - intros [prev_sample curr_sample] u1 _. apply switch_loop.
Qed.

(** Every link present in two consecutive samples has the reading of that
    interval recorded under its identifier. *)
Lemma readings_recorded :
  exists utilization,
    compute_link_utilization self = Ok utilization /\
    forall prev_sample curr_sample sw port prev_switch curr_switch prev curr,
      (prev_sample, curr_sample) ∈ consecutive (samples self) ->
      dict_get (switches prev_sample) sw = Some prev_switch ->
      dict_get (switches curr_sample) sw = Some curr_switch ->
      dict_get (ports prev_switch) port = Some prev ->
      dict_get (ports curr_switch) port = Some curr ->
      (inject_Z ((tx_bytes curr - tx_bytes prev) * 8) / sample_interval self
         / link_capacity_bps * 100)%Q ∈ recorded utilization (link_id sw port).
Proof.
  unfold compute_link_utilization.
  destruct (sample_loop (consecutive (samples self)) []) as (u & Hrun & _ & Hdone).
  destruct (length (samples self) <? 2)%nat eqn:Hlen.
  - exists []. split; [done|]. intros prev_sample curr_sample ? ? ? ? ? ? Hpair.
    apply Nat.ltb_lt in Hlen.
    destruct (samples self) as [|s0 [|s1 rest]]; simpl in *; [| |lia];
      by apply elem_of_nil in Hpair.
  - exists u. split; [done|].
    intros prev_sample curr_sample sw port prev_switch curr_switch prev curr
      Hpair Hp Hc Hprev Hcurr.
    by eapply (Hdone _ Hpair sw).
Qed.

End Loops.

(** C5 (amended). Link-utilization formula: for every link present in two
    consecutive samples, [compute_link_utilization] records under the link's
    identifier the percentage
    [(delta of cumulative tx bytes * 8) / sample_interval / 10^9 * 100]:
    the elapsed time is the monitor's configured [sample_interval], and the
    capacity is the 1 Gbps assumed for every link.  In particular, with a
    [sample_interval] of 1 second, a tx-byte delta of 125000 bytes is a
    utilization of 0.1 %, and one of 125000000 bytes is 100 %. *)
Theorem link_utilization_formula :
  (forall self,
      ~ (sample_interval self == 0)%Q ->
      exists utilization,
        compute_link_utilization self = Ok utilization /\
        forall prev_sample curr_sample sw port prev_switch curr_switch prev curr,
          (prev_sample, curr_sample) ∈ consecutive (samples self) ->
          dict_get (switches prev_sample) sw = Some prev_switch ->
          dict_get (switches curr_sample) sw = Some curr_switch ->
          dict_get (ports prev_switch) port = Some prev ->
          dict_get (ports curr_switch) port = Some curr ->
          exists u,
            u ∈ recorded utilization (link_id sw port) /\
            (u == inject_Z (tx_bytes curr - tx_bytes prev) * 8 / sample_interval self
                  / 1000000000 * 100)%Q) /\
  (exists u, compute_link_utilization (two_samples 1 0 125000) = Ok [("leaf1:1", [u])] /\
             (u == 1 # 10)%Q) /\
  (exists u, compute_link_utilization (two_samples 1 0 125000000) = Ok [("leaf1:1", [u])] /\
             (u == 100)%Q).
Proof.
  split; [|split].
  - intros self Hinterval.
    destruct (readings_recorded self Hinterval) as (utilization & Hrun & Hrec).
    exists utilization. split; [done|].
    intros prev_sample curr_sample sw port prev_switch curr_switch prev curr
      Hpair Hp Hc Hprev Hcurr.
    eexists. split; [by eapply Hrec|].
    unfold link_capacity_bps. rewrite inject_Z_mult. reflexivity.
  - eexists. split; reflexivity.
  - eexists. split; reflexivity.
Qed.

Lemma link_utilization_formula_witness :
  exists utilization,
    compute_link_utilization (two_samples (1 # 2) 1000 2000) = Ok utilization /\
    exists u, u ∈ recorded utilization "leaf1:1" /\ (u == 16 # 10000)%Q.
Proof.
  destruct (proj1 link_utilization_formula (two_samples (1 # 2) 1000 2000))
    as (utilization & Hrun & Hrec); [discriminate|].
  exists utilization. split; [exact Hrun|].
  destruct (Hrec (mk_sample "2024-01-01T00:00:00"
                    [("leaf1", mk_switch [("1", mk_port 0 0 0 0 1000 0)] [])])
                 (mk_sample "2024-01-01T00:00:01"
                    [("leaf1", mk_switch [("1", mk_port 0 0 0 0 2000 0)] [])])
                 "leaf1" "1"
                 (mk_switch [("1", mk_port 0 0 0 0 1000 0)] [])
                 (mk_switch [("1", mk_port 0 0 0 0 2000 0)] [])
                 (mk_port 0 0 0 0 1000 0) (mk_port 0 0 0 0 2000 0))
    as (u & Hu & Heq); [left | reflexivity..|].
  exists u. split; [exact Hu|]. rewrite Heq. reflexivity.
Defined.

(** C5, as stated, fails on its own example: two samples one second apart
    with a tx-byte delta of 125000 bytes give 0.1 %, not 100 %; no link
    capacity other than 1 Gbps enters the computation.  Nor is the elapsed
    time read from the samples: with the same two samples a monitor configured
    with [sample_interval = 2] reports half of that. *)
Lemma link_capacity_counterexample :
  (exists u, compute_link_utilization (two_samples 1 0 125000) = Ok [("leaf1:1", [u])] /\
             (u == 1 # 10)%Q /\ ~ (u == 100)%Q) /\
  (exists u, compute_link_utilization (two_samples 2 0 125000) = Ok [("leaf1:1", [u])] /\
             (u == 1 # 20)%Q).
Proof.
  split; eexists; (split; [reflexivity|]); [split|]; done.
Qed.

End NetworkMonitorFacts.

(** ** Sorting *)

Lemma insert_sorted_perm x sorted : insert_sorted x sorted ≡ₚ x :: sorted.
Proof.
  induction sorted as [|y rest IH]; simpl; [done|].
  destruct (Qltb x y); [done|]. rewrite IH. apply Permutation_swap.
Qed.

Lemma insert_sorted_ordered x sorted :
  StronglySorted Qle sorted -> StronglySorted Qle (insert_sorted x sorted).
Proof.
  induction 1 as [|y rest Hrest IH Hy]; simpl.
  - repeat constructor.
  - destruct (Qltb x y) eqn:Hxy.
    + apply Qltb_lt, Qlt_le_weak in Hxy.
      constructor; [by constructor|].
      constructor; [done|]. eapply Forall_impl; [exact Hy|].
      intros z Hz. by eapply Qle_trans.
    + apply Qltb_ge in Hxy. constructor; [done|].
      rewrite insert_sorted_perm. by constructor.
Qed.

Lemma sort_from_perm xs sorted :
  fold_left (fun acc x => insert_sorted x acc) xs sorted ≡ₚ sorted ++ xs.
Proof.
  revert sorted. induction xs as [|x xs IH]; intros sorted; simpl.
  - by rewrite app_nil_r.
  - rewrite IH, insert_sorted_perm. simpl. apply Permutation_middle.
Qed.

Lemma sort_from_ordered xs sorted :
  StronglySorted Qle sorted ->
  StronglySorted Qle (fold_left (fun acc x => insert_sorted x acc) xs sorted).
Proof.
  revert sorted. induction xs as [|x xs IH]; intros sorted Hs; simpl; [done|].
  by apply IH, insert_sorted_ordered.
Qed.

Lemma sort_perm xs : Py.sort xs ≡ₚ xs.
Proof. apply (sort_from_perm xs []). Qed.

Lemma sort_ordered xs : StronglySorted Qle (Py.sort xs).
Proof. apply sort_from_ordered. constructor. Qed.

(** ** FlowCompletionTracker *)

Section FlowCompletionTrackerFacts.
Import FlowCompletionTracker.

Lemma index_returns {A} (xs : list A) i :
  (0 <= i < Z.of_nat (length xs))%Z ->
  exists x, index xs i = Ok x /\ xs !! Z.to_nat i = Some x.
Proof.
  intros Hi. unfold index.
  destruct (xs !! Z.to_nat i) as [x|] eqn:Hx; [eauto|].
  apply lookup_ge_None in Hx. lia.
Qed.

(** [int(n * (a/b))] is [floor(n * a / b)], an index below [n]. *)
Lemma percentile_index (n : nat) (a b : positive) :
  (0 < n)%nat -> (a < b)%positive ->
  int (inject_Z (Z.of_nat n) * (Z.pos a # b))%Q =
    Qfloor (inject_Z (Z.of_nat n) * (Z.pos a # b))%Q /\
  (0 <= Qfloor (inject_Z (Z.of_nat n) * (Z.pos a # b))%Q < Z.of_nat n)%Z.
Proof.
  intros Hn Hab. unfold int, Qfloor. simpl.
  rewrite Z.quot_div_nonneg by lia. split; [done|]. split.
  - apply Z.div_pos; lia.
  - apply Z.div_lt_upper_bound; nia.
Qed.

Lemma percentile_returns fcts (a b : positive) :
  fcts <> [] -> (a < b)%positive ->
  exists v,
    percentile fcts (Z.pos a # b) = Ok v /\
    fcts !! Z.to_nat (Qfloor (inject_Z (Z.of_nat (length fcts)) * (Z.pos a # b))%Q) = Some v.
Proof.
  intros Hne Hab. unfold percentile.
  assert (0 < length fcts)%nat as Hn by (destruct fcts; [done | simpl; lia]).
  destruct (Nat.ltb_spec 0 (length fcts)) as [_|]; [|lia].
  destruct (percentile_index (length fcts) a b Hn Hab) as [-> Hrange].
  by apply index_returns.
Qed.

Lemma stats_returned self :
  completed_flows self <> [] ->
  exists st,
    get_fct_stats self = Ok (Some st) /\
    let fcts := Py.sort (map fct (completed_flows self)) in
    let n := length fcts in
    count st = n /\
    fcts !! (n / 2)%nat = Some (median st) /\
    fcts !! Z.to_nat (Qfloor (inject_Z (Z.of_nat n) * (95 # 100))%Q) = Some (p95 st) /\
    fcts !! Z.to_nat (Qfloor (inject_Z (Z.of_nat n) * (99 # 100))%Q) = Some (p99 st).
Proof.
  intros Hne. unfold get_fct_stats.
  destruct (completed_flows self) as [|f0 done_flows] eqn:Hflows; [done|].
  rewrite <- Hflows. clear Hne.
  set (fcts := Py.sort (map fct (completed_flows self))).
  assert (length fcts = S (length done_flows)) as Hlen.
  { unfold fcts. rewrite (Permutation_length (sort_perm _)), length_map, Hflows. done. }
  assert (fcts <> []) as Hfcts by (intros E; by rewrite E in Hlen).
  rewrite div_returns; [|rewrite Hlen; discriminate]. cbn [bind].
  destruct (index_returns fcts (Z.of_nat (length fcts) / 2)) as (med & -> & Hmed).
  { split; [apply Z.div_pos; lia | apply Z.div_lt_upper_bound; lia]. }
  cbn [bind].
  destruct (percentile_returns fcts 95 100 Hfcts) as (v95 & -> & H95); [done|].
  destruct (percentile_returns fcts 99 100 Hfcts) as (v99 & -> & H99); [done|].
  cbn [bind]. destruct fcts as [|x fcts'] eqn:Efcts; [done|]. cbn [Py.max Py.min min_key bind].
  eexists. split; [done|]. cbn [count median p95 p99].
  split; [done|]. split; [|done].
  rewrite <- Hmed. f_equal. rewrite <- (Nat2Z.id (_ / 2)%nat), Nat2Z.inj_div. done.
Qed.

(** C6 (amended). FCT percentile selection: over the sorted completion times
    of the closed flow records, [get_fct_stats] takes the median at index
    [n // 2] and p95, p99 at index [floor(n * 0.95)], [floor(n * 0.99)]; with
    no closed record it returns the empty result.  For completion times of
    1 to 10 seconds it returns p95 = 10 (index 9), p99 = 10 (index 9) and
    median = 6, the item at index [10 // 2 = 5]. *)
Theorem fct_percentile_selection :
  (forall self,
      completed_flows self <> [] ->
      exists st sorted,
        get_fct_stats self = Ok (Some st) /\
        sorted ≡ₚ map fct (completed_flows self) /\
        StronglySorted Qle sorted /\
        let n := length sorted in
        count st = n /\
        sorted !! (n / 2)%nat = Some (median st) /\
        sorted !! Z.to_nat (Qfloor (inject_Z (Z.of_nat n) * (95 # 100))%Q) = Some (p95 st) /\
        sorted !! Z.to_nat (Qfloor (inject_Z (Z.of_nat n) * (99 # 100))%Q) = Some (p99 st)) /\
  get_fct_stats init = Ok None /\
  (exists st,
      get_fct_stats ten_flows = Ok (Some st) /\
      (p95 st == 10)%Q /\ (p99 st == 10)%Q /\ (median st == 6)%Q).
Proof.
  split; [|split].
  - intros self Hne. destruct (stats_returned self Hne) as (st & Hrun & Hst).
    exists st, (Py.sort (map fct (completed_flows self))).
    split; [done|]. split; [apply sort_perm|]. split; [apply sort_ordered|]. exact Hst.
  - reflexivity.
  - eexists. split; [vm_compute; reflexivity|]. by vm_compute.
Qed.

Lemma fct_percentile_selection_witness :
  exists st sorted,
    get_fct_stats ten_flows = Ok (Some st) /\
    sorted ≡ₚ map fct (completed_flows ten_flows) /\
    sorted !! 5%nat = Some (median st).
Proof.
  destruct (proj1 fct_percentile_selection ten_flows)
    as (st & sorted & Hrun & Hperm & _ & Hcount & Hmedian & _); [discriminate|].
  exists st, sorted. split; [exact Hrun|]. split; [exact Hperm|].
  replace 5%nat with (length sorted / 2)%nat; [exact Hmedian|].
  rewrite <- Hcount. vm_compute in Hrun. by injection Hrun as <-.
Defined.

(** C6, as stated, fails on its own example: the median reported for the
    completion times 1 to 10 is 6, not 5. *)
Lemma fct_median_counterexample :
  exists st,
    get_fct_stats ten_flows = Ok (Some st) /\
    (median st == 6)%Q /\ ~ (median st == 5)%Q.
Proof.
  eexists. split; [vm_compute; reflexivity|]. by vm_compute.
Qed.

End FlowCompletionTrackerFacts.

(** ** ResultsAnalyzer *)

Section ResultsAnalyzerFacts.
Import ResultsAnalyzer.
Local Open Scope R_scope.

Lemma four_links_means m1 m2 m3 m4 :
  exists u,
    analyze_utilization (four_links m1 m2 m3 m4) = Some u /\
    avg_mean_util u = (m1 + m2 + m3 + m4) / 4 /\
    balance_score u =
      over_positive (np.mean [m1; m2; m3; m4])
        (1 - np.std [m1; m2; m3; m4] / np.mean [m1; m2; m3; m4]).
Proof.
  eexists. split; [reflexivity|]. split; [|reflexivity].
  simpl. unfold np.mean. simpl. field.
Qed.

Lemma mean_of_equal m : np.mean [m; m; m; m] = m.
Proof. unfold np.mean. simpl. field. Qed.

Lemma std_of_equal m : np.std [m; m; m; m] = 0.
Proof.
  unfold np.std. rewrite mean_of_equal. simpl.
  replace (np.mean _) with 0; [apply sqrt_0|].
  unfold np.mean, Rsqr. simpl. field.
Qed.

(** C7 (amended). Balance score: over the per-link mean utilizations of a
    non-empty [link_utilization], [analyze_utilization] computes
    [balance_score = 1 - stddev / mean] when the mean is positive, and 0
    whenever the mean is not positive (0, or negative).  Four links with mean
    utilizations [10, 10, 10, 10] have balance score 1, and links
    [0, 0, 0, 0] have balance score 0. *)
Theorem balance_score_guarded :
  (forall self m,
      monitoring self = Some m ->
      link_utilization m <> [] ->
      exists u,
        analyze_utilization self = Some u /\
        let mean_utils := map (fun kv => link_mean (snd kv)) (link_utilization m) in
        (0 < np.mean mean_utils ->
         balance_score u = 1 - np.std mean_utils / np.mean mean_utils) /\
        (np.mean mean_utils <= 0 -> balance_score u = 0)) /\
  (exists u, analyze_utilization (four_links 10 10 10 10) = Some u /\ balance_score u = 1) /\
  (exists u, analyze_utilization (four_links 0 0 0 0) = Some u /\ balance_score u = 0).
Proof.
  split; [|split].
  - intros self m Hm Hne. unfold analyze_utilization. rewrite Hm.
    destruct (link_utilization m) as [|kv link_util] eqn:Hlinks; [done|].
    eexists. split; [reflexivity|]. cbn [balance_score].
    destruct (Rlt_dec 0 _) as [Hpos|Hneg]; split; intros Hmean; try done; lra.
  - destruct (four_links_means 10 10 10 10) as (u & Hu & _ & Hscore).
    exists u. split; [done|]. rewrite Hscore, mean_of_equal, std_of_equal.
    unfold over_positive. destruct (Rlt_dec 0 10); lra.
  - destruct (four_links_means 0 0 0 0) as (u & Hu & _ & Hscore).
    exists u. split; [done|]. rewrite Hscore, mean_of_equal.
    unfold over_positive. destruct (Rlt_dec 0 0); lra.
Qed.

Lemma balance_score_guarded_witness :
  exists u,
    analyze_utilization (four_links 10 10 10 10) = Some u /\
    balance_score u = 1 - np.std [10; 10; 10; 10] / np.mean [10; 10; 10; 10].
Proof.
  destruct (proj1 balance_score_guarded (four_links 10 10 10 10)
              (mk_monitoring
                 [("leaf1:5", mk_link 10 10 10 1); ("leaf1:6", mk_link 10 10 10 1);
                  ("leaf2:5", mk_link 10 10 10 1); ("leaf2:6", mk_link 10 10 10 1)] []))
    as (u & Hu & Hpos & _); [reflexivity | discriminate |].
  exists u. split; [exact Hu|]. apply Hpos.
  simpl. rewrite mean_of_equal. lra.
Defined.

(** C7, as stated, fails where the mean is negative: four links of mean
    utilization -10 have standard deviation 0, so the formula gives 1, and
    the code returns 0. *)
Lemma negative_mean_counterexample :
  exists u,
    analyze_utilization (four_links (-10) (-10) (-10) (-10)) = Some u /\
    np.mean [-10; -10; -10; -10] = -10 /\
    1 - np.std [-10; -10; -10; -10] / np.mean [-10; -10; -10; -10] = 1 /\
    balance_score u = 0.
Proof.
  destruct (four_links_means (-10) (-10) (-10) (-10)) as (u & Hu & _ & Hscore).
  exists u. split; [done|]. rewrite Hscore, mean_of_equal, std_of_equal.
  split; [done|]. split; [field|].
  unfold over_positive. destruct (Rlt_dec 0 (-10)); lra.
Qed.

End ResultsAnalyzerFacts.

(** ** ComparisonAnalyzer *)

Section ComparisonAnalyzerFacts.
Import ResultsAnalyzer ComparisonAnalyzer.
Local Open Scope R_scope.

(** A guarded percentage never divides by zero. *)
Lemma guarded_division (baseline difference : R) :
  (if Rlt_dec 0 baseline then
     bind (div difference baseline) (fun ratio => Ok (ratio * 100))
   else Ok 0) =
  Ok (over_positive baseline (difference / baseline * 100)).
Proof.
  unfold over_positive, div. destruct (Rlt_dec 0 baseline) as [Hpos|]; [|done].
  destruct (Req_dec_T baseline 0) as [Hzero|]; [lra | done].
Qed.

Lemma compare_returns ecmp_value adaptive_value (difference : R -> R -> R) :
  compare ecmp_value adaptive_value
    (fun e a =>
       if Rlt_dec 0 e then bind (div (difference e a) e) (fun ratio => Ok (ratio * 100))
       else Ok 0) =
  Ok (match ecmp_value, adaptive_value with
      | Some e, Some a => Some (mk_entry e a (over_positive e (difference e a / e * 100)))
      | _, _ => None
      end).
Proof.
  destruct ecmp_value as [e|], adaptive_value as [a|]; simpl; try done.
  by rewrite guarded_division.
Qed.

(** What [compare_metrics] returns. *)
Lemma compare_metrics_value (ecmp_summary adaptive_summary : summary) :
  compare_metrics ecmp_summary adaptive_summary =
  Ok (mk_comparison
        (match mean_mbps <$> throughput ecmp_summary,
               mean_mbps <$> throughput adaptive_summary with
         | Some e, Some a => Some (mk_entry e a (over_positive e ((a - e) / e * 100)))
         | _, _ => None
         end)
        (match balance_score <$> utilization ecmp_summary,
               balance_score <$> utilization adaptive_summary with
         | Some e, Some a => Some (mk_entry e a (over_positive e ((a - e) / e * 100)))
         | _, _ => None
         end)
        (match total_drops <$> drops ecmp_summary,
               total_drops <$> drops adaptive_summary with
         | Some e, Some a => Some (mk_entry e a (over_positive e ((e - a) / e * 100)))
         | _, _ => None
         end)
        (match throughput ecmp_summary ≫= fct_p99,
               throughput adaptive_summary ≫= fct_p99 with
         | Some e, Some a => Some (mk_entry e a (over_positive e ((e - a) / e * 100)))
         | _, _ => None
         end)).
Proof.
  unfold compare_metrics.
  rewrite (compare_returns _ _ (fun e a => a - e)). cbn [bind].
  rewrite (compare_returns _ _ (fun e a => a - e)). cbn [bind].
  rewrite (compare_returns _ _ (fun e a => e - a)). cbn [bind].
  by rewrite (compare_returns _ _ (fun e a => e - a)).
Qed.

(** C8 (amended). The zero-division guard in comparisons: [compare_metrics]
    always returns.  The throughput and balance improvements are
    [(adaptive - ecmp) / ecmp * 100]; the drop reduction and the p99
    tail-latency improvement are [(ecmp - adaptive) / ecmp * 100]; each is 0
    whenever the ECMP baseline is not positive.  In particular a baseline of
    0 total drops gives a reduction of 0 for any adaptive drop count. *)
Theorem comparisons_guarded (ecmp_summary adaptive_summary : summary) :
  exists c,
    compare_metrics ecmp_summary adaptive_summary = Ok c /\
    (forall e a,
        throughput ecmp_summary = Some e -> throughput adaptive_summary = Some a ->
        cmp_throughput c =
          Some (mk_entry (mean_mbps e) (mean_mbps a)
                  (over_positive (mean_mbps e)
                     ((mean_mbps a - mean_mbps e) / mean_mbps e * 100)))) /\
    (forall e a,
        utilization ecmp_summary = Some e -> utilization adaptive_summary = Some a ->
        cmp_balance c =
          Some (mk_entry (balance_score e) (balance_score a)
                  (over_positive (balance_score e)
                     ((balance_score a - balance_score e) / balance_score e * 100)))) /\
    (forall e a,
        drops ecmp_summary = Some e -> drops adaptive_summary = Some a ->
        cmp_drops c =
          Some (mk_entry (total_drops e) (total_drops a)
                  (over_positive (total_drops e)
                     ((total_drops e - total_drops a) / total_drops e * 100)))) /\
    (forall e a p q,
        throughput ecmp_summary = Some e -> throughput adaptive_summary = Some a ->
        fct_p99 e = Some p -> fct_p99 a = Some q ->
        cmp_tail_latency c =
          Some (mk_entry p q (over_positive p ((p - q) / p * 100)))) /\
    (forall e a,
        drops ecmp_summary = Some e -> drops adaptive_summary = Some a ->
        total_drops e = 0 ->
        cmp_drops c = Some (mk_entry 0 (total_drops a) 0)).
Proof.
  rewrite compare_metrics_value. eexists. split; [reflexivity|].
  cbn [cmp_throughput cmp_balance cmp_drops cmp_tail_latency].
  repeat split.
  - by intros e a -> ->.
  - by intros e a -> ->.
  - by intros e a -> ->.
  - intros e a p q -> -> Hp Hq. simpl. by rewrite Hp, Hq.
  - intros e a -> -> Hzero. simpl. rewrite Hzero. unfold over_positive.
    destruct (Rlt_dec 0 0); [lra | done].
Qed.

Lemma comparisons_guarded_witness :
  exists c,
    compare_metrics (summary_with_drops 0) (summary_with_drops 7) = Ok c /\
    cmp_drops c = Some (mk_entry 0 7 0).
Proof.
  destruct (comparisons_guarded (summary_with_drops 0) (summary_with_drops 7))
    as (c & Hc & _ & _ & _ & _ & Hzero).
  exists c. split; [exact Hc|].
  apply (Hzero (mk_drops 0 1 0) (mk_drops 7 1 7)); reflexivity.
Defined.

(** C8, as stated, fails in two ways.  The drop reduction is
    [(old - new) / old * 100], not [(new - old) / old * 100]: 10 drops
    against 5 give 50, not -50.  And the result is 0 for any baseline that
    is not positive, not only for 0: a balance score of -1/2 against 1/2
    gives 0, where [(new - old) / old * 100] is -200. *)
Lemma uniform_rule_counterexample :
  (exists c,
      compare_metrics (summary_with_drops 10) (summary_with_drops 5) = Ok c /\
      cmp_drops c = Some (mk_entry 10 5 50) /\
      (5 - 10) / 10 * 100 = -50 /\ -50 < 50) /\
  (exists c,
      compare_metrics (summary_with_balance (-1 / 2)) (summary_with_balance (1 / 2)) = Ok c /\
      cmp_balance c = Some (mk_entry (-1 / 2) (1 / 2) 0) /\
      (1 / 2 - -1 / 2) / (-1 / 2) * 100 = -200 /\ -200 < 0).
Proof.
  split; rewrite compare_metrics_value; eexists; (split; [reflexivity|]);
    cbn; unfold over_positive.
  - destruct (Rlt_dec 0 10); [|lra].
    split; [do 2 f_equal; field|]. split; [field | lra].
  - destruct (Rlt_dec 0 (-1 / 2)); [lra|].
    split; [done|]. split; [field | lra].
Qed.

End ComparisonAnalyzerFacts.

(** ** Names and numbers *)

Lemma int_of_str_str n : int_of_str (str n) = Ok n.
Proof.
  unfold int_of_str, str.
  pose proof (DecimalNat.Unsigned.of_to n) as Hn.
  destruct (Nat.to_uint n) as [|d|d|d|d|d|d|d|d|d|d] eqn:Hd;
    [by rewrite <- Hn | rewrite NilZero.usu by done; by rewrite Hn ..].
Qed.

Lemma str_inj n m : str n = str m -> n = m.
Proof.
  intros Heq. pose proof (int_of_str_str n) as Hn.
  rewrite Heq, int_of_str_str in Hn. by injection Hn.
Qed.

(** A number is written with digits only: what follows the first dot is
    not part of it. *)
Lemma digits_then_dot d1 d2 rest1 rest2 :
  NilEmpty.string_of_uint d1 +:+ String "." rest1 =
  NilEmpty.string_of_uint d2 +:+ String "." rest2 ->
  d1 = d2 /\ rest1 = rest2.
Proof.
  revert d2. induction d1 as [|d1 IH|d1 IH|d1 IH|d1 IH|d1 IH|d1 IH|d1 IH|d1 IH|d1 IH|d1 IH];
    intros [|d2|d2|d2|d2|d2|d2|d2|d2|d2|d2]; simpl; intros [= Heq]; try done;
    destruct (IH _ Heq) as [-> ->]; done.
Qed.

Lemma str_then_dot n m rest1 rest2 :
  str n +:+ String "." rest1 = str m +:+ String "." rest2 ->
  n = m /\ rest1 = rest2.
Proof.
  unfold str, NilZero.string_of_uint. intros Heq.
  assert (forall d, match d with
                    | Decimal.Nil => "0"
                    | _ => NilEmpty.string_of_uint d
                    end = NilEmpty.string_of_uint (match d with
                                                   | Decimal.Nil => Decimal.D0 Decimal.Nil
                                                   | _ => d
                                                   end)) as Hnorm
    by (by intros []).
  rewrite !Hnorm in Heq. apply digits_then_dot in Heq as [Hd ->]. split; [|done].
  apply str_inj. unfold str, NilZero.string_of_uint. by rewrite !Hnorm, Hd.
Qed.

Section Names.
Import ECMPRouter.

Lemma leaf_name_inj i j : leaf_name i = leaf_name j -> i = j.
Proof.
  unfold leaf_name. simpl. intros [= Heq]. apply str_inj in Heq. lia.
Qed.

Lemma spine_name_inj i j : spine_name i = spine_name j -> i = j.
Proof.
  unfold spine_name. simpl. intros [= Heq]. apply str_inj in Heq. lia.
Qed.

Lemma leaf_not_spine i j : leaf_name i <> spine_name j.
Proof. unfold leaf_name, spine_name. simpl. discriminate. Qed.

Lemma host_ip_inj l h l' h' : host_ip l h = host_ip l' h' -> l = l' /\ h = h'.
Proof.
  unfold host_ip. simpl. intros [= Heq].
  apply str_then_dot in Heq as [-> Heq]. split; [done|]. by apply str_inj.
Qed.

End Names.

(** ** ECMPRouter *)

Lemma dict_set_fresh {K V} `{EqDecision K} (d : dict K V) k v :
  k ∉ dict_keys d -> dict_set d k v = d ++ [(k, v)].
Proof.
  unfold dict_keys. induction d as [|[k' v'] d IH]; simpl; [done|].
  intros Hk. apply not_elem_of_cons in Hk as [Hne Hk].
  rewrite decide_False by done. by rewrite IH.
Qed.

Section ECMPRouterFacts.
Import Mininet ECMPRouter.
Implicit Types (rt : dict string (list rule)) (sw : string) (r : rule).

Lemma rules_of_add_eq rt sw r : rules_of (add_rule rt sw r) sw = rules_of rt sw ++ [r].
Proof. unfold rules_of, add_rule. by rewrite dict_get_set_eq. Qed.

Lemma rules_of_add_ne rt sw sw' r :
  sw <> sw' -> rules_of (add_rule rt sw r) sw' = rules_of rt sw'.
Proof. intros Hne. unfold rules_of, add_rule. by rewrite dict_get_set_ne. Qed.

(** A run of [append]s to the rules of one switch. *)
Lemma rules_of_adds_eq {A} (f : A -> rule) xs rt sw :
  rules_of (fold_left (fun rt x => add_rule rt sw (f x)) xs rt) sw =
  rules_of rt sw ++ map f xs.
Proof.
  revert rt. induction xs as [|x xs IH]; intros rt; simpl.
  - by rewrite app_nil_r.
  - rewrite IH, rules_of_add_eq, <- app_assoc. done.
Qed.

Lemma rules_of_adds_ne {A} (f : A -> rule) xs rt sw sw' :
  sw <> sw' ->
  rules_of (fold_left (fun rt x => add_rule rt sw (f x)) xs rt) sw' = rules_of rt sw'.
Proof.
  intros Hne. revert rt. induction xs as [|x xs IH]; intros rt; simpl; [done|].
  by rewrite IH, rules_of_add_ne.
Qed.

Lemma local_rules_loop_eq l H rt :
  rules_of (local_rules_loop (leaf_name l) (l + 1) H rt) (leaf_name l) =
  rules_of rt (leaf_name l) ++ local_rules l H.
Proof. apply rules_of_adds_eq. Qed.

Lemma local_rules_loop_ne leaf leaf_num H rt sw :
  leaf <> sw -> rules_of (local_rules_loop leaf leaf_num H rt) sw = rules_of rt sw.
Proof. apply rules_of_adds_ne. Qed.

Lemma remote_rules_loop_eq l L H port_to_spine rt :
  rules_of (remote_rules_loop (leaf_name l) l L H port_to_spine rt) (leaf_name l) =
  rules_of rt (leaf_name l) ++ remote_rules l L H (map snd port_to_spine).
Proof.
  unfold remote_rules_loop, remote_rules. generalize (seq 0 L) as remotes.
  intros remotes. revert rt. induction remotes as [|remote remotes IH]; intros rt; simpl.
  - by rewrite app_nil_r.
  - rewrite IH. destruct (remote =? l)%nat; [done|].
    by rewrite rules_of_adds_eq, <- app_assoc.
Qed.

Lemma remote_rules_loop_ne leaf l L H port_to_spine rt sw :
  leaf <> sw ->
  rules_of (remote_rules_loop leaf l L H port_to_spine rt) sw = rules_of rt sw.
Proof.
  intros Hne. unfold remote_rules_loop. generalize (seq 0 L) as remotes.
  intros remotes. revert rt. induction remotes as [|remote remotes IH]; intros rt; simpl; [done|].
  rewrite IH. destruct (remote =? l)%nat; [done|]. by rewrite rules_of_adds_ne.
Qed.

Lemma spine_rules_loop_ne spine L H port_to_leaf rt sw :
  spine <> sw ->
  rules_of (spine_rules_loop spine L H port_to_leaf rt) sw = rules_of rt sw.
Proof.
  intros Hne. unfold spine_rules_loop. generalize (seq 0 L) as leaves.
  intros leaves. revert rt. induction leaves as [|l leaves IH]; intros rt; simpl; [done|].
  rewrite IH. destruct (dict_get port_to_leaf (l + 1)); [|done].
  by rewrite rules_of_adds_ne.
Qed.

Lemma port_to_spine_skip leaf (d : dict string nat) i :
  faces "spine" i = false -> port_to_spine_body leaf d i = Ok d.
Proof.
  unfold faces, port_to_spine_body. destruct (intf_peer i); [|done]. by intros ->.
Qed.

Lemma port_to_spine_take leaf (d : dict string nat) i :
  faces "spine" i = true ->
  exists peer,
    intf_peer i = Some peer /\
    port_to_spine_body leaf d i = bind (port_num leaf i) (fun p => Ok (dict_set d peer p)).
Proof.
  unfold faces, port_to_spine_body. destruct (intf_peer i) as [peer|]; [|done].
  intros ->. eauto.
Qed.

(** The loop filling [port_to_spine], when the spines facing the leaf are
    all different: one entry per interface that faces a spine, in the order
    of the interfaces. *)
Lemma port_to_spine_loop leaf intfs (d0 : dict string nat) :
  Forall (fun i => returns (port_num leaf i)) (List.filter (faces "spine") intfs) ->
  NoDup (map Some (dict_keys d0) ++ map intf_peer (List.filter (faces "spine") intfs)) ->
  exists entries,
    for_each (port_to_spine_body leaf) intfs d0 = Ok (d0 ++ entries) /\
    Forall2 (fun i kv => intf_peer i = Some kv.1 /\ port_num leaf i = Ok kv.2)
      (List.filter (faces "spine") intfs) entries.
Proof.
  revert d0. induction intfs as [|i intfs IH]; intros d0 Hports Hnodup; simpl.
  - exists []. rewrite app_nil_r. split; [done | constructor].
  - simpl in Hports, Hnodup. destruct (faces "spine" i) eqn:Hfaces.
    + destruct (port_to_spine_take leaf d0 i Hfaces) as (peer & Hpeer & ->).
      apply Forall_cons in Hports as [[p Hp] Hports]. rewrite Hp. cbn [bind].
      simpl in Hnodup. rewrite Hpeer in Hnodup.
      assert (peer ∉ dict_keys d0) as Hfresh.
      { intros Hin. apply NoDup_app in Hnodup as (_ & Hdisj & _).
        apply (Hdisj (Some peer)); [by apply list_elem_of_fmap_2 | left]. }
      rewrite dict_set_fresh by done.
      destruct (IH (d0 ++ [(peer, p)])) as (entries & Hrun & Hall); [done| |].
      { unfold dict_keys in *. rewrite map_app, map_app, <- app_assoc. exact Hnodup. }
      exists ((peer, p) :: entries). rewrite Hrun, <- app_assoc. split; [done|].
      by constructor.
    + rewrite port_to_spine_skip by done. cbn [bind]. by apply IH.
Qed.

Lemma port_to_leaf_skip spine (d : dict nat nat) i :
  faces "leaf" i = false -> port_to_leaf_body spine d i = Ok d.
Proof.
  unfold faces, port_to_leaf_body. destruct (intf_peer i); [|done]. by intros ->.
Qed.

Lemma port_to_leaf_take spine (d : dict nat nat) i :
  faces "leaf" i = true ->
  exists peer,
    intf_peer i = Some peer /\
    port_to_leaf_body spine d i =
      bind (port_num spine i) (fun p =>
      bind (int_of_str (remove_all "leaf" peer)) (fun leaf_num =>
      Ok (dict_set d leaf_num p))).
Proof.
  unfold faces, port_to_leaf_body. destruct (intf_peer i) as [peer|]; [|done].
  intros ->. eauto.
Qed.

(** The loop filling [port_to_leaf] returns when the names it reads are
    numbers. *)
Lemma port_to_leaf_loop spine intfs (d0 : dict nat nat) :
  Forall (fun i =>
            returns (port_num spine i) /\
            forall peer, intf_peer i = Some peer ->
                         returns (int_of_str (remove_all "leaf" peer)))
    (List.filter (faces "leaf") intfs) ->
  exists d, for_each (port_to_leaf_body spine) intfs d0 = Ok d.
Proof.
  revert d0. induction intfs as [|i intfs IH]; intros d0 Hnames; simpl; [eauto|].
  simpl in Hnames. destruct (faces "leaf" i) eqn:Hfaces.
  - destruct (port_to_leaf_take spine d0 i Hfaces) as (peer & Hpeer & ->).
    apply Forall_cons in Hnames as [[[p Hp] Hleafnum] Hnames].
    destruct (Hleafnum peer Hpeer) as [leaf_num Hnum].
    rewrite Hp. cbn [bind]. rewrite Hnum. cbn [bind]. by apply IH.
  - rewrite port_to_leaf_skip by done. cbn [bind]. by apply IH.
Qed.

Lemma Forall2_elem_l {A B} (R : A -> B -> Prop) xs ys x :
  Forall2 R xs ys -> x ∈ xs -> exists y, y ∈ ys /\ R x y.
Proof.
  induction 1 as [|x' y' xs ys Hxy _ IH]; [by intros ?%elem_of_nil|].
  intros [->|Hx]%elem_of_cons.
  - exists y'. split; [left | done].
  - destruct (IH Hx) as (y & Hy & HR). exists y. split; [by right | done].
Qed.

Lemma spine_names_nodup S : NoDup (map (fun s => Some (spine_name s)) (seq 0 S)).
Proof.
  apply (NoDup_fmap_2_strong (fun s => Some (spine_name s))); [|apply NoDup_seq].
  intros s s' _ _ Heq. apply spine_name_inj. congruence.
Qed.

Section Build.
Context (n : net) (S L H : nat).
Hypothesis mesh : full_mesh n S L.
Hypothesis readable : spines_readable n S.

(** One round of the loop over the leaves: the rules of the leaf are
    appended to its entry, and no other entry changes. *)
Lemma leaf_round rt l :
  (l < L)%nat ->
  exists rt' intfs ports,
    leaf_body n (mk_info S L H) rt l = Ok rt' /\
    n !! leaf_name l = Some intfs /\
    one_port_per_spine (leaf_name l) intfs S ports /\
    rules_of rt' (leaf_name l) =
      rules_of rt (leaf_name l) ++ local_rules l H ++ remote_rules l L H ports /\
    forall sw, sw <> leaf_name l -> rules_of rt' sw = rules_of rt sw.
Proof.
  intros Hl. destruct (mesh l Hl) as (intfs & Hnode & Hperm & Hports).
  destruct (port_to_spine_loop (leaf_name l) intfs [] Hports) as (entries & Hrun & Hall).
  { simpl. rewrite Hperm. apply spine_names_nodup. }
  simpl in Hrun.
  eexists _, intfs, (map snd entries). split; [|split; [done|split; [|split]]].
  - unfold leaf_body, get. rewrite Hnode. cbn [bind]. rewrite Hrun. cbn [bind]. done.
  - split.
    + rewrite length_map, <- (Forall2_length _ _ _ Hall), <- (length_map intf_peer).
      by rewrite (Permutation_length Hperm), length_map, length_seq.
    + intros s Hs.
      assert (Some (spine_name s) ∈ map intf_peer (List.filter (faces "spine") intfs))
        as Hin.
      { rewrite Hperm. apply (list_elem_of_fmap_2 (fun s => Some (spine_name s))).
        apply elem_of_seq. lia. }
      apply list_elem_of_fmap in Hin as (i & Hpeer & Hi).
      destruct (Forall2_elem_l _ _ _ _ Hall Hi) as ([peer p] & Hkv & Hpeer' & Hp).
      exists i, p. split; [|split; [done|split; [done|]]].
      * apply list_elem_of_In. apply list_elem_of_In, filter_In in Hi. tauto.
      * by apply (list_elem_of_fmap_2 snd _ (peer, p)).
  - cbn [num_leaves hosts_per_leaf].
    by rewrite remote_rules_loop_eq, local_rules_loop_eq, <- app_assoc.
  - intros sw Hsw. cbn [num_leaves hosts_per_leaf].
    by rewrite remote_rules_loop_ne, local_rules_loop_ne.
Qed.

(** The loop over the leaves. *)
Lemma leaf_rounds leaves rt :
  NoDup leaves ->
  (forall l, l ∈ leaves -> (l < L)%nat) ->
  exists rt',
    for_each (leaf_body n (mk_info S L H)) leaves rt = Ok rt' /\
    (forall sw, (forall l, l ∈ leaves -> sw <> leaf_name l) ->
                rules_of rt' sw = rules_of rt sw) /\
    (forall l, l ∈ leaves ->
       exists intfs ports,
         n !! leaf_name l = Some intfs /\
         one_port_per_spine (leaf_name l) intfs S ports /\
         rules_of rt' (leaf_name l) =
           rules_of rt (leaf_name l) ++ local_rules l H ++ remote_rules l L H ports).
Proof.
  revert rt. induction leaves as [|l leaves IH]; intros rt Hnodup Hbound; simpl.
  - exists rt. split; [done|]. split; [done|]. by intros l ?%elem_of_nil.
  - apply NoDup_cons in Hnodup as [Hl Hnodup].
    destruct (leaf_round rt l) as (rt1 & intfs & ports & -> & Hnode & Hcover & Hown & Hothers).
    { apply Hbound. left. }
    cbn [bind].
    destruct (IH rt1 Hnodup) as (rt' & Hrun & Hframe & Hdone).
    { intros l' Hl'. apply Hbound. by right. }
    exists rt'. split; [done|]. split.
    + intros sw Hsw. rewrite Hframe, Hothers; [done| |].
      * apply Hsw. left.
      * intros l' Hl'. apply Hsw. by right.
    + intros l' [->|Hl']%elem_of_cons.
      * exists intfs, ports. split; [done|]. split; [done|].
        rewrite Hframe, Hown; [done|].
        intros l' Hl' Heq. apply leaf_name_inj in Heq. by subst.
      * destruct (Hdone l' Hl') as (intfs' & ports' & Hnode' & Hcover' & Hown').
        exists intfs', ports'. split; [done|]. split; [done|].
        rewrite Hown', Hothers; [done|].
        intros Heq. apply leaf_name_inj in Heq. by subst.
Qed.

(** The loop over the spines returns, and leaves the entries of the leaves
    as they are. *)
Lemma spine_rounds spines rt :
  (forall spine, spine ∈ spines -> exists s, (s < S)%nat /\ spine = spine_name s) ->
  exists rt',
    for_each (spine_body n (mk_info S L H)) spines rt = Ok rt' /\
    forall l, rules_of rt' (leaf_name l) = rules_of rt (leaf_name l).
Proof.
  revert rt. induction spines as [|spine spines IH]; intros rt Hspines; simpl; [eauto|].
  destruct (Hspines spine) as (s & Hs & ->); [left|].
  destruct (readable s Hs) as (intfs & Hnode & Hnames).
  destruct (port_to_leaf_loop (spine_name s) intfs [] Hnames) as (port_to_leaf & Hrun).
  unfold spine_body at 1, get. rewrite Hnode. cbn [bind]. rewrite Hrun. cbn [bind].
  destruct (IH (spine_rules_loop (spine_name s) L H
                  port_to_leaf rt)) as (rt' & Hrest & Hframe).
  { intros spine Hspine. apply Hspines. by right. }
  exists rt'. split; [done|]. intros l. rewrite Hframe.
  apply spine_rules_loop_ne. intros Heq. by apply (leaf_not_spine l s).
Qed.

(** The table that is built: for every leaf, its local rules followed by its
    remote rules. *)
Lemma table_built :
  exists table,
    build_routing_table n (mk_info S L H) = Ok table /\
    forall l, (l < L)%nat ->
      exists intfs ports,
        n !! leaf_name l = Some intfs /\
        one_port_per_spine (leaf_name l) intfs S ports /\
        rules_of table (leaf_name l) = local_rules l H ++ remote_rules l L H ports.
Proof.
  unfold build_routing_table. cbn [num_leaves num_spines].
  destruct (leaf_rounds (seq 0 L) []) as (rt & -> & _ & Hleaves).
  { apply NoDup_seq. }
  { intros l Hl%elem_of_seq. lia. }
  cbn [bind].
  destruct (spine_rounds (map spine_name (seq 0 S)) rt) as (table & -> & Hframe).
  { intros spine (s & -> & Hs%elem_of_seq)%list_elem_of_fmap. exists s. split; [lia | done]. }
  exists table. split; [done|]. intros l Hl.
  destruct (Hleaves l) as (intfs & ports & Hnode & Hcover & Hrules).
  { apply elem_of_seq. lia. }
  exists intfs, ports. split; [done|]. split; [done|]. by rewrite Hframe, Hrules.
Qed.

End Build.

Lemma local_rules_elem l H r :
  r ∈ local_rules l H <->
  exists h, (h < H)%nat /\ r = mk_rule (host_ip (l + 1) (h + 1)) [h + 1].
Proof.
  unfold local_rules. rewrite list_elem_of_fmap. split.
  - intros (h & -> & Hh%elem_of_seq). exists h. split; [lia | done].
  - intros (h & Hh & ->). exists h. split; [done|]. apply elem_of_seq. lia.
Qed.

Lemma remote_rules_elem l L H ports r :
  r ∈ remote_rules l L H ports <->
  exists d h, (d < L)%nat /\ d <> l /\ (h < H)%nat /\
              r = mk_rule (host_ip (d + 1) (h + 1)) ports.
Proof.
  unfold remote_rules. rewrite list_elem_of_In, in_flat_map. split.
  - intros (d & Hd%in_seq & Hr). destruct (Nat.eqb_spec d l) as [->|Hne]; [done|].
    apply list_elem_of_In, list_elem_of_fmap in Hr as (h & -> & Hh%elem_of_seq).
    exists d, h. repeat split; [lia | done | lia].
  - intros (d & h & Hd & Hne & Hh & ->). exists d. split; [apply in_seq; lia|].
    destruct (Nat.eqb_spec d l) as [->|_]; [done|].
    apply list_elem_of_In, list_elem_of_fmap. exists h. split; [done|].
    apply elem_of_seq. lia.
Qed.

(** C9. ECMP completeness: in a leaf-spine network with [S] spines, [L]
    leaves and [H] hosts per leaf where every leaf has one port to each
    spine, [build_routing_table] returns a table in which every leaf has an
    entry for every host; the entry of a leaf for a host attached to it lists
    exactly one port, the port of the host, and its entry for a host of
    another leaf lists exactly [S] ports, one per spine. *)
Theorem ecmp_completeness (n : net) (S L H : nat) :
  full_mesh n S L ->
  spines_readable n S ->
  exists table,
    build_routing_table n (mk_info S L H) = Ok table /\
    forall l, (l < L)%nat ->
      exists intfs,
        n !! leaf_name l = Some intfs /\
        forall d h, (d < L)%nat -> (h < H)%nat ->
          (exists r, r ∈ rules_of table (leaf_name l) /\
                     dst_ip r = host_ip (d + 1) (h + 1)) /\
          (forall r,
              r ∈ rules_of table (leaf_name l) ->
              dst_ip r = host_ip (d + 1) (h + 1) ->
              if decide (d = l) then out_ports r = [h + 1]
              else one_port_per_spine (leaf_name l) intfs S (out_ports r)).
Proof.
  intros Hmesh Hreadable.
  destruct (table_built n S L H Hmesh Hreadable) as (table & Hrun & Hleaves).
  exists table. split; [done|]. intros l Hl.
  destruct (Hleaves l Hl) as (intfs & ports & Hnode & Hcover & Hrules).
  exists intfs. split; [done|]. intros d h Hd Hh. rewrite Hrules. split.
  - destruct (decide (d = l)) as [->|Hne].
    + exists (mk_rule (host_ip (l + 1) (h + 1)) [h + 1]). split; [|done].
      apply elem_of_app. left. apply local_rules_elem. eauto.
    + exists (mk_rule (host_ip (d + 1) (h + 1)) ports). split; [|done].
      apply elem_of_app. right. apply remote_rules_elem. exists d, h. eauto.
  - intros r [Hr|Hr]%elem_of_app Hdst.
    + apply local_rules_elem in Hr as (h' & Hh' & ->). simpl in Hdst.
      apply host_ip_inj in Hdst as [Hd' Hh'']. simpl.
      rewrite decide_True by lia. do 2 f_equal. lia.
    + apply remote_rules_elem in Hr as (d' & h' & Hd' & Hne & Hh' & ->). simpl in Hdst.
      apply host_ip_inj in Hdst as [Hd'' Hh'']. simpl.
      rewrite decide_False by lia. done.
Qed.

Lemma ecmp_completeness_witness :
  exists table,
    build_routing_table (leaf_spine_net 2 2 2) (mk_info 2 2 2) = Ok table /\
    (exists r, r ∈ rules_of table "leaf1" /\ dst_ip r = "10.0.2.1") /\
    forall r,
      r ∈ rules_of table "leaf1" ->
      (dst_ip r = "10.0.2.1" -> length (out_ports r) = 2%nat) /\
      (dst_ip r = "10.0.1.2" -> out_ports r = [2]).
Proof.
  destruct (ecmp_completeness (leaf_spine_net 2 2 2) 2 2 2) as (table & Hrun & Hleaves).
  - intros [|[|l]] Hl; [| |lia]; eexists; (split; [vm_compute; reflexivity|]);
      (split; [reflexivity|]); repeat constructor; by eexists.
  - intros [|[|s]] Hs; [| |lia]; eexists; (split; [vm_compute; reflexivity|]);
      repeat constructor; try (by eexists); intros peer [= <-]; by eexists.
  - exists table. split; [exact Hrun|].
    destruct (Hleaves 0%nat) as (intfs & _ & Hrules); [lia|].
    destruct (Hrules 1%nat 0%nat) as [Hentry Hremote]; [lia..|].
    destruct (Hrules 0%nat 1%nat) as [_ Hlocal]; [lia..|].
    split; [exact Hentry|]. intros r Hr. split; intros Hdst.
    + apply (Hremote r Hr Hdst).
    + apply (Hlocal r Hr Hdst).
Defined.

End ECMPRouterFacts.

(** ** The network of LeafSpineTopo *)

Lemma append_nil (t : string) : "" +:+ t = t.
Proof. reflexivity. Qed.

Lemma append_cons c (s t : string) : String c s +:+ t = String c (s +:+ t).
Proof. reflexivity. Qed.

Lemma append_assoc (s1 s2 s3 : string) : (s1 +:+ s2) +:+ s3 = s1 +:+ (s2 +:+ s3).
Proof.
  induction s1 as [|c s1 IH]; [done|]. by rewrite !append_cons, IH.
Qed.

Lemma prefix_append (s t : string) : String.prefix s (s +:+ t) = true.
Proof.
  induction s as [|c s IH]; [rewrite append_nil; by destruct t|].
  rewrite append_cons. simpl. by destruct (ascii_dec c c).
Qed.

Lemma contains_prefix (sub t : string) : contains sub (sub +:+ t) = true.
Proof.
  pose proof (prefix_append sub t) as Hprefix.
  destruct (sub +:+ t); simpl in *; by rewrite Hprefix.
Qed.

Lemma str_digits n : exists d, str n = NilEmpty.string_of_uint d.
Proof.
  unfold str, NilZero.string_of_uint.
  destruct (Nat.to_uint n) eqn:Hd; eauto. by exists (Decimal.D0 Decimal.Nil).
Qed.

Lemma remove_skip old (o t : string) :
  remove_from old (String.length o) (o +:+ t) = remove_from old 0 t.
Proof.
  induction o as [|c o IH]; [by rewrite append_nil | by rewrite append_cons].
Qed.

Lemma remove_prefix c old (t : string) :
  remove_all (String c old) (String c old +:+ t) = remove_all (String c old) t.
Proof.
  unfold remove_all. pose proof (prefix_append (String c old) t) as Hprefix.
  rewrite append_cons in *. cbn [remove_from]. rewrite Hprefix.
  replace (String.length (String c old) - 1)%nat with (String.length old)
    by (simpl; lia).
  apply remove_skip.
Qed.

Lemma remove_digits c old d :
  initial c ->
  remove_all (String c old) (NilEmpty.string_of_uint d) = NilEmpty.string_of_uint d.
Proof.
  unfold remove_all. intros [-> | ->]; induction d; simpl; by rewrite ?IHd.
Qed.

Lemma contains_digits c sub d :
  initial c -> contains (String c sub) (NilEmpty.string_of_uint d) = false.
Proof. intros [-> | ->]; induction d; simpl; by rewrite ?IHd. Qed.

Section LeafSpineTopo.
Import Mininet ECMPRouter.

(** The name [<switch>-eth<p>] reads as port [p] of the switch. *)
Lemma port_num_eth c sw p peer :
  initial c ->
  port_num (String c sw) (mk_intf (String c sw +:+ "-eth" +:+ str p) peer) = Ok p.
Proof.
  intros Hc. unfold port_num. cbn [intf_name].
  rewrite <- append_assoc, (append_cons c sw "-eth"), remove_prefix.
  destruct (str_digits p) as [d Hd]. rewrite Hd, remove_digits, <- Hd by done.
  apply int_of_str_str.
Qed.

Lemma leaf_number l : int_of_str (remove_all "leaf" (leaf_name l)) = Ok (l + 1)%nat.
Proof.
  unfold leaf_name. rewrite remove_prefix.
  destruct (str_digits (l + 1)) as [d Hd].
  rewrite Hd, remove_digits, <- Hd by (by left). apply int_of_str_str.
Qed.

Lemma host_not_spine k : contains "spine" ("h" +:+ str k) = false.
Proof.
  destruct (str_digits k) as [d ->]. rewrite append_cons, append_nil.
  cbn [contains String.prefix].
  destruct (ascii_dec "s" "h"); [done|]. apply contains_digits. by right.
Qed.

Lemma spine_is_spine s : contains "spine" (spine_name s) = true.
Proof. apply contains_prefix. Qed.

Lemma leaf_is_leaf l : contains "leaf" (leaf_name l) = true.
Proof. apply contains_prefix. Qed.

Lemma filter_all {A} (f : A -> bool) (xs : list A) :
  (forall x, x ∈ xs -> f x = true) -> List.filter f xs = xs.
Proof.
  induction xs as [|x xs IH]; intros Hall; simpl; [done|].
  rewrite Hall by left. rewrite IH; [done|]. intros y Hy. apply Hall. by right.
Qed.

Lemma filter_none {A} (f : A -> bool) (xs : list A) :
  (forall x, x ∈ xs -> f x = false) -> List.filter f xs = [].
Proof.
  induction xs as [|x xs IH]; intros Hnone; simpl; [done|].
  rewrite Hnone by left. apply IH. intros y Hy. apply Hnone. by right.
Qed.

(** A map filled by a loop of assignments, read at a key. *)
Lemma lookup_filled_other {A V} (key : A -> string) (value : A -> V) xs
    (base : gmap string V) k :
  (forall x, x ∈ xs -> key x <> k) ->
  fold_left (fun m x => <[key x := value x]> m) xs base !! k = base !! k.
Proof.
  revert base. induction xs as [|x xs IH]; intros base Hk; simpl; [done|].
  rewrite IH.
  - apply lookup_insert_ne, Hk. left.
  - intros y Hy. apply Hk. by right.
Qed.

Lemma lookup_filled {A V} `{EqDecision A} (key : A -> string) (value : A -> V) xs
    (base : gmap string V) y :
  (forall x x', key x = key x' -> x = x') ->
  y ∈ xs ->
  fold_left (fun m x => <[key x := value x]> m) xs base !! key y = Some (value y).
Proof.
  intros Hinj. revert base. induction xs as [|x xs IH]; intros base Hy; simpl.
  - by apply elem_of_nil in Hy.
  - destruct (decide (y ∈ xs)) as [Hin|Hout]; [by apply IH|].
    apply elem_of_cons in Hy as [->|?]; [|done].
    rewrite (lookup_filled_other key value); [apply lookup_insert_eq|].
    intros x' Hx' Heq. apply Hinj in Heq. by subst.
Qed.

Lemma leaf_node S L H l :
  (l < L)%nat -> leaf_spine_net S L H !! leaf_name l = Some (leaf_intfs S H l).
Proof.
  intros Hl. unfold leaf_spine_net.
  rewrite (lookup_filled_other spine_name (spine_intfs L)).
  - apply (lookup_filled leaf_name (leaf_intfs S H)); [apply leaf_name_inj|].
    apply elem_of_seq. lia.
  - intros s _ Heq. by apply (leaf_not_spine l s).
Qed.

Lemma spine_node S L H s :
  (s < S)%nat -> leaf_spine_net S L H !! spine_name s = Some (spine_intfs L s).
Proof.
  intros Hs. unfold leaf_spine_net.
  apply (lookup_filled spine_name (spine_intfs L)); [apply spine_name_inj|].
  apply elem_of_seq. lia.
Qed.

Lemma leaf_spine_facing S H l :
  List.filter (faces "spine") (leaf_intfs S H l) =
  map (fun s => mk_intf (leaf_name l +:+ "-eth" +:+ str (H + s + 1)) (Some (spine_name s)))
    (seq 0 S).
Proof.
  unfold leaf_intfs. cbn [List.filter faces lo intf_peer].
  rewrite List.filter_app, filter_none, filter_all; [done| |].
  - intros i (s & -> & _)%list_elem_of_fmap. apply spine_is_spine.
  - intros i (h & -> & _)%list_elem_of_fmap. apply host_not_spine.
Qed.

Lemma spine_leaf_facing L s :
  List.filter (faces "leaf") (spine_intfs L s) =
  map (fun l => mk_intf (spine_name s +:+ "-eth" +:+ str (l + 1)) (Some (leaf_name l)))
    (seq 0 L).
Proof.
  unfold spine_intfs. cbn [List.filter faces lo intf_peer].
  apply filter_all. intros i (l & -> & _)%list_elem_of_fmap. apply leaf_is_leaf.
Qed.

(** The network of [LeafSpineTopo] is a full mesh whose names read as
    numbers, whatever its size. *)
Lemma leaf_spine_net_full_mesh S L H : full_mesh (leaf_spine_net S L H) S L.
Proof.
  intros l Hl. exists (leaf_intfs S H l). split; [by apply leaf_node|].
  rewrite leaf_spine_facing. split.
  - by rewrite map_map.
  - apply Forall_forall. intros i (s & -> & _)%list_elem_of_fmap.
    exists (H + s + 1)%nat. apply port_num_eth. by left.
Qed.

Lemma leaf_spine_net_readable S L H : spines_readable (leaf_spine_net S L H) S.
Proof.
  intros s Hs. exists (spine_intfs L s). split; [by apply spine_node|].
  rewrite spine_leaf_facing.
  apply Forall_forall. intros i (l & -> & _)%list_elem_of_fmap. split.
  - exists (l + 1)%nat. apply port_num_eth. by right.
  - intros peer [= <-]. exists (l + 1)%nat. apply leaf_number.
Qed.

End LeafSpineTopo.

(* ===================================================================== *)
(** * Further properties of the code *)
(* ===================================================================== *)

(** ** FlowletRouter: the table and the loads over a run *)

Lemma min_from_flat {A} (key : A -> Q) best items :
  (forall x, x ∈ items -> (key x == key best)%Q) ->
  min_from key best items = best.
Proof.
  induction items as [|x items IH]; intros Hflat; simpl; [done|].
  assert (Qltb (key x) (key best) = false) as ->.
  { apply Qltb_ge. rewrite (Hflat x) by left. apply Qle_refl. }
  apply IH. intros y Hy. apply Hflat. by right.
Qed.

Section FlowletRunFacts.
Import FlowletRouter.

Lemma run_snoc self calls c : run self (calls ++ [c]) = step (run self calls) c.
Proof. unfold run. by rewrite fold_left_app. Qed.

(** What a lookup leaves under a key: the entry that was there, or one made
    by this lookup. *)
Lemma lookup_entry self key paths now key' t p :
  flowlet_table (fst (get_flowlet_path self key paths now)) !! key' = Some (t, p) ->
  flowlet_table self !! key' = Some (t, p) \/
  (key' = key /\ t = now /\
   (p ∈ paths \/ exists t0, flowlet_table self !! key = Some (t0, p))).
Proof.
  assert (forall q,
             (q ∈ paths \/ exists t0, flowlet_table self !! key = Some (t0, q)) ->
             <[key := (now, q)]> (flowlet_table self) !! key' = Some (t, p) ->
             flowlet_table self !! key' = Some (t, p) \/
             (key' = key /\ t = now /\
              (p ∈ paths \/ exists t0, flowlet_table self !! key = Some (t0, p))))
    as Hinsert.
  { intros q Hq. destruct (decide (key = key')) as [<-|Hne].
    - rewrite lookup_insert_eq. intros [= <- <-]. by right.
    - rewrite lookup_insert_ne by done. by left. }
  unfold get_flowlet_path, new_flowlet.
  destruct (flowlet_table self !! key) as [[last_time last_path]|] eqn:Hentry.
  - destruct (Qltb _ _).
    + simpl. apply Hinsert. right. by exists last_time.
    + destruct (min_key (load_of self) paths) as [selected|] eqn:Hmin; simpl.
      * apply Hinsert. left. by eapply min_key_elem.
      * by left.
  - destruct (min_key (load_of self) paths) as [selected|] eqn:Hmin; simpl.
    + apply Hinsert. left. by eapply min_key_elem.
    + by left.
Qed.

Lemma lookup_keeps_loads self key paths now :
  path_loads (fst (get_flowlet_path self key paths now)) = path_loads self.
Proof.
  unfold get_flowlet_path, new_flowlet.
  destruct (flowlet_table self !! key) as [[last_time last_path]|];
    [destruct (Qltb _ _)|]; try destruct (min_key _ _); done.
Qed.

Lemma lookup_keeps_keys self key paths now key' :
  is_Some (flowlet_table self !! key') ->
  is_Some (flowlet_table (fst (get_flowlet_path self key paths now)) !! key').
Proof.
  intros Hsome. unfold get_flowlet_path, new_flowlet.
  destruct (flowlet_table self !! key) as [[last_time last_path]|];
    [destruct (Qltb _ _)|]; try destruct (min_key _ _); simpl; try done;
    (destruct (decide (key = key')) as [<-|Hne];
      [rewrite lookup_insert_eq; eauto | by rewrite lookup_insert_ne]).
Qed.

(** X1. The flowlet table only grows, and nothing in it is invented: over
    any sequence of calls an entry is never removed, and in a router that
    started empty the path stored for a key was offered in the
    [available_paths] of a lookup for that key, and the time stored is the
    time of a lookup for that key. *)
Theorem flowlet_table_provenance :
  (forall self calls key,
      is_Some (flowlet_table self !! key) ->
      is_Some (flowlet_table (run self calls) !! key)) /\
  (forall timeout calls key t p,
      flowlet_table (run (init timeout) calls) !! key = Some (t, p) ->
      (exists paths t0, GetPath key paths t0 ∈ calls /\ p ∈ paths) /\
      (exists paths, GetPath key paths t ∈ calls)).
Proof.
  split.
  - intros self calls key. revert self.
    induction calls as [|c calls IH]; intros self Hsome; [done|].
    simpl. apply IH. destruct c as [key' paths now | p d]; simpl; [|done].
    by apply lookup_keeps_keys.
  - intros timeout calls. induction calls as [|c calls IH] using rev_ind.
    + intros key t p. simpl. by rewrite lookup_empty.
    + intros key t p. rewrite run_snoc.
      assert (forall t' p',
                 flowlet_table (run (init timeout) calls) !! key = Some (t', p') ->
                 (exists paths t0, GetPath key paths t0 ∈ calls ++ [c] /\ p' ∈ paths) /\
                 (exists paths, GetPath key paths t' ∈ calls ++ [c])) as Hold.
      { intros t' p' Hentry. destruct (IH key t' p' Hentry) as [(ps & t0 & Hin & Hp) [ps' Hin']].
        split; [exists ps, t0 | exists ps']; (split || idtac); try done;
          apply elem_of_app; by left. }
      destruct c as [key' paths now | p' d]; simpl; [|apply Hold].
      intros Hentry. apply lookup_entry in Hentry as [Hentry | (-> & -> & Hp)];
        [by apply Hold|].
      split; [|exists paths; apply elem_of_app; right; left].
      destruct Hp as [Hp | [t0 Hentry]].
      * exists paths, now. split; [apply elem_of_app; right; left | done].
      * apply (Hold t0 p Hentry).
Qed.

Lemma flowlet_table_provenance_witness :
  let key : flow_key := ("10.0.1.1", "10.0.2.1", 7%Z) in
  let calls := [GetPath key [4; 5]%Z 0%Q; UpdateLoad 4%Z 1%Q; GetPath key [] (1 # 100)] in
  (exists paths t0, GetPath key paths t0 ∈ calls /\ 4%Z ∈ paths) /\
  (exists paths, GetPath key paths (1 # 100) ∈ calls).
Proof.
  intros key calls.
  apply (proj2 flowlet_table_provenance (1 # 20) calls key (1 # 100) 4%Z).
  vm_compute. reflexivity.
Defined.

(** X2. The router does not count its own assignments: a lookup never
    changes the loads.  With no [update_path_load] in between, every lookup
    that opens a flowlet on a fresh router is therefore answered with the
    first of its [available_paths], whatever was assigned before. *)
Theorem unfed_router_takes_first timeout calls key first rest now :
  Forall is_lookup calls ->
  opens_flowlet (run (init timeout) calls) key now ->
  path_loads (run (init timeout) calls) = ∅ /\
  snd (get_flowlet_path (run (init timeout) calls) key (first :: rest) now) = Ok first.
Proof.
  intros Hlookups Hnew.
  assert (path_loads (run (init timeout) calls) = ∅) as Hloads.
  { clear Hnew. induction calls as [|c calls IH] using rev_ind; [done|].
    apply Forall_app in Hlookups as [Hlookups Hc]. rewrite Forall_singleton in Hc.
    rewrite run_snoc. destruct c as [key' paths' now' | p d]; [|done].
    simpl. rewrite lookup_keeps_loads. by apply IH. }
  split; [done|].
  rewrite opening_call by done.
  rewrite (new_flowlet_choice _ key _ now first rest) by done. simpl. f_equal.
  apply min_from_flat. intros p _. unfold load_of. rewrite Hloads, !lookup_empty.
  reflexivity.
Qed.

Lemma unfed_router_takes_first_witness :
  let calls :=
    [GetPath ("10.0.1.1", "10.0.2.1", 1%Z) [3; 4]%Z 0%Q;
     GetPath ("10.0.1.2", "10.0.2.1", 2%Z) [3; 4]%Z 0%Q] in
  snd (get_flowlet_path (run (init (1 # 20)) calls)
         ("10.0.1.3", "10.0.2.1", 3%Z) [3; 4]%Z 0%Q) = Ok 3%Z.
Proof.
  intros calls.
  apply (unfed_router_takes_first (1 # 20) calls ("10.0.1.3", "10.0.2.1", 3%Z) 3%Z [4%Z] 0%Q).
  - repeat constructor.
  - vm_compute. exact I.
Defined.

(** X3. The load of a path is a running sum: after any sequence of calls it
    is the load before, plus the deltas of the [update_path_load] calls for
    that path; lookups and updates of other paths leave it unchanged. *)
Theorem loads_accumulate self calls p :
  (load_of (run self calls) p == load_of self p + Qsum (deltas_for p calls))%Q.
Proof.
  revert self. induction calls as [|c calls IH]; intros self; simpl; [ring|].
  rewrite IH. destruct c as [key paths now | p' d]; simpl.
  - unfold load_of. rewrite lookup_keeps_loads. reflexivity.
  - unfold load_of at 1. simpl. destruct (decide (p' = p)) as [->|Hne].
    + rewrite lookup_insert_eq. simpl. ring.
    + rewrite lookup_insert_ne by done. reflexivity.
Qed.

End FlowletRunFacts.

(** ** CongestionAwareRouter: scores and the probe *)

Lemma Qsum_bounds (xs : list Q) (lo hi : Q) :
  (forall x, x ∈ xs -> (lo <= x <= hi)%Q) ->
  (inject_Z (Z.of_nat (length xs)) * lo <= Qsum xs /\
   Qsum xs <= inject_Z (Z.of_nat (length xs)) * hi)%Q.
Proof.
  induction xs as [|x xs IH]; intros Hxs.
  - simpl. split; apply Qle_lteq; right; ring.
  - destruct (Hxs x) as [Hlo Hhi]; [left|].
    destruct IH as [IHlo IHhi]; [intros y Hy; apply Hxs; by right|].
    assert (inject_Z (Z.of_nat (length (x :: xs))) == 1 + inject_Z (Z.of_nat (length xs)))%Q
      as Hlen.
    { simpl length. rewrite Nat2Z.inj_succ, <- Z.add_1_l, inject_Z_plus. reflexivity. }
    change (Qsum (x :: xs)) with (x + Qsum xs)%Q. rewrite Hlen.
    set (n := inject_Z (Z.of_nat (length xs))) in *.
    setoid_replace ((1 + n) * lo)%Q with (lo + n * lo)%Q using relation Qeq by ring.
    setoid_replace ((1 + n) * hi)%Q with (hi + n * hi)%Q using relation Qeq by ring.
    split; apply Qplus_le_compat; done.
Qed.

Lemma length_positive {A} (xs : list A) :
  xs <> [] -> (0 < inject_Z (Z.of_nat (length xs)))%Q.
Proof.
  intros Hne. destruct xs as [|x xs]; [done|].
  change 0%Q with (inject_Z 0). rewrite <- Zlt_Qlt. simpl length. lia.
Qed.

Lemma Qmean_bounds (xs : list Q) (lo hi : Q) :
  xs <> [] ->
  (forall x, x ∈ xs -> (lo <= x <= hi)%Q) ->
  (lo <= Qmean xs <= hi)%Q.
Proof.
  intros Hne Hxs. pose proof (length_positive xs Hne) as Hpos.
  destruct (Qsum_bounds xs lo hi Hxs) as [Hlo Hhi]. unfold Qmean. split.
  - apply Qle_shift_div_l; [done|]. by rewrite Qmult_comm.
  - apply Qle_shift_div_r; [done|]. by rewrite Qmult_comm.
Qed.

Section CongestionProbeFacts.
Import Mininet CongestionAwareRouter CongestionProbe.

Lemma get_path_score_mean self p links :
  links <> [] ->
  (get_path_score self p links == Qmean (map (link_util self) links))%Q.
Proof.
  intros Hne. unfold get_path_score, Qmean. destruct links as [|l links]; [done|].
  rewrite (running_total (link_util self)), length_map.
  apply Qdiv_comp; [ring | reflexivity].
Qed.



Lemma resets_none self : resets (fun _ => False) self self.
Proof. split; [done | by left]. Qed.

Lemma resets_then (P1 P2 P : link -> Prop) s0 s1 s2 :
  (forall l, P l <-> P1 l \/ P2 l) ->
  resets P1 s0 s1 -> resets P2 s1 s2 -> resets P s0 s2.
Proof.
  intros HP [Hset1 Hold1] [Hset2 Hold2]. split.
  - intros l [Hl | Hl]%HP; [|by apply Hset2].
    destruct (Hold2 l) as [-> | [? _]]; [by apply Hset1 | done].
  - intros l. destruct (Hold2 l) as [-> | [? ?]].
    + destruct (Hold1 l) as [-> | [? ?]]; [by left | right]. split; [done|]. apply HP. by left.
    + right. split; [done|]. apply HP. by right.
Qed.

Lemma intf_loop name intfs self self' :
  for_each (intf_body name) intfs self = Ok self' ->
  resets (probed [(name, intfs)]) self self'.
Proof.
  revert self. induction intfs as [|i intfs IH]; intros self; simpl.
  - intros [= <-]. split; [|by left].
    intros l (n & ifs & i & port & [= -> ->]%list_elem_of_singleton & Hi & _).
    by apply elem_of_nil in Hi.
  - unfold intf_body at 1.
    destruct (String.eqb (intf_name i) "lo") eqn:Hlo.
    + simpl. intros Hrest%IH. apply String.eqb_eq in Hlo.
      eapply (resets_then (fun _ => False)); [|apply resets_none|exact Hrest].
      intros l. split.
      * intros (n & ifs & j & port & [= -> ->]%list_elem_of_singleton & Hj & Hne & Hport & ->).
        right. apply elem_of_cons in Hj as [-> | Hj]; [done|].
        exists name, intfs, j, port. by rewrite list_elem_of_singleton.
      * intros [[] | (n & ifs & j & port & [= -> ->]%list_elem_of_singleton & Hj & Hrest')].
        exists name, (i :: intfs), j, port. rewrite list_elem_of_singleton.
        split; [done|]. split; [by right | done].
    + destruct (ECMPRouter.port_num name i) as [port|e] eqn:Hport; [|done].
      simpl. intros Hrest%IH. apply String.eqb_neq in Hlo.
      eapply (resets_then (fun l => l = (name, Z.of_nat port))); [| |exact Hrest].
      * intros l. split.
        -- intros (n & ifs & j & port' & [= -> ->]%list_elem_of_singleton & Hj & Hne & Hport' & ->).
           apply elem_of_cons in Hj as [-> | Hj]; [left; congruence | right].
           exists name, intfs, j, port'. by rewrite list_elem_of_singleton.
        -- intros [-> | (n & ifs & j & port' & [= -> ->]%list_elem_of_singleton & Hj & Hrest')].
           ++ exists name, (i :: intfs), i, port. rewrite list_elem_of_singleton.
              split; [done|]. split; [by left | done].
           ++ exists name, (i :: intfs), j, port'. rewrite list_elem_of_singleton.
              split; [done|]. split; [by right | done].
      * split.
        -- intros l ->. simpl. apply lookup_insert_eq.
        -- intros l. simpl. destruct (decide (l = (name, Z.of_nat port))) as [-> | Hne].
           ++ right. by rewrite lookup_insert_eq.
           ++ left. by rewrite lookup_insert_ne.
Qed.

Lemma switch_loop_resets switches self self' :
  _collect_stats self (Some switches) = Ok self' ->
  resets (probed switches) self self'.
Proof.
  simpl. revert self. induction switches as [|[name intfs] switches IH]; intros self; simpl.
  - intros [= <-]. split; [|by left].
    intros l (n & ifs & i & port & Hsw & _). by apply elem_of_nil in Hsw.
  - destruct (for_each (intf_body name) intfs self) as [self1|e] eqn:Hinner; [|done].
    simpl. intros Hrest%IH. apply intf_loop in Hinner.
    eapply resets_then; [|exact Hinner|exact Hrest].
    intros l. split.
    + intros (n & ifs & i & port & Hsw & Hrest').
      apply elem_of_cons in Hsw as [[= -> ->] | Hsw];
        [left; exists name, intfs, i, port; by rewrite list_elem_of_singleton
        | right; by exists n, ifs, i, port].
    + intros [(n & ifs & i & port & [= -> ->]%list_elem_of_singleton & Hrest')
             | (n & ifs & i & port & Hsw & Hrest')];
        [exists name, intfs, i, port | exists n, ifs, i, port];
        (split; [by (left || right) | done]).
Qed.

Lemma idle_path_score self p links :
  (forall l, l ∈ links -> (link_util self l == 0)%Q) ->
  (get_path_score self p links == 0)%Q.
Proof.
  intros Hidle. destruct links as [|l links]; [reflexivity|].
  rewrite get_path_score_mean by done.
  destruct (Qmean_bounds (map (link_util self) (l :: links)) 0 0) as [? ?]; [done| |].
  - intros x (l' & -> & Hl')%list_elem_of_fmap. rewrite (Hidle l' Hl').
    split; apply Qle_refl.
  - by apply Qle_antisym.
Qed.

(** X5. What a probe writes: when [_collect_stats] returns, every link it
    visited (one per interface other than [lo] of every switch) holds the
    all-zero record, whatever was recorded before, and every other link keeps
    its record.  Hence, over paths made of visited links only, [select_path]
    then returns the first of the available paths.  Before
    [start_monitoring], when the router has no [net], nothing changes. *)
Theorem probe_resets_links self switches self' :
  _collect_stats self (Some switches) = Ok self' ->
  (forall l, probed switches l -> link_stats self' !! l = Some idle_stat) /\
  (forall l, ~ probed switches l -> link_stats self' !! l = link_stats self !! l) /\
  (forall first rest path_links_map,
      (forall p l, p ∈ first :: rest -> l ∈ default [] (path_links_map !! p) ->
                   probed switches l) ->
      select_path self' (first :: rest) path_links_map = Ok first) /\
  _collect_stats self None = Ok self.
Proof.
  intros [Hset Hold]%switch_loop_resets.
  split; [done|]. split; [|split; [|done]].
  - intros l Hl. by destruct (Hold l) as [? | [_ ?]].
  - intros first rest path_links_map Hpaths.
    rewrite select_path_min. simpl. f_equal. apply min_from_flat.
    intros p Hp. unfold candidate_score.
    rewrite !idle_path_score; [reflexivity | |].
    + intros l Hl. unfold link_util. rewrite (Hset l); [reflexivity|].
      eapply Hpaths; [left | done].
    + intros l Hl. unfold link_util. rewrite (Hset l); [reflexivity|].
      eapply Hpaths; [by right | done].
Qed.

Lemma probe_resets_links_witness :
  let self := record_stat (init (1 # 10) (7 # 10)) ("leaf1", 2%Z) (mk_stat (9 # 10) 3 0 0) in
  let switches :=
    [("leaf1", [lo; mk_intf "leaf1-eth1" (Some "h1"); mk_intf "leaf1-eth2" (Some "spine1")])] in
  exists self',
    _collect_stats self (Some switches) = Ok self' /\
    link_stats self' !! ("leaf1", 2%Z) = Some idle_stat.
Proof.
  intros self switches. eexists. split; [vm_compute; reflexivity|].
  refine (proj1 (probe_resets_links self switches _ _) _ _); [vm_compute; reflexivity|].
  exists "leaf1", (snd (hd ("", []) switches)), (mk_intf "leaf1-eth2" (Some "spine1")), 2%nat.
  split; [left|]. split; [right; right; left|]. split; [discriminate|].
  split; vm_compute; reflexivity.
Defined.

End CongestionProbeFacts.

(** ** Loops that raise, and what a loop preserves *)

Section ForEachOutcomes.
Context {A S : Type} (body : S -> A -> result S).

(** What holds before a loop and is kept by every round that returns holds
    when the loop returns. *)
Lemma for_each_invariant (inv : S -> Prop) items s s' :
  (forall a s s', a ∈ items -> inv s -> body s a = Ok s' -> inv s') ->
  inv s -> for_each body items s = Ok s' -> inv s'.
Proof.
  revert s. induction items as [|x items IH]; intros s Hbody Hs; simpl.
  - by intros [= <-].
  - destruct (body s x) as [s1|e] eqn:Hx; [|done]. simpl. apply IH.
    + intros a s0 s0' Ha. apply Hbody. by right.
    + eapply Hbody; [left | done | done].
Qed.

(** A loop whose rounds can only raise [e] either returns or raises [e]. *)
Lemma for_each_raises_only e items s :
  (forall a s, a ∈ items -> body s a = Raise e \/ returns (body s a)) ->
  for_each body items s = Raise e \/ returns (for_each body items s).
Proof.
  revert s. induction items as [|x items IH]; intros s Hbody; simpl.
  - right. by exists s.
  - destruct (Hbody x s) as [-> | [s1 ->]]; [left | by left |]. simpl.
    apply IH. intros a s0 Ha. apply Hbody. by right.
Qed.

(** ... and raises [e] when one of its rounds always does. *)
Lemma for_each_raises e items s a :
  (forall a s, a ∈ items -> body s a = Raise e \/ returns (body s a)) ->
  a ∈ items -> (forall s, body s a = Raise e) ->
  for_each body items s = Raise e.
Proof.
  revert s. induction items as [|x items IH]; intros s Hbody Ha Hraises; simpl.
  - by apply elem_of_nil in Ha.
  - destruct (Hbody x s) as [-> | [s1 Hs1]]; [left | done |].
    apply elem_of_cons in Ha as [-> | Ha]; [by rewrite Hraises in Hs1|].
    rewrite Hs1. simpl. apply IH; [|done..].
    intros a' s0 Ha'. apply Hbody. by right.
Qed.

End ForEachOutcomes.

(** ** NetworkMonitor: what is recorded, and when the computation fails *)

Lemma consecutive_two samples pair :
  pair ∈ NetworkMonitor.consecutive samples -> (length samples <? 2)%nat = false.
Proof.
  destruct samples as [|s1 [|s2 samples]]; simpl; [by intros ?%elem_of_nil..|done].
Qed.

Lemma append_util_elem u id v id' x :
  x ∈ recorded (NetworkMonitor.append_util u id v) id' ->
  x ∈ recorded u id' \/ (id' = id /\ x = v).
Proof.
  unfold recorded, NetworkMonitor.append_util.
  destruct (decide (id = id')) as [<-|Hne].
  - rewrite dict_get_set_eq. simpl.
    intros [?|Hx%list_elem_of_singleton]%elem_of_app; [by left | by right].
  - rewrite dict_get_set_ne by done. by left.
Qed.

Section ZeroInterval.
Import NetworkMonitor.
Context (self : t).
Hypothesis interval_zero : (sample_interval self == 0)%Q.

Lemma util_pct_raises bytes_delta :
  util_pct bytes_delta (sample_interval self) = Raise ZeroDivisionError.
Proof.
  unfold util_pct, Py.div. cbv zeta.
  assert (Qeq_bool (sample_interval self) 0 = true) as -> by by apply Qeq_bool_iff.
  done.
Qed.

Lemma port_body_outcome sw prev_ports curr_ports u port :
  port ∈ dict_keys curr_ports ->
  (port_body self sw prev_ports curr_ports u port = Raise ZeroDivisionError /\
   is_Some (dict_get prev_ports port)) \/
  (port_body self sw prev_ports curr_ports u port = Ok u /\
   dict_get prev_ports port = None).
Proof.
  intros [curr Hcurr]%dict_key_get. unfold port_body.
  destruct (dict_get prev_ports port) as [prev|]; [left | by right].
  rewrite Hcurr, util_pct_raises. eauto.
Qed.

Lemma ports_outcome sw prev_ports curr_ports u :
  for_each (port_body self sw prev_ports curr_ports) (dict_keys curr_ports) u
    = Raise ZeroDivisionError \/
  returns (for_each (port_body self sw prev_ports curr_ports) (dict_keys curr_ports) u).
Proof.
  apply for_each_raises_only. intros port u1 Hport.
  destruct (port_body_outcome sw prev_ports curr_ports u1 port Hport) as [[-> _] | [-> _]];
    [by left | right; by eexists].
Qed.

Lemma switch_body_outcome prev_sample curr_sample u sw :
  sw ∈ dict_keys (switches curr_sample) ->
  switch_body self prev_sample curr_sample u sw = Raise ZeroDivisionError \/
  returns (switch_body self prev_sample curr_sample u sw).
Proof.
  intros [curr_switch Hcurr]%dict_key_get. unfold switch_body.
  destruct (dict_get (switches prev_sample) sw) as [prev_switch|]; [|right; by eexists].
  rewrite Hcurr. apply ports_outcome.
Qed.

Lemma sample_body_outcome u pair :
  sample_body self u pair = Raise ZeroDivisionError \/ returns (sample_body self u pair).
Proof.
  destruct pair as [prev_sample curr_sample]. apply for_each_raises_only.
  intros sw u1 Hsw. by apply switch_body_outcome.
Qed.

(** X6. A monitor configured with a [sample_interval] of 0 cannot compute
    utilizations: as soon as some port of some switch is present in two
    consecutive samples, [compute_link_utilization] raises
    [ZeroDivisionError], and returns nothing for the other links either. *)
Theorem zero_interval_raises prev_sample curr_sample sw port prev_switch curr_switch prev curr :
  (prev_sample, curr_sample) ∈ consecutive (samples self) ->
  dict_get (switches prev_sample) sw = Some prev_switch ->
  dict_get (switches curr_sample) sw = Some curr_switch ->
  dict_get (ports prev_switch) port = Some prev ->
  dict_get (ports curr_switch) port = Some curr ->
  compute_link_utilization self = Raise ZeroDivisionError.
Proof.
  intros Hpair Hp Hc Hprev Hcurr. unfold compute_link_utilization.
  rewrite (consecutive_two _ _ Hpair).
  apply (for_each_raises _ _ _ _ (prev_sample, curr_sample)); [|done|].
  { intros pair u _. apply sample_body_outcome. }
  intros u. unfold sample_body.
  apply (for_each_raises _ _ _ _ sw).
  { intros sw' u1 Hsw'. by apply switch_body_outcome. }
  { by eapply dict_get_key. }
  intros u1. unfold switch_body. rewrite Hp, Hc.
  apply (for_each_raises _ _ _ _ port).
  { intros port' u2 Hport'.
    destruct (port_body_outcome sw (ports prev_switch) (ports curr_switch) u2 port' Hport')
      as [[-> _] | [-> _]]; [by left | right; by eexists]. }
  { by eapply dict_get_key. }
  intros u2. unfold port_body. by rewrite Hprev, Hcurr, util_pct_raises.
Qed.

End ZeroInterval.

Lemma zero_interval_raises_witness :
  NetworkMonitor.compute_link_utilization (two_samples 0 0 125000) = Raise ZeroDivisionError.
Proof.
  refine (zero_interval_raises (two_samples 0 0 125000) _
            (NetworkMonitor.mk_sample "2024-01-01T00:00:00"
               [("leaf1", NetworkMonitor.mk_switch
                            [("1", NetworkMonitor.mk_port 0 0 0 0 0 0)] [])])
            (NetworkMonitor.mk_sample "2024-01-01T00:00:01"
               [("leaf1", NetworkMonitor.mk_switch
                            [("1", NetworkMonitor.mk_port 0 0 0 0 125000 0)] [])])
            "leaf1" "1" _ _ _ _ _ _ _ _ _); [reflexivity | left | reflexivity..].
Defined.


Section RecordedValues.
Import NetworkMonitor.
Context (self : t).

(** Induction over what [compute_link_utilization] builds: the result comes
    from the empty dictionary by appending readings of ports present in two
    consecutive samples. *)
Lemma utilization_ind (inv : dict string (list Q) -> Prop) utilization :
  inv [] ->
  (forall u id v,
      inv u -> measured self (consecutive (samples self)) id v ->
      inv (append_util u id v)) ->
  compute_link_utilization self = Ok utilization ->
  inv utilization.
Proof.
  intros Hempty Happend.
  unfold compute_link_utilization. destruct (length (samples self) <? 2)%nat.
  { by intros [= <-]. }
  apply (for_each_invariant _ inv); [|done].
  intros [prev_sample curr_sample] u u' Hpair Hu. unfold sample_body.
  apply (for_each_invariant _ inv); [|done].
  intros sw u1 u1' Hsw Hu1. unfold switch_body.
  destruct (dict_get (switches prev_sample) sw) as [prev_switch|] eqn:Hp;
    [|by intros [= <-]].
  destruct (dict_get (switches curr_sample) sw) as [curr_switch|] eqn:Hc; [|done].
  apply (for_each_invariant _ inv); [|done].
  intros port u2 u2' Hport Hu2. unfold port_body.
  destruct (dict_get (ports prev_switch) port) as [prev|] eqn:Hprev; [|by intros [= <-]].
  destruct (dict_get (ports curr_switch) port) as [curr|] eqn:Hcurr; [|done].
  unfold util_pct, Py.div. cbv zeta.
  destruct (Qeq_bool (sample_interval self) 0); [done|]. cbn [bind].
  destruct (Qeq_bool link_capacity_bps 0); [done|]. cbn [bind].
  intros [= <-]. apply Happend; [done|].
  by exists prev_sample, curr_sample, sw, port, prev_switch, curr_switch, prev, curr.
Qed.

Lemma append_util_nonempty u id v :
  (forall id', id' ∈ dict_keys u -> recorded u id' <> []) ->
  forall id', id' ∈ dict_keys (append_util u id v) -> recorded (append_util u id v) id' <> [].
Proof.
  intros Hkeys id' Hid'. destruct (decide (id = id')) as [<-|Hne].
  - intros Hnil. pose proof (append_util_recorded u id v) as Hin.
    rewrite Hnil in Hin. by apply elem_of_nil in Hin.
  - unfold append_util in Hid'. rewrite dict_keys_set in Hid'.
    unfold recorded, append_util. rewrite dict_get_set_ne by done.
    apply Hkeys. case_decide; [done|].
    apply elem_of_app in Hid' as [?|?%list_elem_of_singleton]; [done | congruence].
Qed.

Lemma utilization_nonempty utilization id :
  compute_link_utilization self = Ok utilization ->
  id ∈ dict_keys utilization -> recorded utilization id <> [].
Proof.
  intros Hrun. revert id.
  apply (utilization_ind (fun u => forall id, id ∈ dict_keys u -> recorded u id <> [])
           utilization); [by intros id ?%elem_of_nil | |done].
  intros u id v Hu _. by apply append_util_nonempty.
Qed.


(** X7. Nothing else is recorded: every value that
    [compute_link_utilization] returns under an identifier is the reading of
    a port that is present, with its switch, in both samples of a pair of
    consecutive samples, and the identifier is that of this port; a port or a
    switch seen in one sample only contributes nothing.  No identifier of the
    result has an empty list. *)
Theorem recorded_values_measured utilization :
  compute_link_utilization self = Ok utilization ->
  (forall id v,
      v ∈ recorded utilization id ->
      measured self (consecutive (samples self)) id v) /\
  (forall id, id ∈ dict_keys utilization -> recorded utilization id <> []).
Proof.
  intros Hrun. split.
  - apply (utilization_ind
             (fun u => forall id v, v ∈ recorded u id ->
                                    measured self (consecutive (samples self)) id v)
             utilization); [by intros id v ?%elem_of_nil| |done].
    intros u id v Hu Hv id' x [Hx | [-> ->]]%append_util_elem; [by apply Hu | done].
  - intros id. by apply utilization_nonempty.
Qed.

End RecordedValues.

Lemma recorded_values_measured_witness :
  measured (two_samples 1 0 125000)
    (NetworkMonitor.consecutive (NetworkMonitor.samples (two_samples 1 0 125000)))
    "leaf1:1" (reading (two_samples 1 0 125000)
                 (NetworkMonitor.mk_port 0 0 0 0 0 0)
                 (NetworkMonitor.mk_port 0 0 0 0 125000 0)).
Proof.
  refine (proj1 (recorded_values_measured (two_samples 1 0 125000) _ _) _ _ _);
    [reflexivity | left].
Defined.

(** ** FlowCompletionTracker: the statistics and the records *)






Section FlowStatisticsFacts.
Import FlowCompletionTracker.




Lemma run_events_snoc self events e :
  run_events self (events ++ [e]) = apply_event (run_events self events) e.
Proof. unfold run_events. by rewrite fold_left_app. Qed.

(** X9. The records of a tracker that started empty: when the clock never
    goes back, every completed flow has a completion time that is its end
    time minus its start time and is not negative.  A flow completes at most
    once per [start_flow]: the completed flows and the open ones together
    are never more than the [start_flow] calls, whatever the clock does. *)
Theorem flow_records_sound events :
  let tracker := run_events init events in
  (StronglySorted Qle (map event_time events) ->
   forall f, f ∈ completed_flows tracker ->
     fct f = (end_time f - start_time (flow f))%Q /\ (0 <= fct f)%Q) /\
  (length (completed_flows tracker) + base.size (flows tracker)
     <= length (List.filter is_start events))%nat.
Proof.
  cbv zeta. split.
  - intros Hclock.
    assert ((forall id f, flows (run_events init events) !! id = Some f ->
               exists e, e ∈ events /\ event_time e = start_time f) /\
            forall f, f ∈ completed_flows (run_events init events) ->
              fct f = (end_time f - start_time (flow f))%Q /\ (0 <= fct f)%Q) as [_ ?];
      [|done].
    induction events as [|e events IH] using rev_ind.
    { split; [intros id f; simpl; by rewrite lookup_empty | by intros f ?%elem_of_nil]. }
    rewrite map_app in Hclock. pose proof Hclock as Hbefore.
    apply StronglySorted_app_1_l in Hbefore. destruct (IH Hbefore) as [Hopen Hdone].
    rewrite run_events_snoc.
    destruct e as [now id src dst size | now id]; simpl.
    + split; [|done]. intros id' f. destruct (decide (id = id')) as [<-|Hne].
      * rewrite lookup_insert_eq. intros [= <-].
        exists (FlowStart now id src dst size). split; [|reflexivity].
        apply elem_of_app. right. left.
      * rewrite lookup_insert_ne by done. intros (e & He & Ht)%Hopen.
        exists e. split; [apply elem_of_app; by left | done].
    + unfold end_flow. destruct (flows (run_events init events) !! id) as [f|] eqn:Hf; simpl.
      * split.
        -- intros id' f'. intros [_ Hf']%lookup_delete_Some.
           apply Hopen in Hf' as (e & He & Ht).
           exists e. split; [apply elem_of_app; by left | done].
        -- intros f' [Hf'|Hf']%elem_of_app; [by apply Hdone|].
           apply list_elem_of_singleton in Hf' as ->. simpl. split; [done|].
           destruct (Hopen id f Hf) as (e & He & Ht).
           assert (event_time e <= now)%Q as Hle.
           { eapply (StronglySorted_app_1_elem_of Qle); [exact Hclock| |left].
             apply list_elem_of_fmap. eauto. }
           rewrite Ht in Hle. unfold Qminus. by apply -> Qle_minus_iff.
      * split; [|done]. intros id' f' (e & He & Ht)%Hopen.
        exists e. split; [apply elem_of_app; by left | done].
  - induction events as [|e events IH] using rev_ind; [simpl; by rewrite map_size_empty|].
    rewrite run_events_snoc, List.filter_app, length_app.
    destruct e as [now id src dst size | now id]; simpl.
    + destruct (flows (run_events init events) !! id) eqn:Hid.
      * rewrite map_size_insert_Some by done. simpl. lia.
      * rewrite map_size_insert_None by done. simpl. lia.
    + unfold end_flow. destruct (flows (run_events init events) !! id) as [f|] eqn:Hf; simpl.
      * rewrite length_app. simpl.
        assert (base.size (flows (run_events init events))
                = S (base.size (delete id (flows (run_events init events))))) as Hsize.
        { rewrite <- (insert_id _ id f Hf) at 1. rewrite <- insert_delete_eq.
          apply map_size_insert_None, lookup_delete_eq. }
        lia.
      * lia.
Qed.

Lemma flow_records_sound_witness :
  let events :=
    [FlowStart 1 7%Z "10.0.1.1" "10.0.2.1" 1000%Z; FlowEnd 3 7%Z; FlowEnd 4 7%Z] in
  fct (mk_closed (mk_open "10.0.1.1" "10.0.2.1" 1000%Z 1) 3 (3 - 1))
    = (3 - 1)%Q /\
  (0 <= 3 - 1)%Q.
Proof.
  intros events.
  refine (proj1 (flow_records_sound events) _
            (mk_closed (mk_open "10.0.1.1" "10.0.2.1" 1000%Z 1) 3 (3 - 1)) _).
  - repeat constructor; vm_compute; discriminate.
  - left.
Defined.

End FlowStatisticsFacts.

(** ** NetworkMonitor: the statistics *)


Section StatisticsFacts.
Import NetworkMonitor.








End StatisticsFacts.

(** ** ResultsAnalyzer and ComparisonAnalyzer: ranges and signs *)

Section AnalyzerRanges.
Import ResultsAnalyzer ComparisonAnalyzer.
Local Open Scope R_scope.









(** X12. The percentages of a comparison have the sign of the improvement:
    over a positive ECMP baseline, the throughput and balance improvements
    are positive exactly when the adaptive value is greater, the drop
    reduction and the tail-latency improvement exactly when the adaptive
    value is smaller, and a reduction of drops that are not negative is at
    most 100 %.  Comparing a summary with itself gives 0 % everywhere. *)
Theorem percentages_signed (ecmp_summary adaptive_summary : summary) (c : comparison) :
  compare_metrics ecmp_summary adaptive_summary = Ok c ->
  (forall en, cmp_throughput c = Some en \/ cmp_balance c = Some en ->
     0 < ecmp en -> (0 < pct en <-> ecmp en < adaptive en)) /\
  (forall en, cmp_drops c = Some en \/ cmp_tail_latency c = Some en ->
     0 < ecmp en ->
     (0 < pct en <-> adaptive en < ecmp en) /\ (0 <= adaptive en -> pct en <= 100)) /\
  (adaptive_summary = ecmp_summary ->
   forall en,
     cmp_throughput c = Some en \/ cmp_balance c = Some en \/
     cmp_drops c = Some en \/ cmp_tail_latency c = Some en ->
     pct en = 0).
Proof.
  rewrite compare_metrics_value. intros [= <-].
  cbn [cmp_throughput cmp_balance cmp_drops cmp_tail_latency].
  assert (forall e a, 0 < e -> (0 < (a - e) / e * 100 <-> e < a)) as Hup.
  { intros e a He. split; intros Hlt.
    - apply Rnot_le_lt. intros Hle.
      assert ((a - e) / e * 100 <= 0); [|lra].
      replace ((a - e) / e * 100) with (- ((e - a) * / e * 100)) by (field; lra).
      assert (0 <= (e - a) * / e * 100); [|lra].
      apply Rmult_le_pos; [|lra]. apply Rmult_le_pos; [lra|].
      left. by apply Rinv_0_lt_compat.
    - apply Rmult_lt_0_compat; [|lra]. apply Rmult_lt_0_compat; [lra|].
      by apply Rinv_0_lt_compat. }
  assert (forall e a, 0 < e -> 0 <= a -> (e - a) / e * 100 <= 100) as Hcap.
  { intros e a He Ha.
    replace 100 with (e / e * 100) at 2 by (field; lra).
    apply Rmult_le_compat_r; [lra|]. apply Rmult_le_compat_r; [|lra].
    left. by apply Rinv_0_lt_compat. }
  assert (forall e, over_positive e ((e - e) / e * 100) = 0) as Hsame.
  { intros e. unfold over_positive. destruct (Rlt_dec 0 e); [field; lra | done]. }
  split; [|split].
  - intros en [Hen|Hen] Hpos;
      [destruct (mean_mbps <$> throughput ecmp_summary) as [e|],
         (mean_mbps <$> throughput adaptive_summary) as [a|]
      |destruct (balance_score <$> utilization ecmp_summary) as [e|],
         (balance_score <$> utilization adaptive_summary) as [a|]];
      try done; injection Hen as <-; simpl in *;
      unfold over_positive; destruct (Rlt_dec 0 e); try lra; by apply Hup.
  - intros en [Hen|Hen] Hpos;
      [destruct (total_drops <$> drops ecmp_summary) as [e|],
         (total_drops <$> drops adaptive_summary) as [a|]
      |destruct (throughput ecmp_summary ≫= fct_p99) as [e|],
         (throughput adaptive_summary ≫= fct_p99) as [a|]];
      try done; injection Hen as <-; simpl in *;
      unfold over_positive; destruct (Rlt_dec 0 e); try lra;
      (split; [|by apply Hcap]);
      (replace ((e - a) / e * 100) with ((2 * e - a - e) / e * 100) by (field; lra));
      rewrite (Hup e (2 * e - a)) by done; lra.
  - intros -> en [Hen|[Hen|[Hen|Hen]]];
      [destruct (mean_mbps <$> throughput ecmp_summary) as [e|]
      |destruct (balance_score <$> utilization ecmp_summary) as [e|]
      |destruct (total_drops <$> drops ecmp_summary) as [e|]
      |destruct (throughput ecmp_summary ≫= fct_p99) as [e|]];
      try done; injection Hen as <-; simpl; apply Hsame.
Qed.

Lemma percentages_signed_witness :
  let ecmp_summary := summary_with_drops 200 in
  let adaptive_summary := summary_with_drops 50 in
  exists c,
    compare_metrics ecmp_summary adaptive_summary = Ok c /\
    forall en, cmp_drops c = Some en -> 0 < ecmp en -> 0 <= adaptive en -> pct en <= 100.
Proof.
  intros ecmp_summary adaptive_summary.
  eexists. split; [apply compare_metrics_value|]. intros en Hen Hpos Hadaptive.
  refine (proj2 (proj1 (proj2 (percentages_signed ecmp_summary adaptive_summary _
                                 (compare_metrics_value _ _)))
                   en (or_introl Hen) Hpos) Hadaptive).
Defined.

End AnalyzerRanges.

(** ** AITrafficGenerator: the flows of the two patterns *)

Section TrafficPatterns.
Import AITrafficGenerator.

Lemma others_loop src_host hosts threads :
  fold_left
    (fun threads dst_host =>
       if String.eqb src_host dst_host then threads else threads ++ [(src_host, dst_host)])
    hosts threads
  = threads ++ map (pair src_host) (List.filter (fun d => negb (String.eqb src_host d)) hosts).
Proof.
  revert threads. induction hosts as [|d hosts IH]; intros threads; simpl.
  - by rewrite app_nil_r.
  - rewrite IH. destruct (String.eqb src_host d); simpl; [done|].
    by rewrite <- app_assoc.
Qed.

Lemma all_to_all_flat_map hosts :
  all_to_all_threads hosts =
  flat_map (fun s => map (pair s) (List.filter (fun d => negb (String.eqb s d)) hosts)) hosts.
Proof.
  unfold all_to_all_threads.
  assert (forall others srcs threads,
            fold_left
              (fun threads src_host =>
                 fold_left
                   (fun threads dst_host =>
                      if String.eqb src_host dst_host then threads
                      else threads ++ [(src_host, dst_host)])
                   others threads)
              srcs threads
            = threads ++
              flat_map
                (fun s => map (pair s) (List.filter (fun d => negb (String.eqb s d)) others))
                srcs) as Hloop.
  { intros others srcs. induction srcs as [|s srcs IH]; intros threads; simpl.
    - by rewrite app_nil_r.
    - rewrite others_loop, IH. by rewrite <- app_assoc. }
  apply Hloop.
Qed.

Lemma others_elem s d others :
  (s, d) ∈ map (pair s) (List.filter (fun d => negb (String.eqb s d)) others)
  <-> d ∈ others /\ s <> d.
Proof.
  rewrite list_elem_of_fmap. split.
  - intros (d' & [= <-] & Hd). apply list_elem_of_In, filter_In in Hd as [Hd Hne].
    split; [by apply list_elem_of_In|]. intros ->. by rewrite String.eqb_refl in Hne.
  - intros [Hd Hne]. exists d. split; [done|].
    apply list_elem_of_In, filter_In. split; [by apply list_elem_of_In|].
    by destruct (String.eqb_spec s d).
Qed.

Lemma others_length s hosts :
  NoDup hosts -> s ∈ hosts ->
  S (length (List.filter (fun d => negb (String.eqb s d)) hosts)) = length hosts.
Proof.
  induction 1 as [|d hosts Hd Hnodup IH]; [by intros ?%elem_of_nil|].
  intros Hs. simpl. destruct (String.eqb_spec s d) as [->|Hne]; simpl.
  - f_equal. clear IH Hs Hnodup. induction hosts as [|x hosts IH]; [done|].
    simpl. apply not_elem_of_cons in Hd as [Hx Hd].
    destruct (String.eqb_spec d x) as [->|_]; [done|]. simpl. by rewrite IH.
  - f_equal. apply IH. apply elem_of_cons in Hs as [?|?]; done.
Qed.

Lemma rows_nodup others srcs :
  NoDup others -> NoDup srcs ->
  NoDup (flat_map
           (fun s => map (pair s) (List.filter (fun d => negb (String.eqb s d)) others))
           srcs).
Proof.
  intros Hothers. induction 1 as [|s srcs Hs Hsrcs IH]; simpl; [constructor|].
  apply NoDup_app. split; [|split; [|done]].
  - apply NoDup_fmap_2; [by intros ?? [= ->]|].
    by apply NoDup_ListNoDup, List.NoDup_filter, NoDup_ListNoDup.
  - intros [s1 d1] (d & [= -> ->] & _)%list_elem_of_fmap Hin.
    apply list_elem_of_In, in_flat_map in Hin as (s' & Hs' & Hin).
    apply list_elem_of_In, list_elem_of_fmap in Hin as (d' & [= -> _] & _).
    by apply Hs, list_elem_of_In.
Qed.

Lemma rows_length others srcs :
  (forall s, s ∈ srcs ->
     S (length (List.filter (fun d => negb (String.eqb s d)) others)) = length others) ->
  length (flat_map
            (fun s => map (pair s) (List.filter (fun d => negb (String.eqb s d)) others))
            srcs)
  = (length srcs * (length others - 1))%nat.
Proof.
  induction srcs as [|s srcs IH]; intros Hrows; simpl; [done|].
  rewrite length_app, length_map, IH.
  - pose proof (Hrows s) as Hs. specialize (Hs ltac:(left)). lia.
  - intros s' Hs'. apply Hrows. by right.
Qed.

(** X13. All-to-all means every ordered pair of distinct hosts:
    [generate_all_to_all] creates a thread from [src] to [dst] exactly when
    both are hosts and differ; over [n] hosts with distinct names it creates
    one thread per such pair, [n * (n - 1)] in all, and none from a host to
    itself. *)
Theorem all_to_all_pairs hosts :
  (forall s d, (s, d) ∈ all_to_all_threads hosts <-> s ∈ hosts /\ d ∈ hosts /\ s <> d) /\
  (NoDup hosts ->
   NoDup (all_to_all_threads hosts) /\
   length (all_to_all_threads hosts) = (length hosts * (length hosts - 1))%nat).
Proof.
  rewrite all_to_all_flat_map. split.
  - intros s d. rewrite (list_elem_of_In (flat_map _ _)), in_flat_map. split.
    + intros (s' & Hs' & Hin). apply list_elem_of_In in Hin.
      assert (s' = s) as ->.
      { by apply list_elem_of_fmap in Hin as (d' & [= -> _] & _). }
      apply others_elem in Hin as [Hd Hne]. split; [by apply list_elem_of_In | done].
    + intros (Hs & Hd & Hne). exists s. split; [by apply list_elem_of_In|].
      by apply list_elem_of_In, others_elem.
  - intros Hnodup. split; [by apply rows_nodup|].
    apply rows_length. intros s Hs. by apply others_length.
Qed.

Lemma all_to_all_pairs_witness :
  length (all_to_all_threads ["h1"; "h2"; "h3"]) = 6%nat.
Proof.
  apply (proj2 (proj2 (all_to_all_pairs ["h1"; "h2"; "h3"])
                  ltac:(repeat constructor; vm_compute; intros Hin;
                        repeat (apply elem_of_cons in Hin as [Hin|Hin]; [discriminate|]);
                        by apply elem_of_nil in Hin))).
Defined.

Lemma enumerate_lookup {A} (xs : list A) i x :
  enumerate xs !! i = Some (i, x) <-> xs !! i = Some x.
Proof.
  unfold enumerate. rewrite lookup_zip_with_Some. split.
  - intros (j & y & [= -> ->] & _ & Hx). done.
  - intros Hx. exists i, x. split; [done|]. split; [|done].
    apply lookup_seq. split; [done|]. by eapply lookup_lt_Some.
Qed.

Lemma enumerate_elem {A} (xs : list A) i x :
  (i, x) ∈ enumerate xs -> (i < length xs)%nat.
Proof.
  unfold enumerate. intros (j & Hj)%list_elem_of_lookup_1.
  apply lookup_zip_with_Some in Hj as (i' & x' & [= -> ->] & Hi%lookup_seq & _). lia.
Qed.

Lemma sends_loop hosts ihs sends :
  (forall ih, ih ∈ ihs -> (fst ih < length hosts)%nat) ->
  for_each (send_to_next hosts) ihs sends =
  Ok (sends ++ map (fun ih => (snd ih, default (snd ih)
                                        (hosts !! ((fst ih + 1) mod length hosts)%nat)))
                ihs).
Proof.
  revert sends. induction ihs as [|[i host] ihs IH]; intros sends Hbound; simpl.
  - by rewrite app_nil_r.
  - unfold send_to_next at 1. cbv zeta. cbn [fst snd].
    assert (i < length hosts)%nat as Hi by (apply (Hbound (i, host)); left).
    destruct (index_returns hosts (Z.of_nat ((i + 1) mod length hosts)))
      as (next_host & -> & Hnext).
    { split; [lia|]. apply inj_lt, Nat.mod_upper_bound. lia. }
    rewrite Nat2Z.id in Hnext. cbn [bind]. rewrite IH.
    + rewrite Hnext. simpl. by rewrite <- app_assoc.
    + intros ih Hih. apply Hbound. by right.
Qed.

Lemma steps_loop hosts (steps : list nat) sends :
  for_each (fun sends _ => for_each (send_to_next hosts) (enumerate hosts) sends) steps sends
  = Ok (sends ++ concat (replicate (length steps) (ring_of hosts))).
Proof.
  revert sends. induction steps as [|step steps IH]; intros sends; simpl.
  - by rewrite app_nil_r.
  - rewrite sends_loop by (intros [i host]; apply enumerate_elem).
    cbn [bind]. rewrite IH. by rewrite <- app_assoc.
Qed.

Lemma phase_sends hosts sends :
  phase hosts sends = Ok (sends ++ concat (replicate (length hosts - 1) (ring_of hosts))).
Proof. unfold phase. by rewrite steps_loop, length_seq. Qed.

Lemma iterations_loop hosts (iterations : list nat) sends :
  for_each (fun sends _ => bind (phase hosts sends) (phase hosts)) iterations sends
  = Ok (sends ++ concat (replicate (length iterations * (2 * (length hosts - 1)))
                           (ring_of hosts))).
Proof.
  revert sends. induction iterations as [|it iterations IH]; intros sends.
  - simpl. by rewrite app_nil_r.
  - cbn [for_each length]. rewrite phase_sends. cbn [bind]. rewrite phase_sends.
    cbn [bind]. rewrite IH, <- !app_assoc. do 2 f_equal.
    replace (S (length iterations) * (2 * (length hosts - 1)))%nat
      with ((length hosts - 1) +
            ((length hosts - 1) + length iterations * (2 * (length hosts - 1))))%nat
      by lia.
    by rewrite !replicate_add, !concat_app.
Qed.

(** X14. The all-reduce pattern is a ring: [generate_allreduce_pattern]
    always finds the next host, and what it sends is the ring of the hosts,
    each host sending one chunk to its successor in [self.hosts] and the
    last one to the first, repeated [2 * (n - 1)] times per iteration: over
    [n] hosts and [k] iterations, [k * 2 * (n - 1) * n] chunks, and none at
    all for a single host. *)
Theorem allreduce_ring hosts num_iterations :
  let n := length hosts in
  allreduce_sends hosts num_iterations =
    Ok (concat (replicate (num_iterations * (2 * (n - 1))) (ring_of hosts))) /\
  length (ring_of hosts) = n /\
  (forall i s, hosts !! i = Some s ->
     exists d, hosts !! ((i + 1) mod n)%nat = Some d /\ ring_of hosts !! i = Some (s, d)) /\
  forall sends, allreduce_sends hosts num_iterations = Ok sends ->
                length sends = (num_iterations * (2 * (n - 1)) * n)%nat.
Proof.
  cbv zeta.
  assert (length (ring_of hosts) = length hosts) as Hlen.
  { unfold ring_of, enumerate. rewrite length_map, length_zip_with, length_seq. lia. }
  assert (allreduce_sends hosts num_iterations =
          Ok (concat (replicate (num_iterations * (2 * (length hosts - 1)))
                        (ring_of hosts)))) as Hrun.
  { unfold allreduce_sends. by rewrite iterations_loop, length_seq. }
  split; [done|]. split; [done|]. split.
  - intros i s Hs. pose proof (lookup_lt_Some _ _ _ Hs) as Hi.
    destruct (lookup_lt_is_Some_2 hosts ((i + 1) mod length hosts)) as [d Hd].
    { apply Nat.mod_upper_bound. lia. }
    exists d. split; [done|]. unfold ring_of.
    rewrite list_lookup_fmap, (proj2 (enumerate_lookup hosts i s) Hs). simpl.
    by rewrite Hd.
  - intros sends. rewrite Hrun. intros [= <-].
    rewrite length_concat, fmap_replicate, sum_list_replicate, Hlen. lia.
Qed.

End TrafficPatterns.

(** ** ECMPRouter: the table of the leaf-spine fabric *)

Lemma dict_get_fresh {K V} `{EqDecision K} (d : dict K V) k :
  k ∉ dict_keys d -> dict_get d k = None.
Proof.
  intros Hk. destruct (dict_get d k) as [v|] eqn:Hget; [|done].
  by apply dict_get_key in Hget.
Qed.

Lemma dict_set_set {K V} `{EqDecision K} (d : dict K V) k v v' :
  dict_set (dict_set d k v) k v' = dict_set d k v'.
Proof.
  induction d as [|[k0 v0] d IH]; simpl.
  - by rewrite decide_True.
  - destruct (decide (k0 = k)) as [->|Hne]; simpl.
    + by rewrite decide_True.
    + by rewrite decide_False, IH.
Qed.

Section FabricTable.
Import Mininet ECMPRouter.

(** Appending rules to the entry of one switch, one by one. *)
Lemma add_rules (rules : list rule) rt sw :
  fold_left (fun rt r => add_rule rt sw r) rules rt =
  match rules with
  | [] => rt
  | _ => dict_set rt sw (rules_of rt sw ++ rules)
  end.
Proof.
  revert rt. induction rules as [|r rules IH]; intros rt; [done|].
  cbn [fold_left]. rewrite IH. destruct rules as [|r' rules]; [done|].
  rewrite rules_of_add_eq. unfold add_rule. by rewrite dict_set_set, <- app_assoc.
Qed.

Lemma add_rules_fresh (rules : list rule) rt sw :
  rules <> [] -> sw ∉ dict_keys rt ->
  fold_left (fun rt r => add_rule rt sw r) rules rt = rt ++ [(sw, rules)].
Proof.
  intros Hne Hfresh. rewrite add_rules. destruct rules as [|r rules]; [done|].
  unfold rules_of. rewrite dict_get_fresh by done. simpl. by apply dict_set_fresh.
Qed.

Lemma adds_map {A} (f : A -> rule) xs rt sw :
  fold_left (fun rt x => add_rule rt sw (f x)) xs rt =
  fold_left (fun rt r => add_rule rt sw r) (map f xs) rt.
Proof. revert rt. induction xs as [|x xs IH]; intros rt; simpl; [done | apply IH]. Qed.

Lemma local_rules_loop_adds l H rt :
  local_rules_loop (leaf_name l) (l + 1) H rt =
  fold_left (fun rt r => add_rule rt (leaf_name l) r) (local_rules l H) rt.
Proof. apply adds_map. Qed.

Lemma remote_rules_loop_adds l L H port_to_spine rt :
  remote_rules_loop (leaf_name l) l L H port_to_spine rt =
  fold_left (fun rt r => add_rule rt (leaf_name l) r)
    (remote_rules l L H (map snd port_to_spine)) rt.
Proof.
  unfold remote_rules_loop, remote_rules. generalize (seq 0 L) as remotes.
  intros remotes. revert rt. induction remotes as [|remote remotes IH]; intros rt; simpl.
  - done.
  - rewrite IH, fold_left_app. destruct (remote =? l)%nat; [done|]. f_equal.
    apply (adds_map (fun h => mk_rule (host_ip (remote + 1) (h + 1)) (map snd port_to_spine))).
Qed.

(** The ports of a spine of the fabric, by leaf number. *)
Lemma leaf_port_get (L l : nat) :
  (l < L)%nat ->
  dict_get (map (fun l => ((l + 1)%nat, (l + 1)%nat)) (seq 0 L)) (l + 1)%nat = Some (l + 1)%nat.
Proof.
  intros Hl. replace L with (l + S (L - S l))%nat by lia.
  rewrite seq_app, map_app. simpl.
  assert (forall (d d' : dict nat nat) k v,
            k ∉ dict_keys d -> dict_get (d ++ (k, v) :: d') k = Some v) as Hmid.
  { intros d d' k v. induction d as [|[k0 v0] d IH]; simpl; intros Hk.
    - by rewrite decide_True.
    - apply not_elem_of_cons in Hk as [Hne Hk]. rewrite decide_False by done. by apply IH. }
  apply Hmid. unfold dict_keys. rewrite map_map. simpl.
  intros (l' & Heq & Hl'%elem_of_seq)%list_elem_of_fmap. lia.
Qed.

Lemma spine_rules_loop_adds s L H rt :
  spine_rules_loop (spine_name s) L H (map (fun l => ((l + 1)%nat, (l + 1)%nat)) (seq 0 L)) rt =
  fold_left (fun rt r => add_rule rt (spine_name s) r) (spine_rules L H) rt.
Proof.
  unfold spine_rules_loop, spine_rules.
  set (port_to_leaf := map (fun l => ((l + 1)%nat, (l + 1)%nat)) (seq 0 L)).
  assert (forall leaves rt,
            (forall l, l ∈ leaves -> (l < L)%nat) ->
            fold_left
              (fun rt leaf_idx =>
                 let leaf_num := (leaf_idx + 1)%nat in
                 match dict_get port_to_leaf leaf_num with
                 | Some port =>
                     fold_left
                       (fun rt h =>
                          add_rule rt (spine_name s) (mk_rule (host_ip leaf_num (h + 1)) [port]))
                       (seq 0 H) rt
                 | None => rt
                 end)
              leaves rt
            = fold_left (fun rt r => add_rule rt (spine_name s) r)
                (flat_map
                   (fun l => map (fun h => mk_rule (host_ip (l + 1) (h + 1)) [(l + 1)%nat])
                               (seq 0 H))
                   leaves) rt) as Hloop.
  { induction leaves as [|l leaves IH]; intros rt0 Hbound; [done|].
    cbn [fold_left flat_map]. cbv zeta.
    rewrite IH by (intros l' Hl'; apply Hbound; by right).
    unfold port_to_leaf. rewrite leaf_port_get by (apply Hbound; left).
    rewrite fold_left_app. f_equal.
    apply (adds_map (fun h => mk_rule (host_ip (l + 1) (h + 1)) [(l + 1)%nat])). }
  apply Hloop. intros l Hl%elem_of_seq. lia.
Qed.

Lemma leaf_port_num l p peer :
  port_num (leaf_name l) (mk_intf (leaf_name l +:+ "-eth" +:+ str p) peer) = Ok p.
Proof. apply port_num_eth. by left. Qed.

Lemma spine_port_num s p peer :
  port_num (spine_name s) (mk_intf (spine_name s +:+ "-eth" +:+ str p) peer) = Ok p.
Proof. apply port_num_eth. by right. Qed.

Lemma spine_ports_found S H l :
  for_each (port_to_spine_body (leaf_name l)) (leaf_intfs S H l) [] =
  Ok (map (fun s => (spine_name s, (H + s + 1)%nat)) (seq 0 S)).
Proof.
  destruct (port_to_spine_loop (leaf_name l) (leaf_intfs S H l) []) as (entries & -> & Hall).
  - rewrite leaf_spine_facing. apply Forall_forall.
    intros i (s & -> & _)%list_elem_of_fmap. exists (H + s + 1)%nat.
    apply port_num_eth. by left.
  - rewrite leaf_spine_facing, map_map. apply spine_names_nodup.
  - simpl. f_equal. rewrite leaf_spine_facing in Hall. revert entries Hall.
    generalize (seq 0 S) as spines. induction spines as [|s spines IH]; intros entries Hall.
    + by apply Forall2_nil_inv_l in Hall as ->.
    + simpl in Hall. apply Forall2_cons_inv_l in Hall as ([peer p] & rest & [Hpeer Hp] & Hall & ->).
      simpl in Hpeer, Hp. rewrite leaf_port_num in Hp.
      simpl. f_equal; [congruence | by apply IH].
Qed.

Lemma leaf_ports_found L s :
  for_each (port_to_leaf_body (spine_name s)) (spine_intfs L s) [] =
  Ok (map (fun l => ((l + 1)%nat, (l + 1)%nat)) (seq 0 L)).
Proof.
  unfold spine_intfs. cbn [for_each]. unfold port_to_leaf_body at 1. cbn [lo intf_peer bind].
  assert (forall n a,
            for_each (port_to_leaf_body (spine_name s))
              (map (fun l => mk_intf (spine_name s +:+ "-eth" +:+ str (l + 1))
                               (Some (leaf_name l))) (seq a n))
              (map (fun l => ((l + 1)%nat, (l + 1)%nat)) (seq 0 a))
            = Ok (map (fun l => ((l + 1)%nat, (l + 1)%nat)) (seq 0 (a + n)))) as Hloop.
  { induction n as [|n IH]; intros a; [by rewrite Nat.add_0_r|].
    cbn [seq map for_each]. unfold port_to_leaf_body at 1. cbn [intf_peer].
    rewrite leaf_is_leaf, spine_port_num. cbn [bind].
    rewrite leaf_number. cbn [bind]. rewrite dict_set_fresh.
    - replace (a + S n)%nat with (S a + n)%nat by lia. rewrite <- IH.
      by rewrite seq_S, map_app.
    - unfold dict_keys. rewrite map_map. simpl.
      intros (l' & Heq & Hl'%elem_of_seq)%list_elem_of_fmap. lia. }
  apply (Hloop L 0%nat).
Qed.

Lemma leaf_round_exact S L H rt l :
  (l < L)%nat -> (0 < H)%nat -> leaf_name l ∉ dict_keys rt ->
  leaf_body (leaf_spine_net S L H) (mk_info S L H) rt l =
  Ok (rt ++ [(leaf_name l, local_rules l H ++ remote_rules l L H (spine_ports S H))]).
Proof.
  intros Hl HH Hfresh. unfold leaf_body, get. cbv zeta.
  rewrite leaf_node by done. cbn [bind]. rewrite spine_ports_found. cbn [bind].
  cbn [num_leaves hosts_per_leaf]. f_equal.
  rewrite remote_rules_loop_adds, local_rules_loop_adds, <- fold_left_app, map_map.
  apply add_rules_fresh; [|done].
  unfold local_rules. destruct H; [lia | done].
Qed.

Lemma spine_round_exact S L H rt s :
  (s < S)%nat -> (0 < L)%nat -> (0 < H)%nat -> spine_name s ∉ dict_keys rt ->
  spine_body (leaf_spine_net S L H) (mk_info S L H) rt (spine_name s) =
  Ok (rt ++ [(spine_name s, spine_rules L H)]).
Proof.
  intros Hs HL HH Hfresh. unfold spine_body, get.
  rewrite spine_node by done. cbn [bind]. rewrite leaf_ports_found. cbn [bind].
  cbn [num_leaves hosts_per_leaf]. f_equal.
  rewrite spine_rules_loop_adds. apply add_rules_fresh; [|done].
  unfold spine_rules. destruct L; [lia|]. destruct H; [lia | done].
Qed.

(** X15. The routing table of the fabric that [LeafSpineTopo] describes,
    with [S] spines, [L >= 1] leaves and [H >= 1] hosts per leaf (hosts on
    the leaf ports [1..H], spines on [H+1..H+S], leaf [l] on port [l] of
    every spine): [build_routing_table] returns the leaves in order, then
    the spines in order.  A leaf sends each of its own hosts to the host's
    port and every host of another leaf to all the spine ports
    [H+1 .. H+S]; a spine sends the hosts of leaf [l] to its port [l], and
    has no other rule. *)
Theorem fabric_routing_table (S L H : nat) :
  (0 < L)%nat -> (0 < H)%nat ->
  build_routing_table (leaf_spine_net S L H) (mk_info S L H) = Ok (fabric_table S L H).
Proof.
  intros HL HH. unfold build_routing_table, fabric_table. cbn [num_leaves num_spines].
  set (leaf_entry := fun l => (leaf_name l,
                        local_rules l H ++ remote_rules l L H (spine_ports S H))).
  set (spine_entry := fun s => (spine_name s, spine_rules L H)).
  assert (forall n a, (a + n <= L)%nat ->
            for_each (leaf_body (leaf_spine_net S L H) (mk_info S L H)) (seq a n)
              (map leaf_entry (seq 0 a))
            = Ok (map leaf_entry (seq 0 (a + n)))) as Hleaves.
  { induction n as [|n IH]; intros a Ha; [by rewrite Nat.add_0_r|].
    cbn [seq for_each]. rewrite leaf_round_exact; [|lia|done|].
    - cbn [bind]. replace (a + Datatypes.S n)%nat with (Datatypes.S a + n)%nat by lia.
      rewrite <- IH by lia. by rewrite seq_S, map_app.
    - unfold dict_keys. rewrite map_map. simpl.
      intros (l' & Heq%leaf_name_inj & Hl'%elem_of_seq)%list_elem_of_fmap. lia. }
  specialize (Hleaves L 0%nat). simpl in Hleaves. rewrite Hleaves by lia. cbn [bind].
  assert (forall n a, (a + n <= S)%nat ->
            for_each (spine_body (leaf_spine_net S L H) (mk_info S L H))
              (map spine_name (seq a n))
              (map leaf_entry (seq 0 L) ++ map spine_entry (seq 0 a))
            = Ok (map leaf_entry (seq 0 L) ++ map spine_entry (seq 0 (a + n)))) as Hspines.
  { induction n as [|n IH]; intros a Ha; [by rewrite Nat.add_0_r|].
    cbn [seq map for_each]. rewrite spine_round_exact; [|lia|done|done|].
    - cbn [bind]. replace (a + Datatypes.S n)%nat with (Datatypes.S a + n)%nat by lia.
      rewrite <- IH by lia. by rewrite seq_S, map_app, <- app_assoc.
    - unfold dict_keys. rewrite map_app, !map_map. simpl.
      intros [(l' & Heq & _)%list_elem_of_fmap
             |(s' & Heq%spine_name_inj & Hs'%elem_of_seq)%list_elem_of_fmap]%elem_of_app.
      + by apply (leaf_not_spine l' a).
      + lia. }
  specialize (Hspines S 0%nat). simpl in Hspines. rewrite app_nil_r in Hspines.
  apply Hspines. lia.
Qed.

Lemma fabric_routing_table_witness :
  build_routing_table (leaf_spine_net 2 2 1) (mk_info 2 2 1) =
  Ok [("leaf1", [mk_rule "10.0.1.1" [1]; mk_rule "10.0.2.1" [2; 3]]);
      ("leaf2", [mk_rule "10.0.2.1" [1]; mk_rule "10.0.1.1" [2; 3]]);
      ("spine1", [mk_rule "10.0.1.1" [1]; mk_rule "10.0.2.1" [2]]);
      ("spine2", [mk_rule "10.0.1.1" [1]; mk_rule "10.0.2.1" [2]])].
Proof. apply (fabric_routing_table 2 2 1); lia. Defined.

End FabricTable.

(** ** The two installations on the leaf-spine fabric *)

Lemma for_each_appends {A B} (body : list B -> A -> result (list B)) (F : A -> list B) xs log :
  (forall log x, x ∈ xs -> body log x = Ok (log ++ F x)) ->
  for_each body xs log = Ok (log ++ flat_map F xs).
Proof.
  revert log. induction xs as [|x xs IH]; intros log Hbody; simpl.
  - by rewrite app_nil_r.
  - rewrite Hbody by left. cbn [bind]. rewrite IH, <- app_assoc; [done|].
    intros log' x' Hx'. apply Hbody. by right.
Qed.

Lemma fold_left_appends {A B} (F : A -> list B) xs (log : list B) :
  fold_left (fun log x => log ++ F x) xs log = log ++ flat_map F xs.
Proof.
  revert log. induction xs as [|x xs IH]; intros log; simpl.
  - by rewrite app_nil_r.
  - by rewrite IH, <- app_assoc.
Qed.

Section Installations.
Import Mininet ECMPRouter.
Context (hash : string -> Z).

Lemma rule_body_commands switch_name log r :
  rule_body hash switch_name log r = Ok (log ++ rule_commands hash switch_name r).
Proof.
  unfold rule_body, rule_commands. destruct (out_ports r) as [|port [|port' ports]]; done.
Qed.

(** What [install_ecmp_rules] sends for a table whose switches are nodes of
    the network. *)
Lemma install_ecmp_commands (n : net) (routing_table : dict string (list rule)) :
  (forall sw, sw ∈ dict_keys routing_table -> is_Some (n !! sw)) ->
  install_ecmp_rules hash n routing_table = Ok (flat_map (switch_commands hash) routing_table).
Proof.
  intros Hnodes. unfold install_ecmp_rules.
  rewrite (for_each_appends _ (switch_commands hash)); [done|].
  intros log [sw rules] Hkv. unfold switch_rules_body, get. cbn [fst snd].
  destruct (Hnodes sw) as [intfs ->].
  { apply list_elem_of_fmap. by exists (sw, rules). }
  cbn [bind].
  rewrite (for_each_appends _ (rule_commands hash sw))
    by (intros; apply rule_body_commands).
  cbn [bind]. unfold switch_commands. cbn [fst snd].
  by rewrite <- !app_assoc.
Qed.

Lemma spine_ports_loop leaf intfs (ports : list nat) :
  Forall (fun i => returns (port_num leaf i)) (List.filter (faces "spine") intfs) ->
  for_each (AdaptiveRules.spine_ports_body leaf) intfs ports =
  Ok (ports ++ map (fun i => match port_num leaf i with Ok p => p | Raise _ => 0%nat end)
                (List.filter (faces "spine") intfs)).
Proof.
  revert ports. induction intfs as [|i intfs IH]; intros ports Hports; simpl.
  - by rewrite app_nil_r.
  - unfold AdaptiveRules.spine_ports_body at 1. simpl in Hports.
    destruct (faces "spine" i) eqn:Hfaces; unfold faces in Hfaces;
      destruct (intf_peer i) as [peer|]; try discriminate; try rewrite Hfaces.
    + apply Forall_cons in Hports as [[p Hp] Hports]. rewrite Hp. cbn [bind].
      rewrite IH by done. simpl. by rewrite Hp, <- app_assoc.
    + cbn [bind]. by apply IH.
    + cbn [bind]. by apply IH.
Qed.

Lemma adaptive_spine_ports S H l :
  for_each (AdaptiveRules.spine_ports_body (leaf_name l)) (leaf_intfs S H l) [] =
  Ok (spine_ports S H).
Proof.
  rewrite spine_ports_loop.
  - rewrite leaf_spine_facing, map_map. simpl. f_equal. unfold spine_ports.
    apply map_ext. intros s. by rewrite leaf_port_num.
  - rewrite leaf_spine_facing. apply Forall_forall.
    intros i (s & -> & _)%list_elem_of_fmap. eexists. apply leaf_port_num.
Qed.

Lemma local_flows_commands l H log :
  AdaptiveRules.local_flows (leaf_name l) (l + 1) H log =
  log ++ flat_map (rule_commands hash (leaf_name l)) (local_rules l H).
Proof.
  unfold AdaptiveRules.local_flows, local_rules. cbv zeta.
  rewrite (fold_left_appends
             (fun h => [(leaf_name l,
                         add_flow (leaf_name l) (output_flow (host_ip (l + 1) (h + 1)) (h + 1)))])).
  f_equal. generalize (seq 0 H) as hosts. induction hosts as [|h hosts IH]; [done|].
  simpl. by rewrite IH.
Qed.

Lemma remote_flows_commands l L H (ports : list nat) log :
  length ports <> 1%nat ->
  AdaptiveRules.remote_flows hash (leaf_name l) l L H ports log =
  log ++ flat_map (rule_commands hash (leaf_name l)) (remote_rules l L H ports).
Proof.
  intros Hports. unfold AdaptiveRules.remote_flows, remote_rules. cbv zeta.
  assert (forall r, out_ports r = ports ->
            rule_commands hash (leaf_name l) r =
            [(leaf_name l,
              add_group (leaf_name l) (group_id hash (leaf_name l) (dst_ip r)) (buckets ports));
             (leaf_name l,
              add_flow (leaf_name l)
                (group_flow (dst_ip r) (group_id hash (leaf_name l) (dst_ip r))))]) as Hgroup.
  { intros r Hr. unfold rule_commands. rewrite Hr.
    by destruct ports as [|port [|port' ports]]. }
  generalize (seq 0 L) as remotes. intros remotes. revert log.
  induction remotes as [|remote remotes IH]; intros log; simpl.
  - by rewrite app_nil_r.
  - rewrite IH. destruct (remote =? l)%nat; [done|].
    rewrite flat_map_app, app_assoc. f_equal.
    rewrite (fold_left_appends
               (fun h => [(leaf_name l,
                           add_group (leaf_name l)
                             (group_id hash (leaf_name l) (host_ip (remote + 1) (h + 1)))
                             (buckets ports));
                          (leaf_name l,
                           add_flow (leaf_name l)
                             (group_flow (host_ip (remote + 1) (h + 1))
                                (group_id hash (leaf_name l)
                                   (host_ip (remote + 1) (h + 1)))))])).
    f_equal. generalize (seq 0 H) as hosts. induction hosts as [|h hosts IHh]; [done|].
    simpl. rewrite IHh. by rewrite Hgroup.
Qed.

Lemma adaptive_leaf_round S L H log l :
  (l < L)%nat -> S <> 1%nat ->
  AdaptiveRules.leaf_body hash (leaf_spine_net S L H) (mk_info S L H) log l =
  Ok (log ++ switch_commands hash
               (leaf_name l, local_rules l H ++ remote_rules l L H (spine_ports S H))).
Proof.
  intros Hl HS. unfold AdaptiveRules.leaf_body, get. cbv zeta.
  rewrite leaf_node by done. cbn [bind]. rewrite adaptive_spine_ports. cbn [bind].
  cbn [num_leaves hosts_per_leaf].
  rewrite remote_flows_commands, local_flows_commands
    by (unfold spine_ports; by rewrite length_map, length_seq).
  unfold switch_commands. cbn [fst snd].
  rewrite flat_map_app, <- !app_assoc. done.
Qed.

Lemma adaptive_spine_round S L H log s :
  (s < S)%nat ->
  AdaptiveRules.spine_body (leaf_spine_net S L H) (mk_info S L H) log (spine_name s) =
  Ok (log ++ switch_commands hash (spine_name s, spine_rules L H)).
Proof.
  intros Hs. unfold AdaptiveRules.spine_body, get.
  rewrite spine_node by done. cbn [bind]. rewrite leaf_ports_found. cbn [bind].
  cbn [hosts_per_leaf].
  set (port_to_leaf := map (fun l => ((l + 1)%nat, (l + 1)%nat)) (seq 0 L)).
  rewrite (for_each_appends _
             (fun leaf_num =>
                map (fun h => (spine_name s,
                               add_flow (spine_name s)
                                 (output_flow (host_ip leaf_num (h + 1)) leaf_num)))
                  (seq 0 H))).
  - cbn [bind]. unfold switch_commands, spine_rules. cbn [fst snd].
    assert (flat_map
              (fun leaf_num =>
                 map (fun h => (spine_name s,
                                add_flow (spine_name s)
                                  (output_flow (host_ip leaf_num (h + 1)) leaf_num)))
                   (seq 0 H))
              (dict_keys port_to_leaf)
            = flat_map (rule_commands hash (spine_name s))
                (flat_map
                   (fun l => map (fun h => mk_rule (host_ip (l + 1) (h + 1)) [(l + 1)%nat])
                               (seq 0 H))
                   (seq 0 L))) as ->.
    { unfold port_to_leaf, dict_keys. rewrite map_map. simpl.
      generalize (seq 0 L) as leaves. induction leaves as [|l leaves IH]; [done|].
      simpl. rewrite flat_map_app, IH. f_equal.
      generalize (seq 0 H) as hosts. induction hosts as [|h hosts IHh]; [done|].
      simpl. by rewrite IHh. }
    by rewrite <- !app_assoc.
  - intros log' leaf_num Hleaf. unfold AdaptiveRules.leaf_flows.
    unfold port_to_leaf, dict_keys in Hleaf. rewrite map_map in Hleaf. simpl in Hleaf.
    apply list_elem_of_fmap in Hleaf as (l & -> & Hl%elem_of_seq).
    rewrite (for_each_appends _
               (fun h => [(spine_name s,
                           add_flow (spine_name s)
                             (output_flow (host_ip (l + 1) (h + 1)) (l + 1)))])).
    + f_equal.
    + intros log'' h _. cbv zeta. unfold port_to_leaf.
      by rewrite leaf_port_get by lia.
Qed.

(** X16. On the fabric that [LeafSpineTopo] describes, adaptive routing
    installs what ECMP installs: with [S] spines, [S] other than 1,
    [L >= 1] leaves and [H >= 1] hosts per leaf, [install_adaptive_rules]
    sends, switch by switch and command by command, the commands that
    [install_ecmp_rules] sends for the table of [build_routing_table] (the
    group identifiers being taken by the same [hash]). *)
Theorem installations_agree (S L H : nat) :
  S <> 1%nat -> (0 < L)%nat -> (0 < H)%nat ->
  exists table commands,
    build_routing_table (leaf_spine_net S L H) (mk_info S L H) = Ok table /\
    install_ecmp_rules hash (leaf_spine_net S L H) table = Ok commands /\
    AdaptiveRules.install_adaptive_rules hash (leaf_spine_net S L H) (mk_info S L H)
      = Ok commands.
Proof.
  intros HS HL HH.
  exists (fabric_table S L H), (flat_map (switch_commands hash) (fabric_table S L H)).
  split; [by apply fabric_routing_table|]. split.
  - apply install_ecmp_commands. intros sw. unfold fabric_table, dict_keys.
    rewrite map_app, !map_map. simpl.
    intros [(l & -> & Hl%elem_of_seq)%list_elem_of_fmap
           |(s & -> & Hs%elem_of_seq)%list_elem_of_fmap]%elem_of_app.
    + rewrite leaf_node by lia. done.
    + rewrite spine_node by lia. done.
  - unfold AdaptiveRules.install_adaptive_rules. cbv zeta. cbn [num_leaves num_spines].
    rewrite (for_each_appends _
               (fun l => switch_commands hash
                  (leaf_name l, local_rules l H ++ remote_rules l L H (spine_ports S H)))).
    2:{ intros log l Hl%elem_of_seq. apply adaptive_leaf_round; [lia | done]. }
    cbn [bind app].
    rewrite (for_each_appends _
               (fun spine => switch_commands hash (spine, spine_rules L H))).
    2:{ intros log spine (s & -> & Hs%elem_of_seq)%list_elem_of_fmap.
        apply adaptive_spine_round. lia. }
    f_equal. unfold fabric_table. rewrite flat_map_app. f_equal.
    + generalize (seq 0 L) as leaves. induction leaves as [|l leaves IH]; [done|].
      simpl. by rewrite IH.
    + generalize (seq 0 S) as spines. induction spines as [|s spines IH]; [done|].
      simpl. by rewrite IH.
Qed.

End Installations.

Lemma installations_agree_witness :
  exists table commands,
    ECMPRouter.build_routing_table (leaf_spine_net 2 2 1) (ECMPRouter.mk_info 2 2 1)
      = Ok table /\
    ECMPRouter.install_ecmp_rules (fun _ => 42%Z) (leaf_spine_net 2 2 1) table
      = Ok commands /\
    AdaptiveRules.install_adaptive_rules (fun _ => 42%Z) (leaf_spine_net 2 2 1)
      (ECMPRouter.mk_info 2 2 1) = Ok commands.
Proof. apply (installations_agree (fun _ => 42%Z) 2 2 1); lia. Defined.

(** ** LeafSpineTopo: what the topology consists of *)

Section Topology.
Import Mininet ECMPRouter LeafSpineTopo.

Lemma seq_snoc (n : nat) : seq 0 (Datatypes.S n) = seq 0 n ++ [n].
Proof. by rewrite seq_S. Qed.

Lemma fold_left_snoc {A B} (f : A -> B -> A) xs x a :
  fold_left f (xs ++ [x]) a = f (fold_left f xs a) x.
Proof. by rewrite fold_left_app. Qed.

Lemma host_cidr l h :
  "10.0." +:+ str l +:+ "." +:+ str h +:+ "/24" = host_ip l h +:+ "/24".
Proof. unfold host_ip. by rewrite !append_assoc. Qed.

Lemma spine_loop self S :
  fold_left spine_step (seq 0 S) (self, []) =
  (mk (num_spines self) (num_leaves self) (hosts_per_leaf self) (bw self) (delay self)
      (nodes self ++ map (fun s => Switch (spine_name s) (hex 16 (s + 1))) (seq 0 S))
      (links self),
   map spine_name (seq 0 S)).
Proof.
  induction S as [|S IH].
  - simpl. rewrite app_nil_r. by destruct self.
  - rewrite seq_snoc, fold_left_snoc, IH, !map_app. unfold spine_step, add_node. simpl.
    by rewrite <- app_assoc.
Qed.

Lemma host_loop leaf l self host_id H :
  fold_left (host_step leaf l) (seq 0 H) (self, host_id) =
  (mk (num_spines self) (num_leaves self) (hosts_per_leaf self) (bw self) (delay self)
      (nodes self ++
       map (fun h =>
              Host ("h" +:+ str (host_id + h))
                (host_ip (l + 1) (h + 1) +:+ "/24")
                ("00:00:00:00:" +:+ hex 2 (l + 1) +:+ ":" +:+ hex 2 (h + 1)))
         (seq 0 H))
      (links self ++
       map (fun h => mk_link ("h" +:+ str (host_id + h)) leaf (bw self) (delay self) 1000)
         (seq 0 H)),
   (host_id + H)%nat).
Proof.
  induction H as [|H IH].
  - simpl. rewrite !app_nil_r, Nat.add_0_r. by destruct self.
  - rewrite seq_snoc, fold_left_snoc, IH, !map_app. unfold host_step, add_node, addLink.
    simpl. rewrite <- !app_assoc, host_cidr. f_equal. lia.
Qed.

Lemma spine_links_loop leaf self (spines : list string) :
  fold_left (fun self spine => addLink self leaf spine) spines self =
  mk (num_spines self) (num_leaves self) (hosts_per_leaf self) (bw self) (delay self)
     (nodes self)
     (links self ++ map (fun spine => mk_link leaf spine (bw self) (delay self) 1000) spines).
Proof.
  revert self. induction spines as [|spine spines IH]; intros self; simpl.
  - rewrite app_nil_r. by destruct self.
  - rewrite IH. unfold addLink. simpl. by rewrite <- app_assoc.
Qed.

Lemma leaf_loop S total H bw delay nodes0 L :
  fold_left (leaf_step (map spine_name (seq 0 S))) (seq 0 L)
    (mk S total H bw delay nodes0 [], [], 1%nat) =
  (mk S total H bw delay
      (nodes0 ++
       flat_map
         (fun l =>
            Switch (leaf_name l) (hex 16 (l + 1 + S))
            :: map (fun h =>
                      Host (host_name l H h)
                        (host_ip (l + 1) (h + 1) +:+ "/24")
                        ("00:00:00:00:" +:+ hex 2 (l + 1) +:+ ":" +:+ hex 2 (h + 1)))
                 (seq 0 H))
         (seq 0 L))
      (fabric_links S L H bw delay),
   map leaf_name (seq 0 L),
   (1 + L * H)%nat).
Proof.
  unfold fabric_links. induction L as [|L IH].
  - simpl. by rewrite app_nil_r.
  - rewrite seq_snoc, fold_left_snoc, IH, !flat_map_app, map_app. clear IH.
    unfold leaf_step. cbn [num_spines hosts_per_leaf].
    rewrite host_loop. rewrite spine_links_loop.
    unfold add_node. cbn [num_spines num_leaves hosts_per_leaf LeafSpineTopo.bw
                          LeafSpineTopo.delay nodes links flat_map].
    rewrite !app_nil_r, map_map, <- !app_assoc.
    assert (forall h, "h" +:+ str (1 + L * H + h) = host_name L H h) as Hname.
    { intros h. unfold host_name. do 2 f_equal. lia. }
    setoid_rewrite Hname. f_equal. simpl. lia.
Qed.

Lemma init_nodes_links S L H bw delay :
  nodes (init S L H bw delay) = fabric_nodes S L H /\
  links (init S L H bw delay) = fabric_links S L H bw delay.
Proof.
  unfold init. rewrite spine_loop.
  cbn [num_spines num_leaves hosts_per_leaf LeafSpineTopo.bw LeafSpineTopo.delay nodes links app].
  rewrite leaf_loop. done.
Qed.

Lemma host_name_inj l h l' h' H :
  (h < H)%nat -> (h' < H)%nat -> host_name l H h = host_name l' H h' -> l = l' /\ h = h'.
Proof.
  unfold host_name. simpl. intros Hh Hh' [= Heq%str_inj].
  apply (Nat.div_mod_unique H); [done | done | lia].
Qed.

Lemma host_not_leaf l H h l' : host_name l H h <> leaf_name l'.
Proof. unfold host_name, leaf_name. simpl. discriminate. Qed.

Lemma host_not_spine_name l H h s : host_name l H h <> spine_name s.
Proof. unfold host_name, spine_name. simpl. discriminate. Qed.

Lemma flat_map_nodup {A B} (F : A -> list B) xs :
  NoDup xs ->
  (forall x, x ∈ xs -> NoDup (F x)) ->
  (forall x x' y, x ∈ xs -> x' ∈ xs -> y ∈ F x -> y ∈ F x' -> x = x') ->
  NoDup (flat_map F xs).
Proof.
  induction 1 as [|x xs Hx Hxs IH]; intros Hrows Hdisj; simpl; [constructor|].
  apply NoDup_app. split; [apply Hrows; left|]. split.
  - intros y Hy Hin. apply list_elem_of_In, in_flat_map in Hin as (x' & Hx' & Hy').
    apply list_elem_of_In in Hx', Hy'.
    assert (x = x') as -> by (eapply Hdisj; [left | by right | done..]). done.
  - apply IH.
    + intros x' Hx'. apply Hrows. by right.
    + intros x1 x2 y H1 H2. apply Hdisj; by right.
Qed.

Lemma flat_map_length {A B} (F : A -> list B) xs k :
  (forall x, length (F x) = k) -> length (flat_map F xs) = (length xs * k)%nat.
Proof.
  intros HF. induction xs as [|x xs IH]; simpl; [done|].
  by rewrite length_app, HF, IH.
Qed.

(** X17. What [LeafSpineTopo] builds: [S] spine switches, then each of the
    [L] leaves followed by its [H] hosts, the hosts being numbered
    [h1, h2, ...] across the leaves and host [h] of leaf [l] having the
    address [10.0.l.h/24] that the routing tables use; each host is linked
    to its leaf, and each leaf to every spine, the host links of a leaf
    coming before its spine links.  All names are distinct, and there are
    [S + L * (1 + H)] nodes and [L * (H + S)] links. *)
Theorem leaf_spine_topology S L H bw delay :
  let topo := init S L H bw delay in
  nodes topo = fabric_nodes S L H /\
  links topo = fabric_links S L H bw delay /\
  NoDup (map node_name (nodes topo)) /\
  length (nodes topo) = (S + L * (1 + H))%nat /\
  length (links topo) = (L * (H + S))%nat.
Proof.
  cbv zeta. destruct (init_nodes_links S L H bw delay) as [-> ->].
  split; [done|]. split; [done|]. split; [|split].
  - unfold fabric_nodes. rewrite map_app, map_map. simpl.
    assert (map node_name
              (flat_map
                 (fun l =>
                    Switch (leaf_name l) (hex 16 (l + 1 + S))
                    :: map (fun h =>
                              Host (host_name l H h) (host_ip (l + 1) (h + 1) +:+ "/24")
                                ("00:00:00:00:" +:+ hex 2 (l + 1) +:+ ":" +:+ hex 2 (h + 1)))
                         (seq 0 H))
                 (seq 0 L))
            = flat_map (fun l => leaf_name l :: map (host_name l H) (seq 0 H)) (seq 0 L))
      as ->.
    { generalize (seq 0 L) as leaves. induction leaves as [|l leaves IH]; [done|].
      simpl. by rewrite map_app, map_map, IH. }
    assert (forall l x, x ∈ leaf_name l :: map (host_name l H) (seq 0 H) ->
              x = leaf_name l \/ exists h, (h < H)%nat /\ x = host_name l H h) as Hrow.
    { intros l x [->|(h & -> & Hh%elem_of_seq)%list_elem_of_fmap]%elem_of_cons;
        [by left | right]. exists h. split; [lia | done]. }
    apply NoDup_app. split; [|split].
    + apply NoDup_fmap_2_strong; [|apply NoDup_seq].
      intros s s' _ _. apply spine_name_inj.
    + intros x (s & -> & _)%list_elem_of_fmap Hin.
      apply list_elem_of_In, in_flat_map in Hin as (l & _ & Hx).
      apply list_elem_of_In, Hrow in Hx as [Hx | (h & _ & Hx)].
      * by apply (leaf_not_spine l s).
      * by apply (host_not_spine_name l H h s).
    + apply flat_map_nodup; [apply NoDup_seq| |].
      * intros l _. constructor.
        -- intros (h & Heq & _)%list_elem_of_fmap. by apply (host_not_leaf l H h l).
        -- apply NoDup_fmap_2_strong; [|apply NoDup_seq].
           intros h h' Hh%elem_of_seq Hh'%elem_of_seq Heq.
           apply (host_name_inj l h l h' H) in Heq as [_ ?]; [done | lia..].
      * intros l l' x _ _ [-> | (h & Hh & ->)]%Hrow [Hx | (h' & Hh' & Hx)]%Hrow.
        -- by apply leaf_name_inj.
        -- symmetry in Hx. by apply host_not_leaf in Hx.
        -- by apply host_not_leaf in Hx.
        -- by apply (host_name_inj l h l' h' H) in Hx as [? _].
  - unfold fabric_nodes.
    rewrite length_app, length_map, length_seq, (flat_map_length _ _ (1 + H)), length_seq;
      [done|].
    intros l. simpl. by rewrite length_map, length_seq.
  - unfold fabric_links.
    rewrite (flat_map_length _ _ (H + S)), length_seq; [done|].
    intros l. by rewrite length_app, !length_map, !length_seq.
Qed.

Lemma peers_of_app links1 links2 name :
  peers_of (links1 ++ links2) name = peers_of links1 name ++ peers_of links2 name.
Proof. apply omap_app. Qed.

Lemma peers_of_flat_map {A} (G : A -> list link) xs name :
  peers_of (flat_map G xs) name = flat_map (fun x => peers_of (G x) name) xs.
Proof.
  induction xs as [|x xs IH]; simpl; [done|]. by rewrite peers_of_app, IH.
Qed.

Lemma flat_map_only {B} (X : list B) (l L : nat) :
  (l < L)%nat ->
  flat_map (fun l' => if decide (l' = l) then X else []) (seq 0 L) = X.
Proof.
  intros Hl. replace L with (l + (1 + (L - l - 1)))%nat by lia.
  rewrite !seq_app, !flat_map_app. simpl. rewrite decide_True by done.
  assert (forall xs, l ∉ xs ->
            flat_map (fun l' => if decide (l' = l) then X else []) xs = []) as Hnone.
  { induction xs as [|x xs IH]; [done|]. intros [Hne Hxs]%not_elem_of_cons.
    simpl. rewrite decide_False by done. by apply IH. }
  rewrite !Hnone; [by rewrite !app_nil_r| |]; intros ?%elem_of_seq; lia.
Qed.

Lemma imap_seq {B C} (g : nat -> B -> C) (f : nat -> B) (a n : nat) :
  imap g (map f (seq a n)) = map (fun k => g (k - a)%nat (f k)) (seq a n).
Proof.
  revert a g. induction n as [|n IH]; intros a g; [done|].
  simpl. rewrite Nat.sub_diag. f_equal. rewrite (IH (Datatypes.S a) (g ∘ Datatypes.S)).
  apply map_ext_in. intros k Hk%in_seq. simpl.
  replace (k - a)%nat with (Datatypes.S (k - Datatypes.S a)) by lia. done.
Qed.

Lemma peers_of_all {A} (g : A -> link) (p : A -> string) xs name :
  (forall x, other_end name (g x) = Some (p x)) ->
  peers_of (map g xs) name = map p xs.
Proof.
  intros Hg. unfold peers_of. induction xs as [|x xs IH]; [done|].
  cbn [map omap list_omap]. change (omap (other_end name) (map g xs))
    with (peers_of (map g xs) name) in IH.
  simpl. rewrite Hg. simpl. f_equal. apply IH.
Qed.

Lemma peers_of_none {A} (g : A -> link) xs name :
  (forall x, other_end name (g x) = None) -> peers_of (map g xs) name = [].
Proof.
  intros Hg. unfold peers_of. induction xs as [|x xs IH]; [done|].
  simpl. rewrite Hg. apply IH.
Qed.

Lemma leaf_peers S L H bw delay l :
  (l < L)%nat ->
  peers_of (fabric_links S L H bw delay) (leaf_name l) =
  map (host_name l H) (seq 0 H) ++ map spine_name (seq 0 S).
Proof.
  intros Hl. unfold fabric_links. rewrite peers_of_flat_map.
  rewrite <- (flat_map_only (map (host_name l H) (seq 0 H) ++ map spine_name (seq 0 S)) l L)
    by done.
  apply flat_map_ext. intros l'. rewrite peers_of_app.
  destruct (decide (l' = l)) as [->|Hne].
  - f_equal.
    + apply peers_of_all. intros h. unfold other_end. cbn [link_node1 link_node2].
      rewrite decide_False by apply host_not_leaf. by rewrite decide_True.
    + apply peers_of_all. intros s. unfold other_end. cbn [link_node1 link_node2].
      by rewrite decide_True.
  - rewrite !peers_of_none; [done| |].
    + intros s. unfold other_end. cbn [link_node1 link_node2].
      rewrite decide_False by (intros ?%leaf_name_inj; done).
      rewrite decide_False; [done|]. intros Heq. by apply (leaf_not_spine l s).
    + intros h. unfold other_end. cbn [link_node1 link_node2].
      rewrite decide_False by apply host_not_leaf.
      rewrite decide_False; [done|]. by intros ?%leaf_name_inj.
Qed.

Lemma spine_link_peer S bw delay l s :
  (s < S)%nat ->
  peers_of (map (fun s' => mk_link (leaf_name l) (spine_name s') bw delay 1000) (seq 0 S))
    (spine_name s) = [leaf_name l].
Proof.
  intros Hs. rewrite <- (flat_map_only [leaf_name l] s S) by done.
  unfold peers_of. generalize (seq 0 S) as spines.
  induction spines as [|s' spines IH]; [done|].
  cbn [map omap list_omap flat_map]. unfold other_end at 1. cbn [link_node1 link_node2].
  rewrite decide_False by apply leaf_not_spine.
  destruct (decide (s' = s)) as [->|Hne].
  - rewrite decide_True by done. simpl. f_equal. apply IH.
  - rewrite decide_False by (intros ?%spine_name_inj; done). apply IH.
Qed.

Lemma spine_peers S L H bw delay s :
  (s < S)%nat ->
  peers_of (fabric_links S L H bw delay) (spine_name s) = map leaf_name (seq 0 L).
Proof.
  intros Hs. unfold fabric_links. rewrite peers_of_flat_map.
  generalize (seq 0 L) as leaves. induction leaves as [|l leaves IH]; [done|].
  cbn [flat_map map]. rewrite IH, peers_of_app, spine_link_peer by done.
  rewrite peers_of_none; [done|].
  intros h. unfold other_end. cbn [link_node1 link_node2].
  rewrite decide_False by apply host_not_spine_name.
  rewrite decide_False; [done|]. apply leaf_not_spine.
Qed.

Lemma switch_names_app ns1 ns2 :
  switch_names (ns1 ++ ns2) = switch_names ns1 ++ switch_names ns2.
Proof. apply omap_app. Qed.

Lemma switch_names_switches {A} (f g : A -> string) xs :
  switch_names (map (fun x => Switch (f x) (g x)) xs) = map f xs.
Proof.
  induction xs as [|x xs IH]; [done|].
  change (switch_names (map (fun x => Switch (f x) (g x)) (x :: xs)))
    with (f x :: switch_names (map (fun x => Switch (f x) (g x)) xs)).
  by rewrite IH.
Qed.

Lemma switch_names_hosts {A} (f g h : A -> string) xs :
  switch_names (map (fun x => Host (f x) (g x) (h x)) xs) = [].
Proof. induction xs as [|x xs IH]; [done | exact IH]. Qed.

(** X18. The network of the topology is the one the routing code assumes:
    with Mininet numbering the ports of a switch from 1 in the order of its
    links, a leaf of [LeafSpineTopo] has its [H] hosts on the ports [1..H]
    (the first ports, as [build_routing_table] takes for granted),
    the spines on the ports [H+1 .. H+S], in order, and every spine has leaf
    [l] on port [l]. *)
Theorem topology_network S L H bw delay :
  (forall l, (l < L)%nat ->
     switch_intfs (init S L H bw delay) (leaf_name l) = leaf_intfs S H l) /\
  (forall s, (s < S)%nat ->
     switch_intfs (init S L H bw delay) (spine_name s) = spine_intfs L s) /\
  network_of (init S L H bw delay) = leaf_spine_net S L H.
Proof.
  assert (forall l, (l < L)%nat ->
            switch_intfs (init S L H bw delay) (leaf_name l) = leaf_intfs S H l) as Hleaf.
  { intros l Hl. unfold switch_intfs, leaf_intfs.
    rewrite (proj2 (init_nodes_links S L H bw delay)), leaf_peers by done.
    f_equal. rewrite imap_app, length_map, length_seq. f_equal.
    - rewrite (imap_seq _ (host_name l H)). apply map_ext. intros h.
      by rewrite Nat.sub_0_r.
    - rewrite (imap_seq _ spine_name). apply map_ext. intros s.
      rewrite Nat.sub_0_r. done. }
  assert (forall s, (s < S)%nat ->
            switch_intfs (init S L H bw delay) (spine_name s) = spine_intfs L s) as Hspine.
  { intros s Hs. unfold switch_intfs, spine_intfs.
    rewrite (proj2 (init_nodes_links S L H bw delay)), spine_peers by done.
    f_equal. rewrite (imap_seq _ leaf_name). apply map_ext. intros l.
    by rewrite Nat.sub_0_r. }
  split; [done|]. split; [done|].
  apply map_eq. intros name. unfold network_of.
  rewrite (proj1 (init_nodes_links S L H bw delay)).
  set (topo := init S L H bw delay) in *.
  assert (forall ns,
            foldr (fun n net =>
                     match n with
                     | Switch name _ => <[name := switch_intfs topo name]> net
                     | Host _ _ _ => net
                     end) (∅ : net) ns !! name
            = if decide (name ∈ switch_names ns)
              then Some (switch_intfs topo name) else None) as Hlookup.
  { induction ns as [|n ns IH]; [done|].
    destruct n as [name' dpid'|name' ip mac]; cbn [foldr switch_names omap list_omap].
    - fold (switch_names ns). destruct (decide (name' = name)) as [->|Hne].
      + rewrite decide_True by left. apply lookup_insert_eq.
      + etrans; [by apply lookup_insert_ne|]. etrans; [apply IH|].
        destruct (decide (name ∈ switch_names ns)) as [Hin|Hout].
        * rewrite decide_True; [done | by right].
        * rewrite decide_False; [done|]. by intros [?|?]%elem_of_cons.
    - fold (switch_names ns). apply IH. }
  etrans; [apply Hlookup|]. clear Hlookup.
  assert (switch_names (fabric_nodes S L H) =
          map spine_name (seq 0 S) ++ map leaf_name (seq 0 L)) as ->.
  { unfold fabric_nodes. rewrite switch_names_app, switch_names_switches. f_equal.
    generalize (seq 0 L) as leaves. induction leaves as [|l leaves IH]; [done|].
    cbn [flat_map map]. rewrite switch_names_app, IH.
    change (Switch (leaf_name l) (hex 16 (l + 1 + S)) :: ?hosts)
      with ([Switch (leaf_name l) (hex 16 (l + 1 + S))] ++ hosts).
    by rewrite switch_names_app, switch_names_hosts. }
  destruct (decide (name ∈ map spine_name (seq 0 S) ++ map leaf_name (seq 0 L)))
    as [Hin|Hout].
  - apply elem_of_app in Hin as [(s & -> & Hs%elem_of_seq)%list_elem_of_fmap
                                |(l & -> & Hl%elem_of_seq)%list_elem_of_fmap].
    + rewrite spine_node, Hspine by lia. done.
    + rewrite leaf_node, Hleaf by lia. done.
  - unfold leaf_spine_net. symmetry.
    rewrite (lookup_filled_other spine_name (spine_intfs L)).
    + rewrite (lookup_filled_other leaf_name (leaf_intfs S H)); [done|].
      intros l Hl Heq. apply Hout, elem_of_app. right.
      apply list_elem_of_fmap. by exists l.
    + intros s Hs Heq. apply Hout, elem_of_app. left.
      apply list_elem_of_fmap. by exists s.
Qed.

End Topology.

(** ** ECMPRouter: the equal-cost paths of the fabric *)

Section EqualCostPaths.
Import Mininet ECMPRouter LeafSpineTopo.

Lemma host_is_no_leaf l H h : contains "leaf" (host_name l H h) = false.
Proof.
  unfold host_name. destruct (str_digits (l * H + h + 1)) as [d ->].
  rewrite append_cons, append_nil. cbn [contains String.prefix].
  destruct (ascii_dec "l" "h"); [done|]. apply contains_digits. by left.
Qed.

Lemma spine_is_no_leaf s : contains "leaf" (spine_name s) = false.
Proof.
  unfold spine_name. destruct (str_digits (s + 1)) as [d ->].
  rewrite !append_cons, append_nil. cbn [contains String.prefix].
  repeat (destruct (ascii_dec _ _); [done|]). apply contains_digits. by left.
Qed.

Lemma leaf_is_no_spine l : contains "spine" (leaf_name l) = false.
Proof.
  unfold leaf_name. destruct (str_digits (l + 1)) as [d ->].
  rewrite !append_cons, append_nil. cbn [contains String.prefix].
  repeat (destruct (ascii_dec _ _); [done|]). apply contains_digits. by right.
Qed.

Lemma fabric_spines S L H :
  List.filter (contains "spine") (map node_name (fabric_nodes S L H)) =
  map spine_name (seq 0 S).
Proof.
  unfold fabric_nodes. rewrite map_app, List.filter_app, map_map. simpl.
  rewrite filter_all, filter_none, app_nil_r; [done| |].
  - intros name (n & -> & Hn)%list_elem_of_fmap.
    apply list_elem_of_In, in_flat_map in Hn as (l & _ & Hn).
    apply list_elem_of_In, elem_of_cons in Hn as [->|(h & -> & _)%list_elem_of_fmap].
    + apply leaf_is_no_spine.
    + apply host_not_spine.
  - intros name (s & -> & _)%list_elem_of_fmap. apply spine_is_spine.
Qed.

(** X19. The equal-cost paths of the fabric: over the nodes that
    [LeafSpineTopo] creates, [compute_ecmp_paths] gives between two
    different leaves one path per spine, [leaf, spine, leaf], in the order
    of the spines, so [S] paths in all; from a leaf to itself the one path
    that stays on the leaf; and no path at all from or to a host or a spine
    (unless source and destination are the same node). *)
Theorem ecmp_paths_of_fabric S L H :
  let topology := map node_name (fabric_nodes S L H) in
  (forall src, compute_ecmp_paths src src topology = [[src]]) /\
  (forall l l', l <> l' ->
     compute_ecmp_paths (leaf_name l) (leaf_name l') topology =
     map (fun s => [leaf_name l; spine_name s; leaf_name l']) (seq 0 S)) /\
  (forall src dst, src <> dst ->
     (exists l h, src = host_name l H h) \/ (exists s, src = spine_name s) ->
     compute_ecmp_paths src dst topology = [] /\
     compute_ecmp_paths dst src topology = []).
Proof.
  cbv zeta. split; [|split].
  - intros src. unfold compute_ecmp_paths. by rewrite String.eqb_refl.
  - intros l l' Hne. unfold compute_ecmp_paths.
    destruct (String.eqb_spec (leaf_name l) (leaf_name l')) as [Heq%leaf_name_inj|_];
      [done|].
    rewrite !leaf_is_leaf. cbn [andb]. cbv zeta. rewrite fabric_spines.
    rewrite (fold_left_appends (fun spine => [[leaf_name l; spine; leaf_name l']])).
    simpl. generalize (seq 0 S) as spines.
    induction spines as [|s spines IH]; simpl; [done | by rewrite IH].
  - intros src dst Hne Hsrc.
    assert (contains "leaf" src = false) as Hno.
    { destruct Hsrc as [(l & h & ->)|(s & ->)];
        [apply host_is_no_leaf | apply spine_is_no_leaf]. }
    unfold compute_ecmp_paths.
    destruct (String.eqb_spec src dst) as [?|_]; [done|].
    destruct (String.eqb_spec dst src) as [?|_]; [done|].
    rewrite Hno, andb_false_r. done.
Qed.

End EqualCostPaths.
